(** * ins_file_tool: the Insta360 trailer decoder and rewriter

    A shallow embedding of [src/ins_file_tool.c] (with the growable array of
    [src/c_vector.h]) and the properties of its trailer decode / mutate /
    re-encode pipeline.

    Conventions of the embedding.
    - Bytes are [Byte.byte]; a buffer is a [list byte]; a pointer into a
      buffer is the [Z] offset from the start of its allocation.
    - Machine integers are [Z] with every conversion of the C program written
      out ([to_uint32], [to_int32], [to_uint64], [to_uint8]).  The platform is
      the one the tool was written for: 32-bit [int], 64-bit [size_t], two's
      complement, little endian, [#pragma pack(1)] structures.
    - An access outside an allocation is undefined behaviour in C; it is the
      [Fault] outcome here and carries what was attempted.
    - [free] of an allocated block is not modelled; [free] of a pointer that
      was never assigned is a [Fault].  What [printf] writes is modelled for
      the show mode, as the list of the lines printed with their arguments.
    - The output file is written through a fully buffered stream with a
      buffer of 4096 bytes. *)

From Stdlib Require Import ZArith List Bool Lia Strings.Byte.
From Stdlib Require Strings.String.
Import ListNotations.
Import String.StringSyntax.
Local Open Scope Z_scope.
Delimit Scope string_scope with string.

(** ** Machine integers *)

Definition to_uint8 (z : Z) : Z := z mod 256.
Definition to_uint32 (z : Z) : Z := z mod 2 ^ 32.
Definition to_uint64 (z : Z) : Z := z mod 2 ^ 64.
Definition to_int32 (z : Z) : Z := (z + 2 ^ 31) mod 2 ^ 32 - 2 ^ 31.
Definition to_int64 (z : Z) : Z := (z + 2 ^ 63) mod 2 ^ 64 - 2 ^ 63.

(** The value of a byte, and the [uint8_t] conversion of an integer. *)
Definition u8 (b : byte) : Z := Z.of_N (Byte.to_N b).

Definition byte_of (z : Z) : byte :=
  match Byte.of_N (Z.to_N (to_uint8 z)) with
  | Some b => b
  | None => x00
  end.

(** Little-endian integers, as the packed structures are laid out in the file. *)
Fixpoint le_decode (bs : list byte) : Z :=
  match bs with
  | [] => 0
  | b :: bs' => u8 b + 256 * le_decode bs'
  end.

Fixpoint le_encode (n : nat) (z : Z) : list byte :=
  match n with
  | O => []
  | S n' => byte_of z :: le_encode n' (z / 256)
  end.

(** ** Outcomes: a result, or undefined behaviour *)

Inductive fault : Type :=
| BadRead (addr len : Z)          (* load of [len] bytes at [addr], outside the buffer *)
| BadWrite (size pos len : Z)     (* store of [len] bytes at [pos] in a block of [size] bytes *)
| BadAlloc (size : Z)             (* malloc of a negative [int], or a capacity past [int32_t] *)
| BadFree.                        (* free of a pointer that was never assigned *)

Inductive outcome (A : Type) : Type :=
| Done (a : A)
| Fault (f : fault).
Arguments Done {A} a.
Arguments Fault {A} f.

Definition bind {A B : Type} (c : outcome A) (k : A -> outcome B) : outcome B :=
  match c with
  | Done a => k a
  | Fault f => Fault f
  end.

Notation "x <- c ;; k" := (bind c (fun x => k))
  (at level 61, c at next level, right associativity).
Notation "' pat <- c ;; k" := (bind c (fun x => match x with pat => k end))
  (at level 61, pat pattern, c at next level, right associativity).

(** ** Memory *)

Definition buffer := list byte.

Definition len (m : buffer) : Z := Z.of_nat (length m).

(** [memcpy]/[fread]/[fwrite] source: [n] bytes at [p].  A count of zero
    touches nothing; a negative [int] count becomes a huge [size_t]. *)
Definition load_bytes (m : buffer) (p n : Z) : outcome (list byte) :=
  if n =? 0 then Done []
  else if (0 <=? p) && (0 <? n) && (p + n <=? len m)
       then Done (firstn (Z.to_nat n) (skipn (Z.to_nat p) m))
       else Fault (BadRead p n).

Definition load8 (m : buffer) (p : Z) : outcome byte :=
  if 0 <=? p then
    match nth_error m (Z.to_nat p) with
    | Some b => Done b
    | None => Fault (BadRead p 1)
    end
  else Fault (BadRead p 1).

Definition load_u16 (m : buffer) (p : Z) : outcome Z :=
  bs <- load_bytes m p 2 ;; Done (le_decode bs).

Definition load_u32 (m : buffer) (p : Z) : outcome Z :=
  bs <- load_bytes m p 4 ;; Done (le_decode bs).

(** [memcpy] destination: a malloc'ed block [blk], written at [pos]. *)
Definition store_bytes (blk : buffer) (pos : Z) (src : list byte) : outcome buffer :=
  match src with
  | [] => Done blk
  | _ =>
      if (0 <=? pos) && (pos + len src <=? len blk)
      then Done (firstn (Z.to_nat pos) blk ++ src ++ skipn (Z.to_nat (pos + len src)) blk)
      else Fault (BadWrite (len blk) pos (len src))
  end.

Definition store8 (blk : buffer) (pos : Z) (b : byte) : outcome buffer :=
  store_bytes blk pos [b].

(** [malloc] followed by [memset (.., 0, ..)]. *)
Definition malloc_zero (size : Z) : outcome buffer :=
  if size <? 0 then Fault (BadAlloc size) else Done (repeat x00 (Z.to_nat size)).

(** ** c_vector.h *)

Definition vector_t (A : Type) := list A.
Definition vector_init {A : Type} : vector_t A := [].
Definition vector_push {A : Type} (v : vector_t A) (x : A) : vector_t A := v ++ [x].
Definition vector_size {A : Type} (v : vector_t A) : Z := Z.of_nat (length v).

(** [vector_push] where the number of records is not bounded by the code
    itself.  The capacity is an [int32_t] doubled by [m << 1]: once the
    vector holds [2^30] records the next push overflows it.  ([realloc] is
    taken to succeed until then.) *)
Definition vector_push_checked {A : Type} (v : vector_t A) (x : A) : outcome (vector_t A) :=
  if vector_size v <? 2 ^ 30 then Done (vector_push v x) else Fault (BadAlloc (2 ^ 31)).

(** ** Constants and structures of the file format *)

Definition kInsFileSignature : list byte :=
  [x38; x64; x62; x34; x32; x64; x36; x39; x34; x63; x63; x63; x34; x31; x38; x37;
   x39; x30; x65; x64; x66; x66; x34; x33; x39; x66; x65; x30; x32; x36; x62; x66].
Definition kInsFileSignatureLength : Z := 32.
Definition kInsFileMinHeaderLength : Z := kInsFileSignatureLength + 40.
Definition kCopyBufferSize : Z := 8 * 1024.

Definition sizeof_InsFileTrailerEntryHeaderType : Z := 6.
Definition sizeof_InsFileTrailerHeaderType : Z := 8.
Definition sizeof_InsFileSpecificDataTagHeaderType : Z := 2.

Definition kInsFileSpecificHeaderTagTypeSerial : Z := 0x0A.
Definition kInsFileSpecificHeaderTagTypeModel : Z := 0x12.
Definition kInsFileSpecificHeaderTagTypeFirmware : Z := 0x1A.
Definition kInsFileSpecificHeaderTagTypeOffset : Z := 0x2A.
Definition kInsFileSpecificHeaderTagTypeUnknown : Z := 0xFF.

Record InsFileTrailerHeaderType : Type := mkTrailerHeader {
  trailer_len : Z;
  trailer_version : Z
}.

(** The in-RAM records hold pointers into the trailer buffer. *)
Module TagInfo.
Record t : Type := mk {
  hdr_offset : Z;     (* offset in the specific data payload *)
  hdr : Z;            (* pointer to the 2-byte tag header *)
  data : Z            (* pointer to the tag value *)
}.
End TagInfo.
Definition InsSpecificDataTagHeaderInfoType := TagInfo.t.

Module EntryInfo.
Record t : Type := mk {
  hdr : Z;                       (* pointer to the 6-byte entry header *)
  trailer_offset_to_data : Z     (* uint64_t offset of the payload *)
}.
End EntryInfo.
Definition InsTrailerEntryHeaderInfoType := EntryInfo.t.

(** Field reads through a header pointer. *)
Definition tag_type_code (m : buffer) (p : Z) : outcome Z :=
  b <- load8 m p ;; Done (u8 b).
Definition tag_data_size (m : buffer) (p : Z) : outcome Z :=
  b <- load8 m (p + 1) ;; Done (u8 b).
Definition entry_type (m : buffer) (p : Z) : outcome Z := load_u16 m p.
Definition entry_length (m : buffer) (p : Z) : outcome Z := load_u32 m (p + 2).

(** ** ins_decode_trailer_specific_header *)

Record spec_decode_result : Type := mkSpecDecode {
  sd_ret : Z;                         (* -1, or hdr_elements_count *)
  sd_elements : vector_t TagInfo.t;   (* out_hdr_elements after the call *)
  sd_tail : option (Z * Z);           (* out_tail_ptr, out_tail_size; written on success only *)
  sd_reads : list Z                   (* ghost: the addresses dereferenced, in order *)
}.

Definition kMaxTagsCount : nat := 4.

(** The loop body runs [iters] more times; [position], [bytes_left],
    [hdr_elements_count] and the vector are the loop-carried variables. *)
Fixpoint decode_specific_loop (m : buffer) (hdr_data hdr_size : Z) (iters : nat)
    (position bytes_left hdr_elements_count : Z)
    (out_hdr_elements : vector_t TagInfo.t) (reads : list Z)
  : outcome spec_decode_result :=
  match iters with
  | O =>
      Done (mkSpecDecode hdr_elements_count out_hdr_elements
              (Some (hdr_data + position, bytes_left)) reads)
  | S iters' =>
      let element_offset := position in
      let tag_hdr := hdr_data + position in
      let position := position + sizeof_InsFileSpecificDataTagHeaderType in
      data_size <- tag_data_size m tag_hdr ;;
      let reads := reads ++ [tag_hdr + 1] in
      if data_size >? bytes_left then
        Done (mkSpecDecode (-1) out_hdr_elements None reads)
      else
        let hdr_elem := TagInfo.mk element_offset tag_hdr (hdr_data + position) in
        let out_hdr_elements := vector_push out_hdr_elements hdr_elem in
        let hdr_elements_count := hdr_elements_count + 1 in
        let position := position + data_size in
        let bytes_left := hdr_size - position in
        if position >=? hdr_size then
          Done (mkSpecDecode hdr_elements_count out_hdr_elements
                  (Some (hdr_data + position, bytes_left)) reads)
        else
          decode_specific_loop m hdr_data hdr_size iters'
            position bytes_left hdr_elements_count out_hdr_elements reads
  end.

Definition ins_decode_trailer_specific_header (m : buffer) (hdr_data hdr_size : Z)
    (out_hdr_elements : vector_t TagInfo.t) : outcome spec_decode_result :=
  decode_specific_loop m hdr_data hdr_size kMaxTagsCount
    0 (hdr_size - 0) 0 out_hdr_elements [].

(** ** ins_change_stitching_offset *)

(** A C string is the list of its characters; the terminating NUL is not
    part of the list. *)
Definition strlen (s : list byte) : Z := len s.

(** [memcpy] from the string: [n] is an [int] converted to [size_t]. *)
Definition load_string (s : list byte) (n : Z) : outcome (list byte) :=
  if n <? 0 then Fault (BadRead 0 n) else Done (firstn (Z.to_nat n) s).

(** First loop: the size of the first stitching offset tag, 0 when none. *)
Fixpoint find_stitching_offset_size (m : buffer) (elems : list TagInfo.t) : outcome Z :=
  match elems with
  | [] => Done 0
  | spec_hdr_elem :: rest =>
      type_code <- tag_type_code m (TagInfo.hdr spec_hdr_elem) ;;
      if type_code =? kInsFileSpecificHeaderTagTypeOffset
      then tag_data_size m (TagInfo.hdr spec_hdr_elem)
      else find_stitching_offset_size m rest
  end.

(** Second loop: every tag is re-emitted, an offset tag with the new value. *)
Fixpoint rebuild_tags (m : buffer) (new_offset : list byte) (new_offset_size : Z)
    (elems : list TagInfo.t) (new_trailer_hdr : buffer) (new_trailer_hdr_pos : Z)
  : outcome (buffer * Z) :=
  match elems with
  | [] => Done (new_trailer_hdr, new_trailer_hdr_pos)
  | spec_hdr_elem :: rest =>
      let new_spec_data_tag_hdr := new_trailer_hdr_pos in
      type_code <- tag_type_code m (TagInfo.hdr spec_hdr_elem) ;;
      new_trailer_hdr <- store8 new_trailer_hdr new_spec_data_tag_hdr (byte_of type_code) ;;
      let new_trailer_hdr_pos := new_trailer_hdr_pos + sizeof_InsFileSpecificDataTagHeaderType in
      if type_code =? kInsFileSpecificHeaderTagTypeOffset then
        new_trailer_hdr <- store8 new_trailer_hdr (new_spec_data_tag_hdr + 1)
                             (byte_of new_offset_size) ;;
        value <- load_string new_offset new_offset_size ;;
        new_trailer_hdr <- store_bytes new_trailer_hdr new_trailer_hdr_pos value ;;
        rebuild_tags m new_offset new_offset_size rest new_trailer_hdr
          (new_trailer_hdr_pos + new_offset_size)
      else
        data_size <- tag_data_size m (TagInfo.hdr spec_hdr_elem) ;;
        new_trailer_hdr <- store8 new_trailer_hdr (new_spec_data_tag_hdr + 1)
                             (byte_of data_size) ;;
        value <- load_bytes m (TagInfo.data spec_hdr_elem) data_size ;;
        new_trailer_hdr <- store_bytes new_trailer_hdr new_trailer_hdr_pos value ;;
        rebuild_tags m new_offset new_offset_size rest new_trailer_hdr
          (new_trailer_hdr_pos + data_size)
  end.

Record change_result : Type := mkChange {
  cr_ret : Z;                        (* 0, or -3 *)
  cr_out : option (buffer * Z)       (* out_trailer_hdr, out_trailer_hdr_size *)
}.

Definition ins_change_stitching_offset (m : buffer)
    (in_trailer_hdr in_trailer_hdr_size : Z) (new_offset : list byte)
  : outcome change_result :=
  d <- ins_decode_trailer_specific_header m in_trailer_hdr in_trailer_hdr_size vector_init ;;
  if sd_ret d <? 0 then Done (mkChange (-3) None)
  else
    match sd_tail d with
    | None => Done (mkChange (-3) None)
    | Some (tail_ptr, tail_size) =>
        let spec_hdr_elements := sd_elements d in
        stitching_offset_current_size <- find_stitching_offset_size m spec_hdr_elements ;;
        let new_offset_size := to_int32 (strlen new_offset) in
        let new_header_size :=
          to_int32 (in_trailer_hdr_size - stitching_offset_current_size + new_offset_size) in
        new_trailer_hdr <- malloc_zero new_header_size ;;
        '(new_trailer_hdr, new_trailer_hdr_pos) <-
          rebuild_tags m new_offset new_offset_size spec_hdr_elements new_trailer_hdr 0 ;;
        '(new_trailer_hdr, new_trailer_hdr_pos) <-
          (if stitching_offset_current_size =? 0 then
             let new_tag_hdr := [byte_of kInsFileSpecificHeaderTagTypeOffset;
                                 byte_of new_offset_size] in
             new_trailer_hdr <- store_bytes new_trailer_hdr new_trailer_hdr_pos new_tag_hdr ;;
             let new_trailer_hdr_pos :=
               new_trailer_hdr_pos + sizeof_InsFileSpecificDataTagHeaderType in
             value <- load_string new_offset new_offset_size ;;
             new_trailer_hdr <- store_bytes new_trailer_hdr new_trailer_hdr_pos value ;;
             Done (new_trailer_hdr, new_trailer_hdr_pos + new_offset_size)
           else Done (new_trailer_hdr, new_trailer_hdr_pos)) ;;
        tail <- load_bytes m tail_ptr tail_size ;;
        new_trailer_hdr <- store_bytes new_trailer_hdr new_trailer_hdr_pos tail ;;
        Done (mkChange 0 (Some (new_trailer_hdr, new_header_size)))
    end.

(** ** ins_decode_trailer_data *)

Record trailer_decode_result : Type := mkTrailerDecode {
  td_ret : Z;                           (* 0, or -1 *)
  td_items : vector_t EntryInfo.t;      (* out_trailer_hdr_items after the call *)
  td_read_pos : Z                       (* ghost: trailer_read_pos when the loop was left *)
}.

(** The [while] loop.  [m] is the trailer buffer and [trailer_data] its first
    byte.  [trailer_read_pos] is a [uint32_t]; a crafted [length] can make it
    wrap and the loop go on, hence the fuel: [None] means that [fuel]
    iterations were not enough.  Every turn pushes a record. *)
Fixpoint decode_trailer_loop (fuel : nat) (m : buffer) (trailer_info : InsFileTrailerHeaderType)
    (trailer_read_pos : Z) (out_trailer_hdr_items : vector_t EntryInfo.t)
  : option (outcome (Z * vector_t EntryInfo.t)) :=
  if trailer_read_pos <? trailer_len trailer_info then
    match fuel with
    | O => None
    | S fuel' =>
        let trailer_hdr :=
          trailer_len trailer_info - trailer_read_pos - sizeof_InsFileTrailerEntryHeaderType in
        match entry_length m trailer_hdr with
        | Fault f => Some (Fault f)
        | Done length =>
            let hdr_info :=
              EntryInfo.mk trailer_hdr
                (to_uint64 (to_uint32 (trailer_len trailer_info - trailer_read_pos - length)
                            - sizeof_InsFileTrailerEntryHeaderType)) in
            match vector_push_checked out_trailer_hdr_items hdr_info with
            | Fault f => Some (Fault f)
            | Done out_trailer_hdr_items =>
                decode_trailer_loop fuel' m trailer_info
                  (to_uint32 (trailer_read_pos
                              + (length + sizeof_InsFileTrailerEntryHeaderType)))
                  out_trailer_hdr_items
            end
        end
    end
  else Some (Done (trailer_read_pos, out_trailer_hdr_items)).

Definition ins_decode_trailer_data (fuel : nat) (m : buffer)
    (trailer_info : InsFileTrailerHeaderType) (out_trailer_hdr_items : vector_t EntryInfo.t)
  : option (outcome trailer_decode_result) :=
  match decode_trailer_loop fuel m trailer_info kInsFileMinHeaderLength out_trailer_hdr_items with
  | None => None
  | Some (Fault f) => Some (Fault f)
  | Some (Done (trailer_read_pos, items)) =>
      if negb (trailer_read_pos =? trailer_len trailer_info)
      then Some (Done (mkTrailerDecode (-1) items trailer_read_pos))
      else Some (Done (mkTrailerDecode 0 items trailer_read_pos))
  end.

(** ** Files *)

(** The input file: its bytes and the position of the stream. *)
Record FILE : Type := mkFile { f_data : list byte; f_pos : Z }.

Definition fseek_set (f : FILE) (off : Z) : FILE :=
  if off <? 0 then f else mkFile (f_data f) off.
Definition fseek_end (f : FILE) (off : Z) : FILE :=
  fseek_set f (len (f_data f) + off).
Definition ftell (f : FILE) : Z := f_pos f.
Definition fread (f : FILE) (n : Z) : list byte * FILE :=
  let bs := firstn (Z.to_nat n) (skipn (Z.to_nat (f_pos f)) (f_data f)) in
  (bs, mkFile (f_data f) (f_pos f + len bs)).

(** The output file, behind the fully buffered stream [fopen] returns: the
    bytes that reached the device, the room left on the device, and the
    bytes held in the buffer of the stream. *)
Record OFILE : Type := mkOut { o_data : list byte; o_room : Z; o_buf : list byte }.

(** The size of the buffer of a stream. *)
Definition kStdioBufferSize : Z := 4096.

(** [fwrite]: bytes that fit the buffer stay there and the call reports them
    written.  When they do not fit, what the buffer holds and the new bytes
    go to the device, which takes what it has room for; the count returned
    is short when some of the new bytes did not get out. *)
Definition fwrite (o : OFILE) (bs : list byte) : Z * OFILE :=
  if len (o_buf o) + len bs <=? kStdioBufferSize then
    (len bs, mkOut (o_data o) (o_room o) (o_buf o ++ bs))
  else
    let pending := o_buf o ++ bs in
    let n := Z.min (len pending) (Z.max 0 (o_room o)) in
    (Z.max 0 (n - len (o_buf o)),
     mkOut (o_data o ++ firstn (Z.to_nat n) pending) (o_room o - n) []).

(** [fflush], and the flush of [fclose]: the buffer goes to the device. *)
Definition fflush (o : OFILE) : Z * OFILE :=
  let n := Z.min (len (o_buf o)) (Z.max 0 (o_room o)) in
  (if n =? len (o_buf o) then 0 else -1,
   mkOut (o_data o ++ firstn (Z.to_nat n) (o_buf o)) (o_room o - n) []).

Definition get_file_size (file : FILE) : Z * FILE :=
  let file := fseek_end file 0 in
  (to_int64 (ftell file), file).

Fixpoint bytes_eqb (a b : list byte) : bool :=
  match a, b with
  | [], [] => true
  | x :: a', y :: b' => Byte.eqb x y && bytes_eqb a' b'
  | _, _ => false
  end.

(** ** ins_find_and_read_minimal_header, ins_read_allocate_trailer *)

Definition ins_find_and_read_minimal_header (file : FILE) : Z * list byte * FILE :=
  let '(file_length, file) := get_file_size file in
  if file_length <? kInsFileMinHeaderLength then (-1, [], file)
  else
    let file := fseek_end file (- kInsFileSignatureLength) in
    let '(ins_signature_buffer, file) := fread file kInsFileSignatureLength in
    if negb (len ins_signature_buffer =? kInsFileSignatureLength) then (-1, [], file)
    else if negb (bytes_eqb ins_signature_buffer kInsFileSignature) then (-1, [], file)
    else
      let file := fseek_end file (- kInsFileMinHeaderLength) in
      let '(out_minimal_header, file) := fread file kInsFileMinHeaderLength in
      if negb (len out_minimal_header =? kInsFileMinHeaderLength) then (-1, [], file)
      else (0, out_minimal_header, file).

Definition ins_read_allocate_trailer (file : FILE)
  : Z * option (buffer * InsFileTrailerHeaderType) * FILE :=
  let '(r, minimal_ins_header_data, file) := ins_find_and_read_minimal_header file in
  if r <? 0 then (-1, None, file)
  else
    let at_info :=
      skipn (Z.to_nat (kInsFileMinHeaderLength - kInsFileSignatureLength
                       - sizeof_InsFileTrailerHeaderType)) minimal_ins_header_data in
    let trailer_info :=
      mkTrailerHeader (le_decode (firstn 4 at_info)) (le_decode (firstn 4 (skipn 4 at_info))) in
    let file := fseek_end file (to_int32 (- to_int32 (trailer_len trailer_info))) in
    let '(trailer_data, file) := fread file (trailer_len trailer_info) in
    if trailer_len trailer_info >? len trailer_data then (-2, None, file)
    else (0, Some (trailer_data, trailer_info), file).

(** ** run_change_stitching_offset *)

(** First pass over the entries: every entry of type 0x0101 is rebuilt, the
    last one rebuilt is the one kept in [new_spec_trailer_hdr]. *)
Fixpoint change_entries_loop (m : buffer) (param_new_offset : list byte)
    (items : list EntryInfo.t) (new_spec : option (buffer * Z))
  : outcome (Z * option (buffer * Z)) :=
  match items with
  | [] => Done (0, new_spec)
  | hdr_info :: rest =>
      type <- entry_type m (EntryInfo.hdr hdr_info) ;;
      if type =? 0x0101 then
        length <- entry_length m (EntryInfo.hdr hdr_info) ;;
        r <- ins_change_stitching_offset m (EntryInfo.trailer_offset_to_data hdr_info)
               (to_int32 length) param_new_offset ;;
        if cr_ret r <? 0 then Done (-7, new_spec)
        else change_entries_loop m param_new_offset rest (cr_out r)
      else change_entries_loop m param_new_offset rest new_spec
  end.

(** Copy of the media data in chunks of [kCopyBufferSize]; the flag is [error]. *)
Fixpoint copy_media_loop (fuel : nat) (file : FILE) (file_out : OFILE)
    (file_in_size trailer_len : Z) (write_pos : Z) : option (bool * FILE * OFILE) :=
  if write_pos <? file_in_size - trailer_len then
    match fuel with
    | O => None
    | S fuel' =>
        let bytes_to_copy := to_int32 (file_in_size - trailer_len - write_pos) in
        let bytes_to_copy :=
          if to_uint64 bytes_to_copy >? kCopyBufferSize then kCopyBufferSize else bytes_to_copy in
        let '(copy_buffer, file) := fread file (to_uint64 bytes_to_copy) in
        if negb (len copy_buffer =? to_uint64 bytes_to_copy) then Some (true, file, file_out)
        else
          let '(written, file_out) := fwrite file_out copy_buffer in
          if negb (written =? to_uint64 bytes_to_copy) then Some (true, file, file_out)
          else copy_media_loop fuel' file file_out file_in_size trailer_len
                 (to_int32 (write_pos + bytes_to_copy))
    end
  else Some (false, file, file_out).

(** The [switch] of the second pass: the type, the length and the payload
    to write for one entry. *)
Definition entry_to_write (m : buffer) (new_spec : option (buffer * Z))
    (hdr_info : EntryInfo.t) : outcome (Z * Z * list byte) :=
  type <- entry_type m (EntryInfo.hdr hdr_info) ;;
  if type =? 0x0101 then
    match new_spec with
    | None => Fault (BadRead 0 0)     (* the pointer was never set *)
    | Some (new_spec_trailer_hdr, new_spec_trailer_size) =>
        payload <- load_bytes new_spec_trailer_hdr 0 new_spec_trailer_size ;;
        Done (type, to_uint32 new_spec_trailer_size, payload)
    end
  else
    length <- entry_length m (EntryInfo.hdr hdr_info) ;;
    payload <- load_bytes m (EntryInfo.trailer_offset_to_data hdr_info) length ;;
    Done (type, length, payload).

(** Second pass, from the last entry found to the first: payload, then the
    6-byte entry header.  The results of [fwrite] are not looked at. *)
Fixpoint rebuild_trailer_loop (m : buffer) (new_spec : option (buffer * Z))
    (items_backwards : list EntryInfo.t) (file_out : OFILE) (total_new_trailer_size : Z)
  : outcome (OFILE * Z) :=
  match items_backwards with
  | [] => Done (file_out, total_new_trailer_size)
  | hdr_info :: rest =>
      '(type, length, payload) <- entry_to_write m new_spec hdr_info ;;
      let file_out := snd (fwrite file_out payload) in
      let new_trailer_elem_hdr := le_encode 2 type ++ le_encode 4 length in
      let file_out := snd (fwrite file_out new_trailer_elem_hdr) in
      rebuild_trailer_loop m new_spec rest file_out
        (to_int32 (total_new_trailer_size + (length + sizeof_InsFileTrailerEntryHeaderType)))
  end.

Fixpoint write_zero_padding (n : nat) (file_out : OFILE) : OFILE :=
  match n with
  | O => file_out
  | S n' => write_zero_padding n' (snd (fwrite file_out [x00]))
  end.

Record run_result : Type := mkRun {
  rr_ret : Z;                       (* the exit code *)
  rr_out : option (list byte)       (* the output file, once it has been created *)
}.

(** [ins_free_trailer_buffer (new_spec_trailer_hdr)]: the pointer is assigned
    by a successful [ins_change_stitching_offset] only. *)
Definition free_new_spec (new_spec : option (buffer * Z)) : outcome unit :=
  match new_spec with
  | Some _ => Done tt
  | None => Fault BadFree
  end.

(** [file_in]: the bytes of the input file, [None] when it cannot be opened.
    [out_room]: the room on the output device, [None] when the output file
    cannot be created.  The output file of the result is what the device
    holds after [fclose]. *)
Definition run_change_stitching_offset (fuel : nat) (file_in : option (list byte))
    (out_room : option Z) (param_new_offset : list byte) : option (outcome run_result) :=
  match file_in with
  | None => Some (Done (mkRun (-2) None))
  | Some bytes =>
  let file := mkFile bytes 0 in
  match ins_read_allocate_trailer file with
  | (_, None, _) => Some (Done (mkRun (-3) None))
  | (r, Some (trailer_data, trailer_info), file) =>
  if r <? 0 then Some (Done (mkRun (-3) None)) else
  match ins_decode_trailer_data fuel trailer_data trailer_info vector_init with
  | None => None
  | Some (Fault f) => Some (Fault f)
  | Some (Done d) =>
  if td_ret d <? 0 then Some (Done (mkRun (-4) None)) else
  let trailer_hdr_infos := td_items d in
  match change_entries_loop trailer_data param_new_offset trailer_hdr_infos None with
  | Fault f => Some (Fault f)
  | Done (r, new_spec) =>
  if r <? 0 then Some (Done (mkRun (-7) None)) else
  let '(file_in_size, file) := get_file_size file in
  let file := fseek_set file 0 in
  match out_room with
  | None =>
      match free_new_spec new_spec with
      | Fault f => Some (Fault f)
      | Done _ => Some (Done (mkRun (-5) None))
      end
  | Some room =>
  let file_out := mkOut [] room [] in
  match copy_media_loop fuel file file_out file_in_size (trailer_len trailer_info) 0 with
  | None => None
  | Some (error, file, file_out) =>
  if error then
    match free_new_spec new_spec with
    | Fault f => Some (Fault f)
    | Done _ => Some (Done (mkRun (-6) (Some (o_data (snd (fflush file_out))))))
    end
  else
  match rebuild_trailer_loop trailer_data new_spec (rev trailer_hdr_infos) file_out 0 with
  | Fault f => Some (Fault f)
  | Done (file_out, total_new_trailer_size) =>
  let zero_padding_size :=
    kInsFileMinHeaderLength - kInsFileSignatureLength - sizeof_InsFileTrailerHeaderType in
  let file_out := write_zero_padding (Z.to_nat zero_padding_size) file_out in
  let new_trailer_hdr :=
    mkTrailerHeader
      (to_uint32 (to_int32 (total_new_trailer_size + kInsFileMinHeaderLength)))
      (trailer_version trailer_info) in
  let file_out :=
    snd (fwrite file_out (le_encode 4 (trailer_len new_trailer_hdr)
                          ++ le_encode 4 (trailer_version new_trailer_hdr))) in
  let file_out := snd (fwrite file_out kInsFileSignature) in
  match free_new_spec new_spec with
  | Fault f => Some (Fault f)
  | Done _ =>
  let file_out := snd (fflush file_out) in
  Some (Done (mkRun 0 (Some (o_data file_out))))
  end end end end end end end end.


(** ** ins_get_header_field_name *)

Definition kInsSpecificTagNameInfos : list (Z * String.string) :=
  [(kInsFileSpecificHeaderTagTypeSerial, "serial"%string);
   (kInsFileSpecificHeaderTagTypeFirmware, "firmware"%string);
   (kInsFileSpecificHeaderTagTypeModel, "model"%string);
   (kInsFileSpecificHeaderTagTypeOffset, "stitching offset"%string);
   (kInsFileSpecificHeaderTagTypeUnknown, "unknown"%string)].

(** The [for (i = 0; ; i++)] loop, from the entry of index [i] on.  The loop
    has no bound of its own: past the last entry it reads outside the array. *)
Fixpoint field_name_loop (table : list (Z * String.string)) (i : Z) (type_code : Z)
  : outcome String.string :=
  match table with
  | [] => Fault (BadRead i 1)
  | (type, name) :: rest =>
      if type =? kInsFileSpecificHeaderTagTypeUnknown then Done name
      else if type =? type_code then Done name
      else field_name_loop rest (i + 1) type_code
  end.

Definition ins_get_header_field_name (type_code : Z) : outcome String.string :=
  field_name_loop kInsSpecificTagNameInfos 0 (to_uint8 type_code).

(** ** run_show_info *)

(** One constructor for each [printf] of the show mode, with its arguments. *)
Inductive line : Type :=
| UseFile (param_file_in : list byte)
| CannotOpenFile
| CannotDecodeFileHeader
| TrailerVersionLength (version length : Z)
| CannotDecodeTrailerHeader
| TrailerDecoded (entries_count : Z)
| TailEntryFound (type size offset : Z)
| FoundSpecific (type size : Z)
| ProcessHeaderError
| SpecificDecoded (tags_count tail_size : Z)
| TagLine (type_code : Z) (name : String.string) (size hdr_offset : Z)
| TagData (bytes : list byte)
| FoundOther (type size : Z)
| DoneLine.

(** The loop over [j]: every record of the vector is printed, its value
    read byte by byte from the trailer buffer. *)
Fixpoint show_tags_loop (m : buffer) (elems : list TagInfo.t) : outcome (list line) :=
  match elems with
  | [] => Done []
  | spec_hdr :: rest =>
      type_code <- tag_type_code m (TagInfo.hdr spec_hdr) ;;
      name <- ins_get_header_field_name type_code ;;
      data_size <- tag_data_size m (TagInfo.hdr spec_hdr) ;;
      bytes <- load_bytes m (TagInfo.data spec_hdr) data_size ;;
      lines <- show_tags_loop m rest ;;
      Done (TagLine type_code name data_size (TagInfo.hdr_offset spec_hdr)
              :: TagData bytes :: lines)
  end.

(** The loop over the entries.  [spec_hdr_elements] is initialised once,
    before the loop, and handed to every call of the tag decoder. *)
Fixpoint show_entries_loop (m : buffer) (items : list EntryInfo.t)
    (spec_hdr_elements : vector_t TagInfo.t) (out : list line)
  : outcome (Z * list line) :=
  match items with
  | [] => Done (0, out)
  | hdr_info :: rest =>
      type <- entry_type m (EntryInfo.hdr hdr_info) ;;
      length <- entry_length m (EntryInfo.hdr hdr_info) ;;
      let out :=
        out ++ [TailEntryFound type (to_int32 length)
                  (to_int32 (EntryInfo.trailer_offset_to_data hdr_info))] in
      if type =? 0x0101 then
        let out := out ++ [FoundSpecific type (to_int32 length)] in
        d <- ins_decode_trailer_specific_header m (EntryInfo.trailer_offset_to_data hdr_info)
               (to_int32 length) spec_hdr_elements ;;
        if sd_ret d <? 0 then Done (-3, out ++ [ProcessHeaderError])
        else
          let spec_hdr_elements := sd_elements d in
          let tail_size := match sd_tail d with Some (_, size) => size | None => 0 end in
          let out := out ++ [SpecificDecoded (vector_size spec_hdr_elements) tail_size] in
          lines <- show_tags_loop m spec_hdr_elements ;;
          show_entries_loop m rest spec_hdr_elements (out ++ lines)
      else
        show_entries_loop m rest spec_hdr_elements
          (out ++ [FoundOther type (to_int32 length)])
  end.

(** [file_in]: the bytes of the input file, [None] when it cannot be opened.
    The result is the exit code and what was printed. *)
Definition run_show_info (fuel : nat) (param_file_in : list byte)
    (file_in : option (list byte)) : option (outcome (Z * list line)) :=
  let out := [UseFile param_file_in] in
  match file_in with
  | None => Some (Done (-2, out ++ [CannotOpenFile]))
  | Some bytes =>
  let file := mkFile bytes 0 in
  match ins_read_allocate_trailer file with
  | (_, None, _) => Some (Done (-3, out ++ [CannotDecodeFileHeader]))
  | (r, Some (trailer_data, trailer_info), file) =>
  if r <? 0 then Some (Done (-3, out ++ [CannotDecodeFileHeader])) else
  let out :=
    out ++ [TrailerVersionLength (to_int32 (trailer_version trailer_info))
              (to_int32 (trailer_len trailer_info))] in
  match ins_decode_trailer_data fuel trailer_data trailer_info vector_init with
  | None => None
  | Some (Fault f) => Some (Fault f)
  | Some (Done d) =>
  if td_ret d <? 0 then Some (Done (-4, out ++ [CannotDecodeTrailerHeader])) else
  let trailer_hdr_infos := td_items d in
  let out := out ++ [TrailerDecoded (vector_size trailer_hdr_infos)] in
  match show_entries_loop trailer_data trailer_hdr_infos vector_init out with
  | Fault f => Some (Fault f)
  | Done (r, out) =>
  if r <? 0 then Some (Done (r, out)) else Some (Done (0, out ++ [DoneLine]))
  end end end end.

(** ** main *)

(** [argv] holds [argc] strings and is followed by one null pointer; what
    [main] does is leave with an exit code or call one of the two modes. *)
Inductive invocation : Type :=
| Exit (code : Z)
| ShowInfo (param_file_in : list byte)
| ChangeStitchingOffset (param_file_in : list byte)
    (param_file_out param_new_offset : option (list byte)).   (* [None]: a null pointer *)

(** [argv[i]]: a string, the null pointer at [i = argc], nothing beyond. *)
Definition argv_at (argv : list (list byte)) (i : nat) : outcome (option (list byte)) :=
  match nth_error argv i with
  | Some s => Done (Some s)
  | None => if Nat.eqb i (length argv) then Done None else Fault (BadRead (Z.of_nat i) 1)
  end.

(** [!strcmp(a, b)]. *)
Definition strcmp_is_0 (a b : list byte) : bool := bytes_eqb a b.

Definition main (argv : list (list byte)) : outcome invocation :=
  let argc := Z.of_nat (length argv) in
  if argc <? 3 then Done (Exit (-1))
  else
    match argv with
    | _ :: param_mode :: param_file_in :: _ =>
        if strcmp_is_0 param_mode [x2d; x73] then Done (ShowInfo param_file_in)
        else if strcmp_is_0 param_mode [x2d; x63] then
          param_file_out <- argv_at argv 3 ;;
          param_new_offset <- argv_at argv 4 ;;
          Done (ChangeStitchingOffset param_file_in param_file_out param_new_offset)
        else Done (Exit (-1))
    | _ => Done (Exit (-1))
    end.

(** ** c_vector.h, with the block and its capacity *)

Module CVector.

(** [vector_t(type)].  A slot of the block that was never written holds
    [None]; reading it gives no value. *)
Record t (A : Type) : Type := mk {
  n : Z;                     (* the size *)
  m : Z;                     (* the capacity *)
  a : list (option A)        (* the block, [m] slots; the empty list is the null pointer *)
}.
Arguments mk {A} n m a.
Arguments n {A} t.
Arguments m {A} t.
Arguments a {A} t.

Definition slots {A : Type} (blk : list (option A)) : Z := Z.of_nat (length blk).

(** [realloc] to [count] elements: the slots kept are unchanged, the new
    ones are indeterminate.  A negative [int32_t] count is a huge [size_t]. *)
Definition realloc {A : Type} (blk : list (option A)) (count : Z)
  : outcome (list (option A)) :=
  if count <? 0 then Fault (BadAlloc count)
  else Done (firstn (Z.to_nat count) blk ++ repeat None (Z.to_nat count - length blk)).

Definition load {A : Type} (blk : list (option A)) (i : Z) : outcome A :=
  if 0 <=? i then
    match nth_error blk (Z.to_nat i) with
    | Some (Some x) => Done x
    | _ => Fault (BadRead i 1)
    end
  else Fault (BadRead i 1).

Definition store {A : Type} (blk : list (option A)) (i : Z) (x : A)
  : outcome (list (option A)) :=
  if (0 <=? i) && (i <? slots blk)
  then Done (firstn (Z.to_nat i) blk ++ Some x :: skipn (S (Z.to_nat i)) blk)
  else Fault (BadWrite (slots blk) i 1).

(** [vector_roundup32], on an [int32_t]. *)
Definition vector_roundup32 (x : Z) : Z :=
  let x := to_int32 (x - 1) in
  let x := Z.lor x (Z.shiftr x 1) in
  let x := Z.lor x (Z.shiftr x 2) in
  let x := Z.lor x (Z.shiftr x 4) in
  let x := Z.lor x (Z.shiftr x 8) in
  let x := Z.lor x (Z.shiftr x 16) in
  to_int32 (x + 1).

Definition vector_init {A : Type} : t A := mk 0 0 [].
Definition vector_size {A : Type} (v : t A) : Z := n v.
Definition vector_max {A : Type} (v : t A) : Z := m v.
Definition vector_at {A : Type} (v : t A) (i : Z) : outcome A := load (a v) i.

Definition vector_pop {A : Type} (v : t A) : outcome (A * t A) :=
  let n' := to_int32 (n v - 1) in
  x <- load (a v) n' ;;
  Done (x, mk n' (m v) (a v)).

Definition vector_resize {A : Type} (v : t A) (s : Z) : outcome (t A) :=
  blk <- realloc (a v) s ;;
  Done (mk (n v) s blk).

(** [(v)->m ? (v)->m << 1 : 2]; the shift of an [int32_t] must fit. *)
Definition next_capacity (m : Z) : outcome Z :=
  if m =? 0 then Done 2
  else if (0 <? m) && (Z.shiftl m 1 <? 2 ^ 31) then Done (Z.shiftl m 1)
  else Fault (BadAlloc (Z.shiftl m 1)).

(** The first half of [vector_push] and [vector_pushp]. *)
Definition make_room {A : Type} (v : t A) : outcome (t A) :=
  if n v =? m v then
    m' <- next_capacity (m v) ;;
    blk <- realloc (a v) m' ;;
    Done (mk (n v) m' blk)
  else Done v.

Definition vector_push {A : Type} (v : t A) (x : A) : outcome (t A) :=
  v <- make_room v ;;
  blk <- store (a v) (n v) x ;;
  Done (mk (to_int32 (n v + 1)) (m v) blk).

(** [vector_pushp]: the index of the new slot, which is not written. *)
Definition vector_pushp {A : Type} (v : t A) : outcome (Z * t A) :=
  v <- make_room v ;;
  Done (n v, mk (to_int32 (n v + 1)) (m v) (a v)).

(** [vector_a (type, v, i)]: the vector after the bookkeeping; the value of
    the expression is then the slot [i] of its block. *)
Definition vector_a {A : Type} (v : t A) (i : Z) : outcome (t A) :=
  if m v <=? i then
    let n' := to_int32 (i + 1) in
    let m' := vector_roundup32 n' in
    blk <- realloc (a v) m' ;;
    Done (mk n' m' blk)
  else if n v <=? i then Done (mk i (m v) (a v))
  else Done v.

End CVector.
(** ** Concrete files and payloads *)

(** A trailer made of the given entry bytes, version 3, after [media]. *)
Definition example_file (media entries : list byte) : list byte :=
  media ++ entries ++ repeat x00 32
    ++ le_encode 4 (len entries + 72) ++ le_encode 4 3 ++ kInsFileSignature.

(** One entry: the payload, then [{type, length}]. *)
Definition example_entry (type : Z) (payload : list byte) : list byte :=
  payload ++ le_encode 2 type ++ le_encode 4 (len payload).

(** Media [01 02 03], then one specific-info entry whose payload is the
    single tag [2A 01 '1']. *)
Definition one_entry_file : list byte :=
  example_file [x01; x02; x03] (example_entry 0x0101 [x2a; x01; x31]).

(** No media; one specific-info entry: an empty stitching offset tag, three
    empty serial tags and the two tail bytes [48 49]. *)
Definition empty_offset_file : list byte :=
  example_file []
    (example_entry 0x0101 [x2a; x00; x0a; x00; x0a; x00; x0a; x00; x48; x49]).

(** A 100-byte trailer buffer with two overlapping entry headers: at offset
    22 a header of length 0xFFFFFFFF, at offset 17 a header of length 17. *)
Definition wrapping_trailer : buffer :=
  repeat x00 17 ++ [x00; x03] ++ [x11; x00; x00] ++ [x00; x03]
    ++ [xff; xff; xff; xff] ++ repeat x00 72.

(** The trailer buffer of a file with an entry of type 0x0300 and 2 payload
    bytes, then a specific-info entry of 3 payload bytes. *)
Definition two_entry_trailer : buffer :=
  example_entry 0x0300 [x07; x08] ++ example_entry 0x0101 [x2a; x01; x31]
    ++ repeat x00 32 ++ le_encode 4 89 ++ le_encode 4 3 ++ kInsFileSignature.

(** The sum of [6 + length] over the entries of a vector. *)
Fixpoint consumed_length (m : buffer) (items : list EntryInfo.t) : outcome Z :=
  match items with
  | [] => Done 0
  | hdr_info :: rest =>
      length <- entry_length m (EntryInfo.hdr hdr_info) ;;
      total <- consumed_length m rest ;;
      Done (length + sizeof_InsFileTrailerEntryHeaderType + total)
  end.

(** [region m p x]: the bytes [x] sit in [m] at offset [p]. *)
Definition region (m : buffer) (p : Z) (x : list byte) : Prop :=
  exists pre post, m = pre ++ x ++ post /\ len pre = p.


(** ** The file format, as data *)

(** A tag of the specific-info payload: its type code and its value. *)
Definition tag : Type := (byte * list byte)%type.

Definition encode_tag (t : tag) : list byte :=
  fst t :: byte_of (len (snd t)) :: snd t.

Definition encode_tags (ts : list tag) : list byte := flat_map encode_tag ts.

Definition is_offset_tag (t : tag) : bool :=
  u8 (fst t) =? kInsFileSpecificHeaderTagTypeOffset.

(** The value of every offset tag replaced. *)
Definition set_offset (new_offset : list byte) (t : tag) : tag :=
  if is_offset_tag t then (fst t, new_offset) else t.

(** The size of the first offset tag, 0 when there is none. *)
Fixpoint first_offset_size (ts : list tag) : Z :=
  match ts with
  | [] => 0
  | t :: rest => if is_offset_tag t then len (snd t) else first_offset_size rest
  end.

(** The records the tag decoder appends for tags laid out from [position]. *)
Fixpoint tag_infos (hdr_data position : Z) (ts : list tag) : list TagInfo.t :=
  match ts with
  | [] => []
  | t :: rest =>
      TagInfo.mk position (hdr_data + position) (hdr_data + (position + 2))
        :: tag_infos hdr_data (position + 2 + len (snd t)) rest
  end.

(** A payload the decoder reads as the tags [ts] followed by [tail]: one to
    four tags, values of at most 255 bytes, and no tail unless there are
    four tags. *)
Definition wf_tags (ts : list tag) (tail : list byte) : Prop :=
  ts <> [] /\ (length ts <= 4)%nat /\
  Forall (fun t => len (snd t) <= 255) ts /\
  ((length ts < 4)%nat -> tail = []).

(** Exactly one offset tag, and its value is not empty. *)
Definition single_offset_tag (ts : list tag) : Prop :=
  length (filter is_offset_tag ts) = 1%nat /\ first_offset_size ts <> 0.

(** An entry of the trailer: the specific-info entry with its tags and tail,
    or an entry of another type with its payload. *)
Inductive entry : Type :=
| SpecificInfo (tags : list tag) (tail : list byte)
| Opaque (type : Z) (payload : list byte).

Definition entry_type_of (e : entry) : Z :=
  match e with
  | SpecificInfo _ _ => 0x0101
  | Opaque type _ => type
  end.

Definition entry_payload (e : entry) : list byte :=
  match e with
  | SpecificInfo tags tail => encode_tags tags ++ tail
  | Opaque _ payload => payload
  end.

(** In the file an entry is its payload followed by its 6-byte header. *)
Definition encode_entry (e : entry) : list byte :=
  entry_payload e ++ le_encode 2 (entry_type_of e) ++ le_encode 4 (len (entry_payload e)).

Definition encode_entries (es : list entry) : list byte := flat_map encode_entry es.

(** The last 72 bytes: padding, trailer header, signature. *)
Definition minimal_header (trailer_len version : Z) : list byte :=
  repeat x00 32 ++ le_encode 4 trailer_len ++ le_encode 4 version ++ kInsFileSignature.

(** A trailer: the entries in file order, then the minimal header. *)
Definition encode_trailer (es : list entry) (version : Z) : list byte :=
  encode_entries es
    ++ minimal_header (len (encode_entries es) + kInsFileMinHeaderLength) version.

Definition wf_entry (e : entry) : Prop :=
  match e with
  | SpecificInfo tags tail => wf_tags tags tail /\ single_offset_tag tags
  | Opaque type _ => 0 <= type < 2 ^ 16 /\ type <> 0x0101
  end.

(** The records of the backward walk for the entries [res], listed from the
    signature side, the first of which ends at offset [stop]. *)
Fixpoint entry_infos (stop : Z) (res : list entry) : list EntryInfo.t :=
  match res with
  | [] => []
  | e :: rest =>
      EntryInfo.mk (stop - 6) (stop - 6 - len (entry_payload e))
        :: entry_infos (stop - 6 - len (entry_payload e)) rest
  end.

(** The record [hdr_info] describes the entry [e] of the buffer [m]. *)
Definition item_at (m : buffer) (hdr_info : EntryInfo.t) (e : entry) : Prop :=
  region m (EntryInfo.trailer_offset_to_data hdr_info) (encode_entry e) /\
  EntryInfo.hdr hdr_info = EntryInfo.trailer_offset_to_data hdr_info + len (entry_payload e).

(** The first specific-info entry in file order: the one the first pass of
    the driver rebuilds last, and whose rebuilt payload the second pass
    writes for every specific-info entry. *)
Fixpoint first_specific (es : list entry) : option (list tag * list byte) :=
  match es with
  | [] => None
  | SpecificInfo tags tail :: _ => Some (tags, tail)
  | Opaque _ _ :: rest => first_specific rest
  end.

Definition rewrite_entry (new_offset : list byte) (src : option (list tag * list byte))
    (e : entry) : entry :=
  match e, src with
  | SpecificInfo _ _, Some (tags, tail) => SpecificInfo (map (set_offset new_offset) tags) tail
  | _, _ => e
  end.

Definition rewrite_entries (new_offset : list byte) (es : list entry) : list entry :=
  map (rewrite_entry new_offset (first_specific es)) es.

(** The block [ins_change_stitching_offset] returns for a well-formed
    payload, and its size. *)
Definition rebuilt_payload (new_offset : list byte) (src : list tag * list byte)
  : buffer * Z :=
  let payload := encode_tags (map (set_offset new_offset) (fst src)) ++ snd src in
  (payload, len payload).

(** What the first pass keeps after an entry. *)
Definition keep_rebuilt (new_offset : list byte) (kept : option (buffer * Z)) (e : entry)
  : option (buffer * Z) :=
  match e with
  | SpecificInfo tags tail => Some (rebuilt_payload new_offset (tags, tail))
  | Opaque _ _ => kept
  end.

(** What the second pass holds in [new_spec_trailer_hdr]. *)
Definition kept_payload (new_offset : list byte) (src : option (list tag * list byte))
  : option (buffer * Z) :=
  match src with
  | Some s => Some (rebuilt_payload new_offset s)
  | None => None
  end.

Definition has_source (src : option (list tag * list byte)) (e : entry) : Prop :=
  match e with
  | SpecificInfo _ _ => src <> None
  | Opaque _ _ => True
  end.

(** ** Reading a rewritten file back *)

(** The record [e] of the tag decoder is a stitching offset tag of [m] whose
    declared size is the length of [value] and whose bytes are [value]. *)
Definition is_offset_record (m : buffer) (value : list byte) (e : TagInfo.t) : Prop :=
  tag_type_code m (TagInfo.hdr e) = Done kInsFileSpecificHeaderTagTypeOffset /\
  tag_data_size m (TagInfo.hdr e) = Done (len value) /\
  load_bytes m (TagInfo.data e) (len value) = Done value.

(** Decoding the specific-info entries of the file [out], the way the tool
    does it (trailer located and read, backward walk, tag decoder on every
    entry of type 0x0101): there is such an entry, and each of them decodes
    to a tag sequence that holds an offset tag with the value [value]. *)
Definition reads_back_offset (fuel : nat) (out : list byte) (value : list byte) : Prop :=
  exists (m : buffer) (ti : InsFileTrailerHeaderType) (file : FILE)
         (d : trailer_decode_result),
    ins_read_allocate_trailer (mkFile out 0) = (0, Some (m, ti), file) /\
    ins_decode_trailer_data fuel m ti vector_init = Some (Done d) /\
    td_ret d = 0 /\
    (exists hdr_info, In hdr_info (td_items d) /\
                      entry_type m (EntryInfo.hdr hdr_info) = Done 0x0101) /\
    forall hdr_info,
      In hdr_info (td_items d) ->
      entry_type m (EntryInfo.hdr hdr_info) = Done 0x0101 ->
      exists (length : Z) (sd : spec_decode_result),
        entry_length m (EntryInfo.hdr hdr_info) = Done length /\
        ins_decode_trailer_specific_header m (EntryInfo.trailer_offset_to_data hdr_info)
          (to_int32 length) vector_init = Done sd /\
        0 <= sd_ret sd /\
        exists e, In e (sd_elements sd) /\ is_offset_record m value e.

(** A new offset value of 256 bytes, and the output of the driver for it on
    [one_entry_file]: the size byte of the tag is 0. *)
Definition long_offset : list byte := repeat x61 256.

Definition long_offset_output : list byte :=
  example_file [x01; x02; x03] (example_entry 0x0101 ([x2a; x00] ++ long_offset)).

Definition is_opaque (e : entry) : Prop :=
  match e with
  | Opaque _ _ => True
  | SpecificInfo _ _ => False
  end.

(** ** What the second pass emits *)

(** An emitted entry: its type and the payload written for it.  In the file
    it is the payload followed by the 6-byte header [{type, length}]. *)
Definition emit (w : Z * list byte) : list byte :=
  snd w ++ le_encode 2 (fst w) ++ le_encode 4 (len (snd w)).

(** The sum over the emitted entries of [payload length + 6]. *)
Fixpoint emitted_total (ws : list (Z * list byte)) : Z :=
  match ws with
  | [] => 0
  | w :: rest => len (snd w) + 6 + emitted_total rest
  end.

(** What the driver hands to the stream for the media and the entries [es]:
    the [trailer_len] of the header is a 32-bit field. *)
Definition emitted_file (media : list byte) (es : list entry) (version : Z) : list byte :=
  media ++ encode_entries es
    ++ minimal_header (to_uint32 (len (encode_entries es) + kInsFileMinHeaderLength)) version.

(** ** The output stream *)

(** The bytes the stream holds for the file: on the device, then in the
    buffer. *)
Definition accepted (o : OFILE) : list byte := o_data o ++ o_buf o.

(** The room left on the device once the buffer has been flushed. *)
Definition slack (o : OFILE) : Z := o_room o - len (o_buf o).

(** The stream after [bs] was taken whole: kept in the buffer when it fits,
    sent to the device with what the buffer held when it does not. *)
Definition accept (o : OFILE) (bs : list byte) : OFILE :=
  if len (o_buf o) + len bs <=? kStdioBufferSize
  then mkOut (o_data o) (o_room o) (o_buf o ++ bs)
  else mkOut (o_data o ++ o_buf o ++ bs) (o_room o - len (o_buf o) - len bs) [].

(** The stream takes [n] more bytes without a short write: they fit the
    buffer, or the device has room for them. *)
Definition can_take (o : OFILE) (n : Z) : Prop :=
  len (o_buf o) + n <= kStdioBufferSize \/ n <= slack o.

(** The stream [o'] is [o] after the bytes [bs] were taken whole. *)
Definition follows (o o' : OFILE) (bs : list byte) : Prop :=
  accepted o' = accepted o ++ bs /\
  slack o' = slack o - len bs /\
  (len (o_buf o) + len bs <= kStdioBufferSize ->
   o_data o' = o_data o /\ o_room o' = o_room o).

(** Nothing was lost so far: device and buffer together hold [written]. *)
Definition intact (o : OFILE) (written : list byte) : Prop := accepted o = written.

(** The device has no room left. *)
Definition full (o : OFILE) : Prop := o_room o = 0.

(** A media part of 8192 bytes, in front of a one-entry trailer. *)
Definition large_media_file : list byte :=
  example_file (repeat x01 (Z.to_nat kCopyBufferSize)) (example_entry 0x0101 [x2a; x01; x31]).

(** ** Any file: what its last bytes declare *)

(** The file has the 72 bytes of a minimal header and ends with the signature. *)
Definition ends_with_signature (data : list byte) : Prop :=
  kInsFileMinHeaderLength <= len data /\
  skipn (Z.to_nat (len data - 32)) data = kInsFileSignature.

(** The two fields of the trailer header, 40 and 36 bytes before the end. *)
Definition declared_trailer_len (data : list byte) : Z :=
  le_decode (firstn 4 (skipn (Z.to_nat (len data - 40)) data)).

Definition declared_trailer_version (data : list byte) : Z :=
  le_decode (firstn 4 (skipn (Z.to_nat (len data - 36)) data)).

(** ** Reading records back *)

(** The tag a record of the tag decoder designates in [m]: its type code,
    and the [data_size] bytes found at its data pointer. *)
Definition read_tag (m : buffer) (e : TagInfo.t) : outcome tag :=
  type_code <- tag_type_code m (TagInfo.hdr e) ;;
  data_size <- tag_data_size m (TagInfo.hdr e) ;;
  value <- load_bytes m (TagInfo.data e) data_size ;;
  Done (byte_of type_code, value).

Fixpoint read_tags (m : buffer) (elems : list TagInfo.t) : outcome (list tag) :=
  match elems with
  | [] => Done []
  | e :: rest =>
      t <- read_tag m e ;;
      ts <- read_tags m rest ;;
      Done (t :: ts)
  end.

(** The entry a record of the trailer walk designates in [m]: the type and
    the length of its header, and [length] bytes at its data offset. *)
Definition read_entry (m : buffer) (hdr_info : EntryInfo.t) : outcome (Z * list byte) :=
  type <- entry_type m (EntryInfo.hdr hdr_info) ;;
  length <- entry_length m (EntryInfo.hdr hdr_info) ;;
  payload <- load_bytes m (EntryInfo.trailer_offset_to_data hdr_info) length ;;
  Done (type, payload).

Fixpoint read_entries (m : buffer) (items : list EntryInfo.t)
  : outcome (list (Z * list byte)) :=
  match items with
  | [] => Done []
  | hdr_info :: rest =>
      e <- read_entry m hdr_info ;;
      es <- read_entries m rest ;;
      Done (e :: es)
  end.

(** An entry as the pair of its type and its payload. *)
Definition entry_pair (e : entry) : Z * list byte := (entry_type_of e, entry_payload e).

(** A trailer buffer whose first entry header (the one next to the minimal
    header) declares a length of [2^32 - 6]. *)
Definition looping_trailer : buffer :=
  [x00; x00; xfa; xff; xff; xff] ++ repeat x00 72.

(** ** Sample payloads and trailers *)

(** One stitching offset tag with the value "1". *)
Definition sample_tags : list tag := [(x2a, [x31])].

(** Four tags, the first one the stitching offset "1": a payload that may
    carry a tail. *)
Definition four_tags : list tag := [(x2a, [x31]); (x0a, []); (x0a, []); (x0a, [])].

(** A serial tag "A" and nothing else. *)
Definition serial_only_tags : list tag := [(x0a, [x41])].

(** Three specific-info entries, the first of which carries [tail]. *)
Definition three_specific_entries (tail : list byte) : list entry :=
  [SpecificInfo four_tags tail; SpecificInfo sample_tags []; SpecificInfo sample_tags []].

(** An entry of type 0x0300 in front of the specific-info entry. *)
Definition sample_entries : list entry :=
  [Opaque 0x0300 [x07; x08]; SpecificInfo sample_tags []].

(** Entries of other types only. *)
Definition opaque_entries : list entry :=
  [Opaque 0x0300 [x07; x08]; Opaque 0x0700 []].

(** A 72-byte file: a minimal header that declares a trailer of 10 bytes. *)
Definition short_trailer_file : list byte := minimal_header 10 3.

(** A file without the signature. *)
Definition not_an_ins_file : list byte := repeat x00 100.

(** A specific-info entry whose only tag declares 5 value bytes and has 1. *)
Definition overlong_tag_file : list byte :=
  [x01; x02; x03] ++ encode_trailer [Opaque 0x0101 [x2a; x05; x31]] 3.

(** ** What the show mode prints for a well-formed file *)

(** An entry the show mode can decode: a specific-info payload of one to
    four tags, or an entry of another type. *)
Definition showable (e : entry) : Prop :=
  match e with
  | SpecificInfo tags tail => wf_tags tags tail
  | Opaque type _ => 0 <= type < 2 ^ 16 /\ type <> 0x0101
  end.

(** The tags of a payload, each with the payload offset of its header. *)
Fixpoint tags_with_offsets (position : Z) (ts : list tag) : list (tag * Z) :=
  match ts with
  | [] => []
  | t :: rest => (t, position) :: tags_with_offsets (position + 2 + len (snd t)) rest
  end.

(** The name printed for a type code. *)
Definition name_of (type_code : Z) : String.string :=
  match ins_get_header_field_name type_code with
  | Done name => name
  | Fault _ => ""%string
  end.

(** The two lines printed for a tag. *)
Definition tag_line_pair (shown : tag * Z) : list line :=
  [TagLine (u8 (fst (fst shown))) (name_of (u8 (fst (fst shown))))
     (len (snd (fst shown))) (snd shown);
   TagData (snd (fst shown))].

Definition tag_lines (shown : list (tag * Z)) : list line := flat_map tag_line_pair shown.

(** The lines printed for the entries [res], taken in the order of the walk,
    the first of which ends at offset [stop]; [shown] are the tags of the
    specific-info entries that were met before. *)
Fixpoint entry_lines (stop : Z) (res : list entry) (shown : list (tag * Z)) : list line :=
  match res with
  | [] => []
  | e :: rest =>
      let size := len (entry_payload e) in
      let offset := stop - 6 - size in
      TailEntryFound (entry_type_of e) size offset ::
      match e with
      | SpecificInfo tags tail =>
          let shown := shown ++ tags_with_offsets 0 tags in
          FoundSpecific 0x0101 size
            :: SpecificDecoded (Z.of_nat (length shown)) (len tail)
            :: tag_lines shown ++ entry_lines offset rest shown
      | Opaque type _ => FoundOther type size :: entry_lines offset rest shown
      end
  end.

Definition show_lines (param_file_in : list byte) (es : list entry) (ver : Z) : list line :=
  [UseFile param_file_in;
   TrailerVersionLength (to_int32 ver) (len (encode_trailer es ver));
   TrailerDecoded (Z.of_nat (length es))]
  ++ entry_lines (len (encode_entries es)) (rev es) [] ++ [DoneLine].

(** The record [e] of the tag decoder designates in [m] the tag [fst shown],
    found at the payload offset [snd shown]. *)
Definition shown_at (m : buffer) (e : TagInfo.t) (shown : tag * Z) : Prop :=
  TagInfo.hdr_offset e = snd shown /\
  tag_type_code m (TagInfo.hdr e) = Done (u8 (fst (fst shown))) /\
  tag_data_size m (TagInfo.hdr e) = Done (len (snd (fst shown))) /\
  load_bytes m (TagInfo.data e) (len (snd (fst shown))) = Done (snd (fst shown)).

(** Two specific-info entries: a serial tag "A" in the first of the file, an
    offset tag "1" in the second. *)
Definition two_specific_entries : list entry :=
  [SpecificInfo serial_only_tags []; SpecificInfo sample_tags []].

(** ** c_vector.h: what a vector holds *)

(** [vector_push] of the elements of [xs], one after the other. *)
Fixpoint push_all {A : Type} (v : CVector.t A) (xs : list A) : outcome (CVector.t A) :=
  match xs with
  | [] => Done v
  | x :: rest => v' <- CVector.vector_push v x ;; push_all v' rest
  end.

(** The vector holds the elements [l]: its size is their number, its
    capacity is the number of slots of its block, and the first slots hold
    the elements, in order. *)
Definition holds {A : Type} (v : CVector.t A) (l : list A) : Prop :=
  CVector.n v = Z.of_nat (length l) /\
  CVector.m v = Z.of_nat (length (CVector.a v)) /\
  firstn (length l) (CVector.a v) = map Some l.

(** The capacity is 0 or a power of two from 2 on, at least the size, and at
    most 2 or twice the size minus 2. *)
Definition capacity_ok {A : Type} (v : CVector.t A) : Prop :=
  (CVector.m v = 0 \/ exists k, 1 <= k /\ CVector.m v = 2 ^ k) /\
  CVector.n v <= CVector.m v <= Z.max 2 (2 * CVector.n v - 2).

(** [z] has a bit set at [n] exactly when [y] has one at [n], ..., [n + w - 1]. *)
Definition smeared (w y z : Z) : Prop :=
  forall n, 0 <= n ->
    (Z.testbit z n = true <-> exists j, 0 <= j < w /\ Z.testbit y (n + j) = true).
(** * Properties *)

(** ** Bytes and little-endian integers *)

Lemma u8_range (b : byte) : 0 <= u8 b <= 255.
Proof.
  unfold u8. pose proof (Byte.to_N_bounded b). lia.
Qed.

Lemma byte_of_u8 (b : byte) : byte_of (u8 b) = b.
Proof.
  unfold byte_of, to_uint8. pose proof (u8_range b).
  rewrite Z.mod_small by lia. unfold u8. rewrite N2Z.id, Byte.of_to_N. reflexivity.
Qed.

Lemma u8_byte_of (z : Z) : u8 (byte_of z) = to_uint8 z.
Proof.
  unfold byte_of. assert (H : 0 <= to_uint8 z < 256) by (apply Z.mod_pos_bound; lia).
  destruct (Byte.of_N (Z.to_N (to_uint8 z))) as [b|] eqn:E.
  - apply Byte.to_of_N in E. unfold u8. rewrite E. lia.
  - apply Byte.of_N_None_iff in E. lia.
Qed.

Lemma u8_byte_of_small (z : Z) : 0 <= z <= 255 -> u8 (byte_of z) = z.
Proof.
  intros H. rewrite u8_byte_of. unfold to_uint8. apply Z.mod_small. lia.
Qed.

Lemma le_encode_length (n : nat) (z : Z) : length (le_encode n z) = n.
Proof.
  revert z. induction n as [|n IH]; intros z; simpl; [reflexivity | now rewrite IH].
Qed.

Lemma le_decode_encode (n : nat) (z : Z) :
  0 <= z < 256 ^ Z.of_nat n -> le_decode (le_encode n z) = z.
Proof.
  revert z. induction n as [|n IH]; intros z Hz.
  - simpl in *. lia.
  - cbn [le_encode le_decode]. rewrite u8_byte_of. unfold to_uint8.
    rewrite IH.
    + pose proof (Z.div_mod z 256). lia.
    + rewrite Nat2Z.inj_succ, Z.pow_succ_r in Hz by lia.
      split; [apply Z.div_pos; lia | apply Z.div_lt_upper_bound; lia].
Qed.

Lemma le_decode_range (bs : list byte) : 0 <= le_decode bs < 256 ^ Z.of_nat (length bs).
Proof.
  induction bs as [|b bs IH].
  - simpl. lia.
  - cbn [le_decode length]. rewrite Nat2Z.inj_succ, Z.pow_succ_r by lia.
    pose proof (u8_range b). lia.
Qed.

Lemma le_encode_decode (bs : list byte) : le_encode (length bs) (le_decode bs) = bs.
Proof.
  induction bs as [|b bs IH]; [reflexivity|].
  cbn [le_decode length le_encode]. pose proof (u8_range b).
  f_equal.
  - replace (u8 b + 256 * le_decode bs) with (u8 b + le_decode bs * 256) by lia.
    unfold byte_of, to_uint8. rewrite Z.mod_add by lia. rewrite Z.mod_small by lia.
    unfold u8. rewrite N2Z.id, Byte.of_to_N. reflexivity.
  - replace (u8 b + 256 * le_decode bs) with (u8 b + le_decode bs * 256) by lia.
    rewrite Z.div_add by lia. rewrite Z.div_small by lia. exact IH.
Qed.

Lemma to_uint32_small (z : Z) : 0 <= z < 2 ^ 32 -> to_uint32 z = z.
Proof. intros H. unfold to_uint32. apply Z.mod_small. exact H. Qed.

Lemma to_uint64_small (z : Z) : 0 <= z < 2 ^ 64 -> to_uint64 z = z.
Proof. intros H. unfold to_uint64. apply Z.mod_small. exact H. Qed.

Lemma to_int32_small (z : Z) : - 2 ^ 31 <= z < 2 ^ 31 -> to_int32 z = z.
Proof. intros H. unfold to_int32. rewrite Z.mod_small; lia. Qed.

Lemma to_int64_small (z : Z) : - 2 ^ 63 <= z < 2 ^ 63 -> to_int64 z = z.
Proof. intros H. unfold to_int64. rewrite Z.mod_small; lia. Qed.

Lemma to_uint32_range (z : Z) : 0 <= to_uint32 z < 2 ^ 32.
Proof. unfold to_uint32. apply Z.mod_pos_bound. lia. Qed.

Lemma to_uint32_to_int32 (z : Z) : to_uint32 (to_int32 z) = to_uint32 z.
Proof.
  unfold to_uint32, to_int32.
  rewrite <- Zminus_mod_idemp_l. rewrite Z.mod_mod by lia.
  rewrite Zminus_mod_idemp_l. f_equal. lia.
Qed.

Lemma to_int32_add_l (a b : Z) : to_int32 (to_int32 a + b) = to_int32 (a + b).
Proof.
  unfold to_int32. f_equal.
  replace ((a + 2 ^ 31) mod 2 ^ 32 - 2 ^ 31 + b + 2 ^ 31)
    with ((a + 2 ^ 31) mod 2 ^ 32 + b) by lia.
  rewrite Zplus_mod_idemp_l. f_equal. lia.
Qed.

Lemma to_int32_range (z : Z) : - 2 ^ 31 <= to_int32 z < 2 ^ 31.
Proof.
  unfold to_int32. pose proof (Z.mod_pos_bound (z + 2 ^ 31) (2 ^ 32) ltac:(lia)). lia.
Qed.

Lemma to_uint32_int32_add (a b : Z) : to_uint32 (to_int32 a + b) = to_uint32 (a + b).
Proof.
  unfold to_uint32, to_int32.
  replace ((a + 2 ^ 31) mod 2 ^ 32 - 2 ^ 31 + b)
    with ((a + 2 ^ 31) mod 2 ^ 32 + (b - 2 ^ 31)) by lia.
  rewrite Zplus_mod_idemp_l. f_equal. lia.
Qed.

(** ** The tag decoder: what every run looks like *)

Ltac inv H := inversion H; subst; clear H.

(** Case analysis on a [bind] that is known to return. *)
Lemma bind_Done {A B : Type} (c : outcome A) (k : A -> outcome B) (b : B) :
  bind c k = Done b -> exists a, c = Done a /\ k a = Done b.
Proof.
  destruct c as [a|f]; simpl; intros H; [eauto | discriminate].
Qed.

Ltac bind_inv H :=
  let a := fresh "a" in
  let Ha := fresh "Ha" in
  apply bind_Done in H; destruct H as (a & Ha & H).

(** One turn of the loop, as an equation. *)
Lemma decode_specific_loop_step (m : buffer) (hdr_data hdr_size : Z) (iters : nat)
    (position bytes_left count : Z) (v : vector_t TagInfo.t) (reads : list Z) :
  decode_specific_loop m hdr_data hdr_size (S iters) position bytes_left count v reads =
  (data_size <- tag_data_size m (hdr_data + position) ;;
   if data_size >? bytes_left then
     Done (mkSpecDecode (-1) v None (reads ++ [hdr_data + position + 1]))
   else
     let position' := position + sizeof_InsFileSpecificDataTagHeaderType + data_size in
     let v' := vector_push v (TagInfo.mk position (hdr_data + position)
                 (hdr_data + (position + sizeof_InsFileSpecificDataTagHeaderType))) in
     if position' >=? hdr_size then
       Done (mkSpecDecode (count + 1) v' (Some (hdr_data + position', hdr_size - position'))
               (reads ++ [hdr_data + position + 1]))
     else
       decode_specific_loop m hdr_data hdr_size iters position' (hdr_size - position')
         (count + 1) v' (reads ++ [hdr_data + position + 1])).
Proof. reflexivity. Qed.

(** The loop appends to the vector, at most [iters] records and at least one
    on success; on success it returns the updated count and writes the tail. *)
Lemma decode_specific_loop_shape (m : buffer) (hdr_data hdr_size : Z) :
  forall (iters : nat) (position bytes_left count : Z) (v : vector_t TagInfo.t)
         (reads : list Z) (d : spec_decode_result),
    0 <= count ->
    decode_specific_loop m hdr_data hdr_size iters position bytes_left count v reads = Done d ->
    exists new : list TagInfo.t,
      sd_elements d = v ++ new /\
      (length new <= iters)%nat /\
      ((sd_ret d = -1 /\ sd_tail d = None) \/
       (sd_ret d = count + Z.of_nat (length new) /\
        (exists tail_ptr tail_size, sd_tail d = Some (tail_ptr, tail_size)) /\
        (iters <> O -> new <> []))).
Proof.
  induction iters as [|iters IH]; intros position bytes_left count v reads d Hc H.
  - simpl in H. inv H. exists []. simpl. rewrite app_nil_r.
    split; [reflexivity|]. split; [lia|]. right.
    split; [lia|]. split; [eauto | congruence].
  - rewrite decode_specific_loop_step in H. bind_inv H. cbv zeta in H.
    destruct (a >? bytes_left).
    + inv H. exists []. simpl. rewrite app_nil_r.
      split; [reflexivity|]. split; [lia|]. now left.
    + match type of H with
      | (if ?c then _ else _) = _ => destruct c
      end.
      * inv H. eexists [_]. cbn [sd_elements sd_ret sd_tail length]. unfold vector_push.
        split; [reflexivity|]. split; [lia|]. right.
        split; [lia|]. split; [eauto | congruence].
      * apply IH in H; [|lia]. destruct H as (new & He & Hl & Hr).
        unfold vector_push in He. rewrite <- app_assoc in He.
        eexists. split; [exact He|]. cbn [length app]. split; [lia|].
        destruct Hr as [Hr | (Hr & Ht & _)]; [now left | right].
        repeat split; [lia | exact Ht | congruence].
Qed.

(** X8.  A call keeps every record the vector held and appends at most four,
    whether it succeeds or fails. *)
Lemma decode_specific_at_most_4 (m : buffer) (hdr_data hdr_size : Z)
    (v : vector_t TagInfo.t) (d : spec_decode_result) :
  ins_decode_trailer_specific_header m hdr_data hdr_size v = Done d ->
  exists new, sd_elements d = v ++ new /\ (length new <= 4)%nat.
Proof.
  intros H. apply decode_specific_loop_shape in H; [|lia].
  destruct H as (new & He & Hl & _). eauto.
Qed.

(** C9.  A trailer whose [trailer_len] is exactly 72 is accepted by
    [ins_decode_trailer_data]: whatever the buffer holds and whatever fuel is
    given, the loop body is never entered, the landing check [72 == 72]
    passes, and the call returns 0 with no entry recorded. *)
Theorem decode_trailer_minimal_accepted (fuel : nat) (m : buffer) (version : Z) :
  ins_decode_trailer_data fuel m (mkTrailerHeader kInsFileMinHeaderLength version) vector_init
  = Some (Done (mkTrailerDecode 0 [] kInsFileMinHeaderLength)).
Proof.
  unfold ins_decode_trailer_data. destruct fuel; reflexivity.
Qed.

(** C10.  Every successful return of [ins_decode_trailer_specific_header]
    (a non-negative result, the callers' test) has recorded at least one
    tag: the result is the number of records appended, it is at least 1, and
    the first record is the tag header at payload offset 0, whatever the
    payload length. *)
Theorem decode_specific_success_records_a_tag (m : buffer) (hdr_data hdr_size : Z)
    (v : vector_t TagInfo.t) (d : spec_decode_result) :
  ins_decode_trailer_specific_header m hdr_data hdr_size v = Done d ->
  0 <= sd_ret d ->
  1 <= sd_ret d /\
  exists rest,
    sd_elements d = v ++ TagInfo.mk 0 hdr_data (hdr_data + 2) :: rest /\
    sd_ret d = Z.of_nat (length (TagInfo.mk 0 hdr_data (hdr_data + 2) :: rest)).
Proof.
  intros H Hret. unfold ins_decode_trailer_specific_header, kMaxTagsCount in H.
  rewrite decode_specific_loop_step in H. bind_inv H. cbv zeta in H.
  unfold sizeof_InsFileSpecificDataTagHeaderType in H.
  replace (hdr_data + 0) with hdr_data in H by lia.
  replace (hdr_data + (0 + 2)) with (hdr_data + 2) in H by lia.
  destruct (a >? hdr_size - 0).
  { inv H. simpl in Hret. lia. }
  match type of H with (if ?c then _ else _) = _ => destruct c end.
  - inv H. cbn [sd_ret sd_elements]. split; [lia|]. exists []. split; reflexivity.
  - apply decode_specific_loop_shape in H; [|lia].
    destruct H as (new & He & _ & [(Hr & _) | (Hr & _ & _)]); [lia|].
    split; [lia|]. exists new. unfold vector_push in He. rewrite <- app_assoc in He.
    split; [exact He|]. cbn [length]. lia.
Qed.

(** A payload of one byte, followed in the buffer by a zero byte: success. *)
Lemma decode_specific_success_records_a_tag_witness :
  1 <= sd_ret (mkSpecDecode 1 [TagInfo.mk 0 0 2] (Some (2, -1)) [1]).
Proof.
  apply (decode_specific_success_records_a_tag [x0a; x00] 0 1 []).
  - reflexivity.
  - simpl. lia.
Defined.

(** ** The tag decoder on payloads that a tag overruns *)

(** C3.  The bound check of [ins_decode_trailer_specific_header] compares
    [data_size] with the bytes left before the 2-byte tag header, not after
    it.  On the 3-byte payload [0A 03 41] the tag declares 3 value bytes
    where 1 remains, and the call succeeds with one tag whose value runs 2
    bytes past the payload; on the 3-byte payload [0A 00 12] (followed in the
    buffer by one more byte) the second turn of the loop reads the size
    field at offset 3, outside the payload, and succeeds again. *)
Theorem tag_overrun_is_accepted :
  tag_data_size [x0a; x03; x41] 0 = Done 3 /\
  ins_decode_trailer_specific_header [x0a; x03; x41] 0 3 vector_init
  = Done (mkSpecDecode 1 [TagInfo.mk 0 0 2] (Some (5, -2)) [1]) /\
  ins_decode_trailer_specific_header [x0a; x00; x12; x00] 0 3 vector_init
  = Done (mkSpecDecode 2 [TagInfo.mk 0 0 2; TagInfo.mk 2 2 4] (Some (4, -1)) [1; 3]).
Proof. repeat split. Qed.

(** C8.  When the cursor exceeds the payload length the loop is left by
    [break] and the call succeeds, but the tail it reports is not the
    remaining bytes: on the 2-byte payload [0A 02] it is a tail of -2 bytes
    that starts 2 bytes past the end of the payload. *)
Theorem overshooting_tag_gives_negative_tail :
  ins_decode_trailer_specific_header [x0a; x02] 0 2 vector_init
  = Done (mkSpecDecode 1 [TagInfo.mk 0 0 2] (Some (4, -2)) [1]).
Proof. reflexivity. Qed.

(** Five tag-shaped records: four are decoded, the fifth is the tail. *)
Example fifth_record_is_tail :
  ins_decode_trailer_specific_header
    [x0a; x00; x12; x00; x1a; x00; x2a; x00; x0a; x00] 0 10 vector_init
  = Done (mkSpecDecode 4
            [TagInfo.mk 0 0 2; TagInfo.mk 2 2 4; TagInfo.mk 4 4 6; TagInfo.mk 6 6 8]
            (Some (8, 2)) [1; 3; 5; 7]).
Proof. reflexivity. Qed.

(** ** The rewrite on the inputs where it goes wrong *)

(** C2.  Inserting the offset tag: the payload [0A 01 41] has no offset
    tag and the new value is 1 byte long.  The block is allocated with
    [3 + 1 = 4] bytes, not [3 + 1 + 2 = 6], and the 2-byte header of the
    new tag, written at position 3, overruns it. *)
Theorem insertion_allocates_two_bytes_short :
  ins_change_stitching_offset [x0a; x01; x41] 0 3 [x37] = Fault (BadWrite 4 3 2).
Proof. reflexivity. Qed.

(** C1.  The round trip on a file whose offset tag is empty: rewriting
    [empty_offset_file] with the empty string, the value already present,
    does not reproduce the trailer.  The empty tag is taken for a missing
    one, a second offset tag is inserted and the tail is written past the
    end of the 10-byte block. *)
Theorem roundtrip_fails_on_empty_offset_tag :
  run_change_stitching_offset 1 (Some empty_offset_file) (Some 1000) []
  = Some (Fault (BadWrite 10 10 2)).
Proof. vm_compute. reflexivity. Qed.

(** C6.  A short write while the trailer is emitted: the device has room
    for 8 bytes, the 3 media bytes and the 3 payload bytes are written, the
    entry header is cut after 2 bytes and nothing else gets out; the driver
    returns 0. *)
Theorem short_trailer_write_returns_success :
  run_change_stitching_offset 1 (Some one_entry_file) (Some 8) [x31]
  = Some (Done (mkRun 0 (Some [x01; x02; x03; x2a; x01; x31; x01; x01]))).
Proof. vm_compute. reflexivity. Qed.

(** The same with a payload larger than the buffer of the stream: the
    [fwrite] of the payload reports 10 bytes out of 4105, nothing looks at
    the count, and the driver returns 0. *)
Example short_trailer_fwrite_is_ignored :
  fst (fwrite (mkOut [] 10 [])
         (encode_tags four_tags ++ repeat x00 (Z.to_nat kStdioBufferSize))) = 10 /\
  run_change_stitching_offset 1
    (Some (encode_trailer
             [SpecificInfo four_tags (repeat x00 (Z.to_nat kStdioBufferSize))] 3))
    (Some 10) [x31]
  = Some (Done (mkRun 0 (Some [x2a; x01; x31; x0a; x00; x0a; x00; x0a; x00; x00]))).
Proof. vm_compute. split; reflexivity. Qed.

(** The sibling path: a short write while the media is copied is detected
    when it surfaces in [fwrite], here with a chunk larger than the buffer
    of the stream. *)
Example short_media_write_is_detected :
  run_change_stitching_offset 1 (Some large_media_file) (Some 2) [x31]
  = Some (Done (mkRun (-6) (Some [x01; x01]))).
Proof. vm_compute. reflexivity. Qed.

(** ** The trailer walk *)

Lemma to_uint32_add_l (a b : Z) : to_uint32 (to_uint32 a + b) = to_uint32 (a + b).
Proof. unfold to_uint32. apply Zplus_mod_idemp_l. Qed.

Lemma consumed_length_app (m : buffer) (xs ys : list EntryInfo.t) (a b : Z) :
  consumed_length m xs = Done a -> consumed_length m ys = Done b ->
  consumed_length m (xs ++ ys) = Done (a + b).
Proof.
  revert a. induction xs as [|x xs IH]; intros a Ha Hb.
  - simpl in *. inv Ha. exact Hb.
  - cbn [consumed_length app] in *. bind_inv Ha. bind_inv Ha. inv Ha.
    rewrite Ha0. cbn [bind]. rewrite (IH _ Ha1 Hb). cbn [bind]. f_equal. lia.
Qed.

Lemma vector_push_checked_Done {A : Type} (v v' : vector_t A) (x : A) :
  vector_push_checked v x = Done v' -> v' = vector_push v x /\ vector_size v < 2 ^ 30.
Proof.
  unfold vector_push_checked. destruct (vector_size v <? 2 ^ 30) eqn:E; [|discriminate].
  intros H. inversion H. apply Z.ltb_lt in E. now split.
Qed.

Lemma vector_push_checked_small {A : Type} (v : vector_t A) (x : A) :
  vector_size v < 2 ^ 30 -> vector_push_checked v x = Done (vector_push v x).
Proof.
  intros H. unfold vector_push_checked.
  now replace (vector_size v <? 2 ^ 30) with true by (symmetry; apply Z.ltb_lt; exact H).
Qed.

(** The loop invariant: the cursor is the 32-bit reduction of the bytes
    consumed, and the loop is left with the cursor at or past [trailer_len]. *)
Lemma decode_trailer_loop_invariant (m : buffer) (ti : InsFileTrailerHeaderType) :
  forall (fuel : nat) (pos : Z) (items : vector_t EntryInfo.t)
         (pos' : Z) (items' : vector_t EntryInfo.t),
    decode_trailer_loop fuel m ti pos items = Some (Done (pos', items')) ->
    exists (new : list EntryInfo.t) (total : Z),
      items' = items ++ new /\
      (length new <= fuel)%nat /\
      consumed_length m new = Done total /\
      0 <= total /\
      (0 <= pos < 2 ^ 32 -> 0 <= pos' < 2 ^ 32) /\
      to_uint32 pos' = to_uint32 (pos + total) /\
      trailer_len ti <= pos'.
Proof.
  induction fuel as [|fuel IH]; intros pos items pos' items' H.
  - simpl in H. destruct (pos <? trailer_len ti) eqn:E; [discriminate|].
    inv H. exists [], 0. rewrite app_nil_r, Z.add_0_r.
    split; [reflexivity|]. split; [simpl; lia|]. split; [reflexivity|].
    split; [lia|]. split; [tauto|]. split; [reflexivity|lia].
  - cbn [decode_trailer_loop] in H. destruct (pos <? trailer_len ti) eqn:E.
    + destruct (entry_length m _) as [length|f] eqn:EL; [|discriminate].
      destruct (vector_push_checked items _) as [items1|f] eqn:Ep; [|discriminate].
      apply vector_push_checked_Done in Ep. destruct Ep as [-> _].
      apply IH in H. destruct H as (new & total & Hi & Hn & Hc & Ht & Hr & Hp & Hl).
      exists (EntryInfo.mk
                (trailer_len ti - pos - sizeof_InsFileTrailerEntryHeaderType)
                (to_uint64 (to_uint32 (trailer_len ti - pos - length)
                            - sizeof_InsFileTrailerEntryHeaderType)) :: new),
             (length + sizeof_InsFileTrailerEntryHeaderType + total).
      unfold vector_push in Hi. rewrite <- app_assoc in Hi.
      assert (Hlen : 0 <= length).
      { unfold entry_length, load_u32 in EL. bind_inv EL. inv EL.
        pose proof (le_decode_range a). lia. }
      unfold sizeof_InsFileTrailerEntryHeaderType in *.
      split; [exact Hi|]. split; [cbn [List.length]; lia|].
      split; [cbn [consumed_length EntryInfo.hdr]; rewrite EL; cbn [bind];
              rewrite Hc; reflexivity|].
      split; [lia|].
      split; [intros _; apply Hr, to_uint32_range|].
      split; [|exact Hl].
      rewrite Hp, to_uint32_add_l. f_equal. lia.
    + inv H. exists [], 0. rewrite app_nil_r, Z.add_0_r.
      split; [reflexivity|]. split; [simpl; lia|]. split; [reflexivity|].
      split; [lia|]. split; [tauto|]. split; [reflexivity|].
      apply Z.ltb_ge in E. exact E.
Qed.

(** More fuel does not change a result. *)
Lemma decode_trailer_loop_fuel_mono (m : buffer) (ti : InsFileTrailerHeaderType) :
  forall (fuel extra : nat) (pos : Z) (items : vector_t EntryInfo.t) r,
    decode_trailer_loop fuel m ti pos items = Some r ->
    decode_trailer_loop (fuel + extra) m ti pos items = Some r.
Proof.
  induction fuel as [|fuel IH]; intros extra pos items r H.
  - simpl in H. destruct (pos <? trailer_len ti) eqn:E; [discriminate|].
    destruct extra; simpl; rewrite E; exact H.
  - cbn [decode_trailer_loop Nat.add] in *. destruct (pos <? trailer_len ti); [|exact H].
    destruct (entry_length m _); [|exact H].
    destruct (vector_push_checked items _); [|exact H]. apply IH. exact H.
Qed.

(** The walk need not land: an entry header of length [2^32 - 6] leaves the
    32-bit cursor where it was, and every turn pushes one more record. *)
Example decode_trailer_can_loop_forever :
  forall fuel : nat,
    Z.of_nat fuel <= 2 ^ 30 ->
    ins_decode_trailer_data fuel
      ([x00; x00; xfa; xff; xff; xff] ++ repeat x00 72) (mkTrailerHeader 78 3) vector_init
    = None.
Proof.
  intros fuel Hfuel. unfold ins_decode_trailer_data.
  enough (H : forall items, vector_size items + Z.of_nat fuel <= 2 ^ 30 ->
      decode_trailer_loop fuel
      ([x00; x00; xfa; xff; xff; xff] ++ repeat x00 72) (mkTrailerHeader 78 3)
      kInsFileMinHeaderLength items = None).
  { rewrite H; [reflexivity | unfold vector_init, vector_size; cbn [length]; lia]. }
  clear Hfuel. induction fuel as [|fuel IH]; intros items Hn; [reflexivity|].
  cbn [decode_trailer_loop]. change (kInsFileMinHeaderLength <? _) with true. cbv iota.
  change (entry_length _ _) with (@Done Z 4294967290). cbv iota.
  rewrite vector_push_checked_small by lia.
  change (to_uint32 (kInsFileMinHeaderLength + _)) with kInsFileMinHeaderLength.
  apply IH. unfold vector_push, vector_size in *. rewrite length_app. cbn [length]. lia.
Qed.

(** C5, the claim as stated, on [wrapping_trailer]: the call succeeds, yet 72
    plus the sum of [6 + length] over the two entries it returns is
    [2^32 + 100], not the [trailer_len] of 100. *)
Lemma trailer_walk_wraps_counterexample :
  ~ (forall (fuel : nat) (m : buffer) (ti : InsFileTrailerHeaderType)
            (d : trailer_decode_result) (total : Z),
        ins_decode_trailer_data fuel m ti vector_init = Some (Done d) ->
        consumed_length m (td_items d) = Done total ->
        (td_ret d < 0 <-> kInsFileMinHeaderLength + total <> trailer_len ti)).
Proof.
  intros H.
  specialize (H 2%nat wrapping_trailer (mkTrailerHeader 100 3)
                (mkTrailerDecode 0 [EntryInfo.mk 22 23; EntryInfo.mk 17 0] 100)
                4294967324 eq_refl eq_refl).
  cbn [td_ret trailer_len] in H. destruct H as [_ H].
  assert (Hne : kInsFileMinHeaderLength + 4294967324 <> 100) by (vm_compute; discriminate).
  specialize (H Hne). lia.
Qed.

(** C5, amended.  Whenever the walk completes, the call fails exactly when
    the cursor, which is 72 plus the sum of [6 + length] over the entries
    found reduced modulo [2^32], is not [trailer_len]; so on success that sum
    plus 72 is congruent to [trailer_len] modulo [2^32], and equal to it
    when it is below [2^32]. *)
Theorem trailer_walk_lands_modulo_2_32 (fuel : nat) (m : buffer)
    (ti : InsFileTrailerHeaderType) (d : trailer_decode_result) :
  ins_decode_trailer_data fuel m ti vector_init = Some (Done d) ->
  exists total : Z,
    consumed_length m (td_items d) = Done total /\
    td_read_pos d = to_uint32 (kInsFileMinHeaderLength + total) /\
    (td_ret d = 0 \/ td_ret d = -1) /\
    (td_ret d = -1 <-> to_uint32 (kInsFileMinHeaderLength + total) <> trailer_len ti) /\
    (td_ret d = 0 -> to_uint32 (kInsFileMinHeaderLength + total) = trailer_len ti) /\
    (td_ret d = 0 -> kInsFileMinHeaderLength + total < 2 ^ 32 ->
     kInsFileMinHeaderLength + total = trailer_len ti).
Proof.
  unfold ins_decode_trailer_data. intros H.
  destruct (decode_trailer_loop fuel m ti kInsFileMinHeaderLength vector_init)
    as [[[pos' items']|f]|] eqn:E; try discriminate.
  apply decode_trailer_loop_invariant in E.
  destruct E as (new & total & Hi & _ & Hc & Ht & Hr & Hp & Hl).
  unfold vector_init in Hi. simpl in Hi. subst items'.
  assert (H72 : kInsFileMinHeaderLength = 72) by reflexivity.
  rewrite to_uint32_small in Hp by (apply Hr; lia).
  exists total.
  destruct (pos' =? trailer_len ti) eqn:Epos; cbn [negb] in H; inv H;
    cbn [td_items td_ret td_read_pos].
  - apply Z.eqb_eq in Epos.
    split; [assumption|]. split; [reflexivity|]. split; [now left|].
    split; [split; [discriminate | congruence]|].
    split; [congruence|].
    intros _ Hsmall. rewrite to_uint32_small in Epos by lia. exact Epos.
  - apply Z.eqb_neq in Epos.
    split; [assumption|]. split; [reflexivity|]. split; [now right|].
    split; [split; [congruence | reflexivity]|].
    split; discriminate.
Qed.

(** A trailer of two entries, of 2 and 3 payload bytes. *)
Lemma trailer_walk_lands_modulo_2_32_witness :
  exists total : Z,
    consumed_length two_entry_trailer [EntryInfo.mk 11 8; EntryInfo.mk 2 0] = Done total /\
    kInsFileMinHeaderLength + total = 89.
Proof.
  destruct (trailer_walk_lands_modulo_2_32 2 two_entry_trailer (mkTrailerHeader 89 3)
              (mkTrailerDecode 0 [EntryInfo.mk 11 8; EntryInfo.mk 2 0] 89)
              eq_refl) as (total & H & _ & _ & _ & _ & Hexact).
  exists total. split; [exact H|].
  apply Hexact; [reflexivity|].
  cbn [td_items] in H. vm_compute in H. inv H. reflexivity.
Defined.

(** ** Buffers: lengths and regions *)

Lemma len_app (a b : list byte) : len (a ++ b) = len a + len b.
Proof. unfold len. rewrite length_app. lia. Qed.

Lemma len_nonneg (a : list byte) : 0 <= len a.
Proof. unfold len. lia. Qed.

Lemma len_cons (b : byte) (a : list byte) : len (b :: a) = 1 + len a.
Proof. unfold len. cbn [length]. lia. Qed.

Lemma len_nil : len [] = 0.
Proof. reflexivity. Qed.

Lemma len_repeat (b : byte) (n : nat) : len (repeat b n) = Z.of_nat n.
Proof. unfold len. now rewrite repeat_length. Qed.

Lemma len_le_encode (n : nat) (z : Z) : len (le_encode n z) = Z.of_nat n.
Proof. unfold len. now rewrite le_encode_length. Qed.

Create Rewrite HintDb len.
#[local] Hint Rewrite len_app len_cons len_nil len_repeat len_le_encode : len.

(** Lengths of concatenations, then linear arithmetic. *)
Ltac len_lia := autorewrite with len in *; unfold buffer in *; lia.

Lemma len_zero_nil (a : list byte) : len a = 0 -> a = [].
Proof. destruct a; [reflexivity|]. rewrite len_cons. pose proof (len_nonneg a). lia. Qed.

Lemma to_nat_len (a : list byte) : Z.to_nat (len a) = length a.
Proof. unfold len. apply Nat2Z.id. Qed.

Lemma region_here (x post : list byte) : region (x ++ post) 0 x.
Proof. exists [], post. split; reflexivity. Qed.

Lemma region_app_l (m : buffer) (p : Z) (x y : list byte) :
  region m p (x ++ y) -> region m p x.
Proof.
  intros (pre & post & -> & <-). exists pre, (y ++ post).
  split; [now rewrite <- app_assoc | reflexivity].
Qed.

Lemma region_app_r (m : buffer) (p : Z) (x y : list byte) :
  region m p (x ++ y) -> region m (p + len x) y.
Proof.
  intros (pre & post & -> & <-). exists (pre ++ x), post.
  split; [now rewrite <- !app_assoc | apply len_app].
Qed.

Lemma region_shift (pre m : buffer) (p : Z) (x : list byte) :
  region m p x -> region (pre ++ m) (len pre + p) x.
Proof.
  intros (a & b & -> & <-). exists (pre ++ a), b.
  split; [now rewrite <- app_assoc | apply len_app].
Qed.

Lemma region_extend (m post : buffer) (p : Z) (x : list byte) :
  region m p x -> region (m ++ post) p x.
Proof.
  intros (a & b & -> & <-). exists a, (b ++ post).
  split; [now rewrite <- !app_assoc | reflexivity].
Qed.

Lemma region_bounds (m : buffer) (p : Z) (x : list byte) :
  region m p x -> 0 <= p /\ p + len x <= len m.
Proof.
  intros (pre & post & -> & <-). rewrite !len_app.
  pose proof (len_nonneg pre). pose proof (len_nonneg post). lia.
Qed.

Lemma region_whole (m : buffer) (x : list byte) :
  region m 0 x -> len x = len m -> m = x.
Proof.
  intros (pre & post & -> & Hp) Hl. apply len_zero_nil in Hp. subst pre.
  simpl in *. rewrite len_app in Hl.
  assert (post = []) by (apply len_zero_nil; lia). subst. now rewrite app_nil_r.
Qed.

Lemma load_bytes_region (m : buffer) (p n : Z) (x : list byte) :
  region m p x -> n = len x -> load_bytes m p n = Done x.
Proof.
  intros (pre & post & -> & <-) ->. unfold load_bytes.
  destruct (len x =? 0) eqn:E.
  - apply Z.eqb_eq in E. now rewrite (len_zero_nil x E).
  - apply Z.eqb_neq in E. pose proof (len_nonneg x). pose proof (len_nonneg pre).
    pose proof (len_nonneg post).
    replace ((0 <=? len pre) && (0 <? len x) && (len pre + len x <=? len (pre ++ x ++ post)))
      with true.
    + rewrite !to_nat_len. rewrite skipn_app, skipn_all, Nat.sub_diag. simpl.
      rewrite firstn_app, firstn_all, Nat.sub_diag. simpl. now rewrite app_nil_r.
    + symmetry. rewrite !andb_true_iff. rewrite !len_app.
      repeat split; [apply Z.leb_le | apply Z.ltb_lt | apply Z.leb_le]; lia.
Qed.

Lemma load8_region (m : buffer) (p : Z) (b : byte) (x : list byte) :
  region m p (b :: x) -> load8 m p = Done b.
Proof.
  intros (pre & post & -> & <-). unfold load8. pose proof (len_nonneg pre).
  replace (0 <=? len pre) with true by (symmetry; apply Z.leb_le; lia).
  rewrite to_nat_len. rewrite nth_error_app2 by lia. rewrite Nat.sub_diag. reflexivity.
Qed.

Lemma load_u16_region (m : buffer) (p z : Z) :
  region m p (le_encode 2 z) -> 0 <= z < 2 ^ 16 -> load_u16 m p = Done z.
Proof.
  intros H Hz. unfold load_u16. rewrite (load_bytes_region m p 2 _ H) by reflexivity.
  cbn [bind]. now rewrite le_decode_encode.
Qed.

Lemma load_u32_region (m : buffer) (p z : Z) :
  region m p (le_encode 4 z) -> 0 <= z < 2 ^ 32 -> load_u32 m p = Done z.
Proof.
  intros H Hz. unfold load_u32. rewrite (load_bytes_region m p 4 _ H) by reflexivity.
  cbn [bind]. now rewrite le_decode_encode.
Qed.

(** A load that returns reads a region. *)
Lemma load_bytes_Done_len (m : buffer) (p n : Z) (x : list byte) :
  load_bytes m p n = Done x -> 0 <= n -> len x = n.
Proof.
  unfold load_bytes. intros H Hn. destruct (n =? 0) eqn:E.
  - inv H. apply Z.eqb_eq in E. now subst.
  - destruct ((0 <=? p) && (0 <? n) && (p + n <=? len m)) eqn:B; [|discriminate].
    inv H. rewrite !andb_true_iff in B. destruct B as ((Hp & _) & Hb).
    apply Z.leb_le in Hp, Hb. unfold len in *. rewrite length_firstn, length_skipn. lia.
Qed.

Lemma skipn_repeat_zero (n k : nat) : skipn n (repeat x00 k) = repeat x00 (k - n).
Proof.
  revert k. induction n as [|n IH]; intros k.
  - now rewrite Nat.sub_0_r.
  - destruct k; [reflexivity|]. simpl. apply IH.
Qed.

(** Sequential stores into a zeroed block: [written] is what has been
    stored so far, from position 0. *)
Lemma store_bytes_next (written src : list byte) (k : nat) (pos : Z) :
  pos = len written -> (length src <= k)%nat ->
  store_bytes (written ++ repeat x00 k) pos src
  = Done ((written ++ src) ++ repeat x00 (k - length src)).
Proof.
  intros -> Hk. unfold store_bytes. destruct src as [|b src]; [|set (s := b :: src) in *].
  - simpl. now rewrite app_nil_r, Nat.sub_0_r.
  - pose proof (len_nonneg written).
    replace ((0 <=? len written) && (len written + len s <=? len (written ++ repeat x00 k)))
      with true.
    + f_equal. rewrite to_nat_len. rewrite firstn_app, firstn_all, Nat.sub_diag.
      simpl firstn. rewrite app_nil_r. rewrite <- app_assoc. f_equal. f_equal.
      rewrite <- len_app, to_nat_len. rewrite skipn_app, skipn_all2 by (rewrite length_app; lia).
      simpl. rewrite length_app.
      replace (length written + length s - length written)%nat with (length s) by lia.
      apply skipn_repeat_zero.
    + symmetry. rewrite andb_true_iff. split; [apply Z.leb_le; lia|].
      apply Z.leb_le. rewrite len_app, len_repeat. unfold len. lia.
Qed.

Lemma store_bytes_overrun (written src : list byte) (k : nat) (pos : Z) :
  pos = len written -> (k < length src)%nat ->
  store_bytes (written ++ repeat x00 k) pos src
  = Fault (BadWrite (len written + Z.of_nat k) pos (len src)).
Proof.
  intros -> Hk. unfold store_bytes. destruct src as [|b src]; [simpl in Hk; lia|].
  set (s := b :: src) in *.
  replace ((0 <=? len written) && (len written + len s <=? len (written ++ repeat x00 k)))
    with false.
  - now rewrite len_app, len_repeat.
  - symmetry. rewrite andb_false_iff. right. apply Z.leb_gt.
    rewrite len_app, len_repeat. unfold len. lia.
Qed.

(** ** Well-formed tag sequences: decoding *)

Lemma gtb_false (a b : Z) : a <= b -> (a >? b) = false.
Proof. intros H. rewrite Z.gtb_ltb. now apply Z.ltb_ge. Qed.

Lemma geb_false (a b : Z) : a < b -> (a >=? b) = false.
Proof. intros H. rewrite Z.geb_leb. now apply Z.leb_gt. Qed.

Lemma geb_true (a b : Z) : b <= a -> (a >=? b) = true.
Proof. intros H. rewrite Z.geb_leb. now apply Z.leb_le. Qed.

Lemma region_slice (m : buffer) (p n : Z) (x : list byte) :
  region m p x -> n = len x -> firstn (Z.to_nat n) (skipn (Z.to_nat p) m) = x.
Proof.
  intros (pre & post & -> & <-) ->. rewrite !to_nat_len.
  rewrite skipn_app, skipn_all, Nat.sub_diag. simpl.
  rewrite firstn_app, firstn_all, Nat.sub_diag. simpl. now rewrite app_nil_r.
Qed.

Lemma len_encode_tags_cons (t : tag) (ts : list tag) :
  len (encode_tags (t :: ts)) = 2 + len (snd t) + len (encode_tags ts).
Proof.
  unfold encode_tags. cbn [flat_map]. rewrite len_app. unfold encode_tag.
  rewrite !len_cons. lia.
Qed.

Lemma len_encode_tags_nonneg (ts : list tag) : 0 <= len (encode_tags ts).
Proof. apply len_nonneg. Qed.

(** The header fields of the first tag of a region. *)
Lemma tag_fields_region (m : buffer) (p : Z) (t : tag) (rest : list byte) :
  region m p (encode_tag t ++ rest) -> len (snd t) <= 255 ->
  tag_type_code m p = Done (u8 (fst t)) /\
  tag_data_size m p = Done (len (snd t)) /\
  load_bytes m (p + 2) (len (snd t)) = Done (snd t).
Proof.
  intros H Hl. unfold encode_tag in H. cbn [app] in H.
  split; [|split].
  - unfold tag_type_code. now rewrite (load8_region _ _ _ _ H).
  - unfold tag_data_size.
    change (fst t :: byte_of (len (snd t)) :: snd t ++ rest)
      with ([fst t] ++ byte_of (len (snd t)) :: snd t ++ rest) in H.
    apply region_app_r in H. rewrite len_cons, len_nil in H.
    replace (p + (1 + 0)) with (p + 1) in H by lia.
    rewrite (load8_region _ _ _ _ H). cbn [bind].
    rewrite u8_byte_of_small; [reflexivity|]. pose proof (len_nonneg (snd t)). lia.
  - change (fst t :: byte_of (len (snd t)) :: snd t ++ rest)
      with ([fst t; byte_of (len (snd t))] ++ snd t ++ rest) in H.
    apply region_app_r in H. rewrite !len_cons, len_nil in H.
    replace (p + (1 + (1 + 0))) with (p + 2) in H by lia.
    apply region_app_l in H. apply (load_bytes_region _ _ _ _ H). reflexivity.
Qed.

Lemma spec_decode_eq (r r' : Z) (v v' : vector_t TagInfo.t) (p p' s s' : Z) (reads : list Z) :
  r = r' -> v = v' -> p = p' -> s = s' ->
  Done (mkSpecDecode r v (Some (p, s)) reads) = Done (mkSpecDecode r' v' (Some (p', s')) reads).
Proof. now intros -> -> -> ->. Qed.

(** The decoder on a well-formed sequence: it appends one record per tag
    and reports the tail. *)
Lemma decode_specific_loop_complete (m : buffer) (hdr_data hdr_size : Z) (tail : list byte) :
  forall (ts : list tag), ts <> [] ->
  forall (iters : nat) (position count : Z) (v : vector_t TagInfo.t) (reads : list Z),
    Forall (fun t => len (snd t) <= 255) ts ->
    (length ts <= iters)%nat ->
    (tail <> [] -> length ts = iters) ->
    region m (hdr_data + position) (encode_tags ts ++ tail) ->
    hdr_size = position + len (encode_tags ts) + len tail ->
    exists reads',
      decode_specific_loop m hdr_data hdr_size iters position (hdr_size - position)
        count v reads
      = Done (mkSpecDecode (count + Z.of_nat (length ts))
                (v ++ tag_infos hdr_data position ts)
                (Some (hdr_data + (position + len (encode_tags ts)), len tail)) reads').
Proof.
  induction ts as [|t ts IH]; intros Hne iters position count v reads Hsz Hit Htail Hreg Hsize;
    [congruence|].
  destruct iters as [|iters]; [simpl in Hit; lia|].
  apply Forall_cons_iff in Hsz. destruct Hsz as [Ht Hts].
  rewrite decode_specific_loop_step.
  pose proof Hreg as Hreg'.
  unfold encode_tags in Hreg. cbn [flat_map] in Hreg. rewrite <- app_assoc in Hreg.
  destruct (tag_fields_region _ _ _ _ Hreg Ht) as (_ & Hds & _).
  rewrite Hds. cbn [bind]. cbv zeta.
  rewrite len_encode_tags_cons in Hsize |- *.
  pose proof (len_nonneg (snd t)) as H0. pose proof (len_encode_tags_nonneg ts) as H1.
  pose proof (len_nonneg tail) as H2.
  unfold sizeof_InsFileSpecificDataTagHeaderType.
  replace (len (snd t) >? hdr_size - position)
    with false by (symmetry; apply gtb_false; lia).
  cbn [length]. rewrite Nat2Z.inj_succ.
  destruct ts as [|t2 ts'].
  - (* the last tag *)
    cbn [tag_infos length]. change (len (encode_tags [])) with 0 in *.
    destruct (position + 2 + len (snd t) >=? hdr_size) eqn:E.
    + eexists. apply spec_decode_eq; [lia | reflexivity | lia | lia].
    + assert (tail <> []).
      { intros ->. change (len []) with 0 in *.
        rewrite geb_true in E by lia. discriminate. }
      specialize (Htail H). simpl in Htail. inv Htail.
      cbn [decode_specific_loop]. eexists.
      apply spec_decode_eq; [lia | reflexivity | lia | lia].
  - (* more tags follow *)
    rewrite len_encode_tags_cons in *.
    pose proof (len_nonneg (snd t2)). pose proof (len_encode_tags_nonneg ts').
    replace (position + 2 + len (snd t) >=? hdr_size)
      with false by (symmetry; apply geb_false; lia).
    edestruct (IH ltac:(discriminate) iters (position + 2 + len (snd t)) (count + 1)
                 (vector_push v (TagInfo.mk position (hdr_data + position)
                                   (hdr_data + (position + 2))))
                 (reads ++ [hdr_data + position + 1])) as (reads' & Hrec).
    + exact Hts.
    + simpl in Hit |- *. lia.
    + intros Hn. specialize (Htail Hn). simpl in Htail |- *. lia.
    + apply region_app_r in Hreg. unfold encode_tag in Hreg. rewrite !len_cons in Hreg.
      replace (hdr_data + (position + 2 + len (snd t)))
        with (hdr_data + position + (1 + (1 + len (snd t)))) by lia. exact Hreg.
    + lia.
    + exists reads'.
      etransitivity; [exact Hrec|]. cbn [tag_infos]. unfold vector_push.
      rewrite <- app_assoc. cbn [app length]. rewrite !Nat2Z.inj_succ.
      apply spec_decode_eq; [lia | reflexivity | lia | lia].
Qed.

Lemma decode_specific_complete (m : buffer) (hdr_data hdr_size : Z)
    (ts : list tag) (tail : list byte) (v : vector_t TagInfo.t) :
  wf_tags ts tail ->
  region m hdr_data (encode_tags ts ++ tail) ->
  hdr_size = len (encode_tags ts ++ tail) ->
  exists reads,
    ins_decode_trailer_specific_header m hdr_data hdr_size v
    = Done (mkSpecDecode (Z.of_nat (length ts)) (v ++ tag_infos hdr_data 0 ts)
              (Some (hdr_data + len (encode_tags ts), len tail)) reads).
Proof.
  intros (Hne & Hlen & Hsz & Htail) Hreg Hsize.
  unfold ins_decode_trailer_specific_header.
  destruct (decode_specific_loop_complete m hdr_data hdr_size tail ts Hne
              kMaxTagsCount 0 0 v [] Hsz Hlen) as (reads & H).
  - intros Hn. unfold kMaxTagsCount.
    destruct (Nat.eq_dec (length ts) 4) as [E|E]; [exact E|].
    exfalso. apply Hn, Htail. lia.
  - now rewrite Z.add_0_r.
  - rewrite Hsize, len_app. lia.
  - exists reads. rewrite H. reflexivity.
Qed.

(** ** Well-formed tag sequences: rebuilding *)

Lemma find_stitching_offset_size_complete (m : buffer) (hdr_data : Z) :
  forall (ts : list tag) (position : Z),
    Forall (fun t => len (snd t) <= 255) ts ->
    region m (hdr_data + position) (encode_tags ts) ->
    find_stitching_offset_size m (tag_infos hdr_data position ts)
    = Done (first_offset_size ts).
Proof.
  induction ts as [|t ts IH]; intros position Hsz Hreg; [reflexivity|].
  apply Forall_cons_iff in Hsz. destruct Hsz as [Ht Hts].
  cbn [tag_infos find_stitching_offset_size first_offset_size TagInfo.hdr].
  unfold encode_tags in Hreg. cbn [flat_map] in Hreg.
  destruct (tag_fields_region _ _ _ _ Hreg Ht) as (Htc & Hds & _).
  rewrite Htc. cbn [bind]. unfold is_offset_tag.
  destruct (u8 (fst t) =? kInsFileSpecificHeaderTagTypeOffset); [exact Hds|].
  apply IH; [exact Hts|].
  apply region_app_r in Hreg. unfold encode_tag in Hreg. rewrite !len_cons in Hreg.
  replace (hdr_data + (position + 2 + len (snd t)))
    with (hdr_data + position + (1 + (1 + len (snd t)))) by lia. exact Hreg.
Qed.

Lemma load_string_all (s : list byte) : load_string s (len s) = Done s.
Proof.
  unfold load_string. pose proof (len_nonneg s).
  replace (len s <? 0) with false by (symmetry; apply Z.ltb_ge; lia).
  now rewrite to_nat_len, firstn_all.
Qed.

(** One tag stored at the end of what has been written. *)
Lemma store_tag_next (written : list byte) (k : nat) (t : byte) (size : Z)
    (value : list byte) (pos : Z) :
  pos = len written -> (2 + length value <= k)%nat ->
  (b1 <- store8 (written ++ repeat x00 k) pos t ;;
   b2 <- store8 b1 (pos + 1) (byte_of size) ;;
   store_bytes b2 (pos + 2) value)
  = Done ((written ++ t :: byte_of size :: value) ++ repeat x00 (k - (2 + length value))).
Proof.
  intros -> Hk. unfold store8.
  rewrite (store_bytes_next written [t] k (len written) eq_refl) by (simpl; lia).
  cbn [bind length].
  assert (H1 : len written + 1 = len (written ++ [t]))
    by (rewrite len_app, len_cons, len_nil; lia).
  rewrite (store_bytes_next (written ++ [t]) [byte_of size] (k - 1) _ H1) by (simpl; lia).
  cbn [bind length].
  assert (H2 : len written + 2 = len ((written ++ [t]) ++ [byte_of size]))
    by (rewrite !len_app, !len_cons, len_nil; lia).
  rewrite (store_bytes_next _ value (k - 1 - 1) _ H2) by lia.
  replace (k - 1 - 1 - length value)%nat with (k - (2 + length value))%nat by lia.
  f_equal. rewrite <- !app_assoc. reflexivity.
Qed.

Lemma encode_tags_cons (t : tag) (ts : list tag) :
  encode_tags (t :: ts) = encode_tag t ++ encode_tags ts.
Proof. reflexivity. Qed.

Lemma set_offset_true (new_offset : list byte) (t : tag) :
  is_offset_tag t = true -> set_offset new_offset t = (fst t, new_offset).
Proof. unfold set_offset. now intros ->. Qed.

Lemma set_offset_false (new_offset : list byte) (t : tag) :
  is_offset_tag t = false -> set_offset new_offset t = t.
Proof. unfold set_offset. now intros ->. Qed.

(** The second loop on a well-formed sequence, writing into a zeroed block
    after [written]: the tags come out with every offset value replaced. *)
Lemma rebuild_tags_complete (m : buffer) (hdr_data : Z) (new_offset : list byte) :
  forall (ts : list tag) (position : Z) (written : list byte) (k : nat),
    Forall (fun t => len (snd t) <= 255) ts ->
    region m (hdr_data + position) (encode_tags ts) ->
    (length (encode_tags (map (set_offset new_offset) ts)) <= k)%nat ->
    rebuild_tags m new_offset (len new_offset) (tag_infos hdr_data position ts)
      (written ++ repeat x00 k) (len written)
    = Done ((written ++ encode_tags (map (set_offset new_offset) ts))
              ++ repeat x00 (k - length (encode_tags (map (set_offset new_offset) ts))),
            len written + len (encode_tags (map (set_offset new_offset) ts))).
Proof.
  induction ts as [|t ts IH]; intros position written k Hsz Hreg Hk.
  - simpl. now rewrite app_nil_r, Nat.sub_0_r, Z.add_0_r.
  - apply Forall_cons_iff in Hsz. destruct Hsz as [Ht Hts].
    cbn [tag_infos rebuild_tags TagInfo.hdr TagInfo.data].
    rewrite encode_tags_cons in Hreg.
    destruct (tag_fields_region _ _ _ _ Hreg Ht) as (Htc & Hds & Hval).
    rewrite Htc. cbn [bind]. rewrite byte_of_u8.
    assert (Hrest : region m (hdr_data + (position + 2 + len (snd t))) (encode_tags ts)).
    { apply region_app_r in Hreg. unfold encode_tag in Hreg. rewrite !len_cons in Hreg.
      replace (hdr_data + (position + 2 + len (snd t)))
        with (hdr_data + position + (1 + (1 + len (snd t)))) by lia. exact Hreg. }
    cbn [map] in Hk |- *. rewrite encode_tags_cons in Hk |- *.
    rewrite length_app in Hk.
    change (u8 (fst t) =? kInsFileSpecificHeaderTagTypeOffset) with (is_offset_tag t).
    unfold sizeof_InsFileSpecificDataTagHeaderType.
    set (rest' := encode_tags (map (set_offset new_offset) ts)) in *.
    destruct (is_offset_tag t) eqn:E.
    + (* an offset tag: the new value *)
      rewrite (set_offset_true _ _ E) in Hk |- *.
      unfold encode_tag in Hk |- *. cbn [fst snd length] in Hk |- *.
      rewrite load_string_all.
      pose proof (store_tag_next written k (fst t) (len new_offset) new_offset
                    (len written) eq_refl ltac:(lia)) as Hst.
      destruct (store8 (written ++ repeat x00 k) (len written) (fst t)) as [b1|];
        [|discriminate].
      cbn [bind] in Hst |- *.
      destruct (store8 b1 (len written + 1) (byte_of (len new_offset))) as [b2|];
        [|discriminate].
      cbn [bind] in Hst |- *. rewrite Hst. cbn [bind].
      replace (len written + 2 + len new_offset)
        with (len (written ++ fst t :: byte_of (len new_offset) :: new_offset))
        by (rewrite len_app, !len_cons; lia).
      rewrite (IH (position + 2 + len (snd t))); [| exact Hts | exact Hrest | fold rest'; lia].
      fold rest'.
      replace (k - length ((fst t :: byte_of (len new_offset) :: new_offset) ++ rest'))%nat
        with (k - (2 + length new_offset) - length rest')%nat
        by (rewrite length_app; cbn [length]; lia).
      rewrite <- !app_assoc. cbn [app].
      f_equal. f_equal. len_lia.
    + (* another tag: copied as it is *)
      rewrite (set_offset_false _ _ E) in Hk |- *.
      rewrite Hds. cbn [bind].
      replace (hdr_data + (position + 2)) with (hdr_data + position + 2) by lia.
      rewrite Hval. cbn [bind].
      unfold encode_tag in Hk |- *. cbn [length] in Hk.
      pose proof (store_tag_next written k (fst t) (len (snd t)) (snd t)
                    (len written) eq_refl ltac:(lia)) as Hst.
      destruct (store8 (written ++ repeat x00 k) (len written) (fst t)) as [b1|];
        [|discriminate].
      cbn [bind] in Hst |- *.
      destruct (store8 b1 (len written + 1) (byte_of (len (snd t)))) as [b2|];
        [|discriminate].
      cbn [bind] in Hst |- *. rewrite Hst. cbn [bind].
      replace (len written + 2 + len (snd t))
        with (len (written ++ fst t :: byte_of (len (snd t)) :: snd t))
        by (rewrite len_app, !len_cons; lia).
      rewrite (IH (position + 2 + len (snd t))); [| exact Hts | exact Hrest | fold rest'; lia].
      fold rest'.
      replace (k - length ((fst t :: byte_of (len (snd t)) :: snd t) ++ rest'))%nat
        with (k - (2 + length (snd t)) - length rest')%nat
        by (rewrite length_app; cbn [length]; lia).
      rewrite <- !app_assoc. cbn [app].
      f_equal. f_equal. len_lia.
Qed.

Lemma set_offset_no_offset_tag (new_offset : list byte) (ts : list tag) :
  filter is_offset_tag ts = [] -> map (set_offset new_offset) ts = ts.
Proof.
  induction ts as [|t ts IH]; intros H; [reflexivity|].
  cbn [filter] in H. destruct (is_offset_tag t) eqn:E; [discriminate|].
  cbn [map]. rewrite (set_offset_false _ _ E), IH; [reflexivity | exact H].
Qed.

Lemma first_offset_size_no_offset_tag (ts : list tag) :
  filter is_offset_tag ts = [] -> first_offset_size ts = 0.
Proof.
  induction ts as [|t ts IH]; intros H; [reflexivity|].
  cbn [filter first_offset_size] in *. destruct (is_offset_tag t); [discriminate|].
  now apply IH.
Qed.

(** With a single offset tag the rebuilt tags are as long as the allocation
    formula says. *)
Lemma len_encode_set_offset (new_offset : list byte) (ts : list tag) :
  length (filter is_offset_tag ts) = 1%nat ->
  len (encode_tags (map (set_offset new_offset) ts))
  = len (encode_tags ts) - first_offset_size ts + len new_offset.
Proof.
  induction ts as [|t ts IH]; intros H; [discriminate|].
  cbn [filter map first_offset_size] in *. rewrite !len_encode_tags_cons.
  destruct (is_offset_tag t) eqn:E.
  - rewrite (set_offset_true _ _ E). cbn [snd].
    assert (Hn : filter is_offset_tag ts = []).
    { destruct (filter is_offset_tag ts); [reflexivity | discriminate]. }
    rewrite (set_offset_no_offset_tag _ _ Hn). lia.
  - rewrite (set_offset_false _ _ E). rewrite IH by exact H. lia.
Qed.

Lemma first_offset_size_bounds (ts : list tag) :
  0 <= first_offset_size ts <= len (encode_tags ts).
Proof.
  induction ts as [|t ts IH]; [vm_compute; split; discriminate|].
  cbn [first_offset_size]. rewrite len_encode_tags_cons.
  pose proof (len_nonneg (snd t)). destruct (is_offset_tag t); lia.
Qed.

(** The rewrite of a well-formed payload with a single, non-empty offset
    tag: the tags with the new value, then the tail. *)
Lemma ins_change_stitching_offset_complete (m : buffer) (in_trailer_hdr in_trailer_hdr_size : Z)
    (ts : list tag) (tail : list byte) (new_offset : list byte) :
  wf_tags ts tail ->
  single_offset_tag ts ->
  region m in_trailer_hdr (encode_tags ts ++ tail) ->
  in_trailer_hdr_size = len (encode_tags ts ++ tail) ->
  in_trailer_hdr_size + len new_offset < 2 ^ 31 ->
  ins_change_stitching_offset m in_trailer_hdr in_trailer_hdr_size new_offset
  = Done (mkChange 0
            (Some (encode_tags (map (set_offset new_offset) ts) ++ tail,
                   len (encode_tags (map (set_offset new_offset) ts) ++ tail)))).
Proof.
  intros Hwf (Hone & Hcur) Hreg Hsize Hbound.
  pose proof Hwf as (Hne & Hlen & Hsz & Htl).
  unfold ins_change_stitching_offset.
  destruct (decode_specific_complete m in_trailer_hdr in_trailer_hdr_size ts tail
              vector_init Hwf Hreg Hsize) as (reads & Hdec).
  rewrite Hdec. cbn [bind sd_ret sd_tail sd_elements]. unfold vector_init. cbn [app].
  replace (Z.of_nat (length ts) <? 0) with false by (symmetry; apply Z.ltb_ge; lia).
  rewrite (find_stitching_offset_size_complete m in_trailer_hdr ts 0 Hsz)
    by (rewrite Z.add_0_r; exact (region_app_l _ _ _ _ Hreg)).
  cbn [bind].
  pose proof (first_offset_size_bounds ts) as Hcb.
  pose proof (len_nonneg new_offset) as Hx. pose proof (len_nonneg tail) as Htn.
  pose proof (len_encode_set_offset new_offset ts Hone) as Hout.
  rewrite len_app in Hsize.
  unfold strlen. rewrite (to_int32_small (len new_offset)) by lia.
  rewrite to_int32_small by lia.
  set (out := encode_tags (map (set_offset new_offset) ts)) in *.
  assert (Hn : in_trailer_hdr_size - first_offset_size ts + len new_offset
               = len out + len tail) by lia.
  rewrite Hn. unfold malloc_zero.
  replace (len out + len tail <? 0) with false
    by (symmetry; apply Z.ltb_ge; pose proof (len_nonneg out); lia).
  cbn [bind].
  replace (Z.to_nat (len out + len tail)) with (length out + length tail)%nat
    by (unfold len; lia).
  pose proof (rebuild_tags_complete m in_trailer_hdr new_offset ts 0 []
                (length out + length tail) Hsz) as Hreb.
  cbn [app] in Hreb. change (len []) with 0 in Hreb. fold out in Hreb.
  rewrite Hreb; [| rewrite Z.add_0_r; exact (region_app_l _ _ _ _ Hreg) | lia].
  cbn [bind].
  replace (first_offset_size ts =? 0) with false by (symmetry; apply Z.eqb_neq; exact Hcur).
  cbn [bind].
  rewrite (load_bytes_region m _ (len tail) tail (region_app_r _ _ _ _ Hreg) eq_refl).
  cbn [bind].
  replace (length out + length tail - length out)%nat with (length tail) by lia.
  rewrite (store_bytes_next out tail (length tail) (0 + len out)) by lia.
  cbn [bind]. rewrite Nat.sub_diag. cbn [repeat]. rewrite app_nil_r.
  rewrite len_app. reflexivity.
Qed.

(** ** Well-formed trailers: the walk *)

Lemma len_encode_entry (e : entry) : len (encode_entry e) = len (entry_payload e) + 6.
Proof. unfold encode_entry. len_lia. Qed.
#[local] Hint Rewrite len_encode_entry : len.

Lemma encode_entries_app (xs ys : list entry) :
  encode_entries (xs ++ ys) = encode_entries xs ++ encode_entries ys.
Proof. unfold encode_entries. apply flat_map_app. Qed.

Lemma encode_entries_cons (e : entry) (es : list entry) :
  encode_entries (e :: es) = encode_entry e ++ encode_entries es.
Proof. reflexivity. Qed.

(** The fields of an entry that sits at its place. *)
Lemma item_fields (m : buffer) (hdr_info : EntryInfo.t) (e : entry) :
  item_at m hdr_info e ->
  0 <= entry_type_of e < 2 ^ 16 ->
  len (entry_payload e) < 2 ^ 32 ->
  entry_type m (EntryInfo.hdr hdr_info) = Done (entry_type_of e) /\
  entry_length m (EntryInfo.hdr hdr_info) = Done (len (entry_payload e)) /\
  region m (EntryInfo.trailer_offset_to_data hdr_info) (entry_payload e).
Proof.
  intros (Hreg & Hhdr) Ht Hl. unfold encode_entry in Hreg. rewrite Hhdr.
  pose proof (len_nonneg (entry_payload e)).
  split; [|split].
  - unfold entry_type. apply load_u16_region; [|exact Ht].
    apply region_app_r in Hreg. now apply region_app_l in Hreg.
  - unfold entry_length. apply load_u32_region; [|lia].
    apply region_app_r in Hreg. apply region_app_r in Hreg.
    rewrite len_le_encode in Hreg.
    replace (EntryInfo.trailer_offset_to_data hdr_info + len (entry_payload e) + 2)
      with (EntryInfo.trailer_offset_to_data hdr_info + len (entry_payload e) + Z.of_nat 2)
      by lia.
    exact Hreg.
  - now apply region_app_l in Hreg.
Qed.

(** Every entry takes at least the 6 bytes of its header. *)
Lemma entries_count_bound (es : list entry) :
  6 * Z.of_nat (length es) <= len (encode_entries es).
Proof.
  induction es as [|e es IH]; [cbn; lia|].
  rewrite encode_entries_cons, len_app, len_encode_entry.
  pose proof (len_nonneg (entry_payload e)). cbn [length]. lia.
Qed.

(** The records of a trailer of less than [2^32] bytes fit the vector. *)
Lemma entries_count_small (es : list entry) :
  len (encode_entries es) < 2 ^ 32 ->
  vector_size (@vector_init EntryInfo.t) + Z.of_nat (length (rev es)) <= 2 ^ 30.
Proof.
  intros H. pose proof (entries_count_bound es). rewrite length_rev.
  unfold vector_init, vector_size. cbn [length]. lia.
Qed.

(** The walk over a buffer that ends with the entries [rev res] and
    [suffix]: one record per entry, and the cursor lands on [trailer_len]. *)
Lemma decode_trailer_loop_complete (ti : InsFileTrailerHeaderType) :
  forall (res : list entry) (suffix : list byte) (fuel : nat)
         (items : vector_t EntryInfo.t),
    trailer_len ti = len (encode_entries (rev res) ++ suffix) ->
    trailer_len ti < 2 ^ 32 ->
    (length res <= fuel)%nat ->
    vector_size items + Z.of_nat (length res) <= 2 ^ 30 ->
    decode_trailer_loop fuel (encode_entries (rev res) ++ suffix) ti (len suffix) items
    = Some (Done (trailer_len ti,
                  items ++ entry_infos (len (encode_entries (rev res))) res)).
Proof.
  induction res as [|e res IH]; intros suffix fuel items Htl Hb Hfuel Hcount.
  - cbn [rev encode_entries flat_map app entry_infos] in *. rewrite app_nil_r.
    destruct fuel; cbn [decode_trailer_loop];
      (replace (len suffix <? trailer_len ti) with false
         by (symmetry; apply Z.ltb_ge; lia)); now rewrite Htl.
  - destruct fuel as [|fuel]; [simpl in Hfuel; lia|].
    cbn [rev] in *. rewrite encode_entries_app in *.
    cbn [encode_entries flat_map] in *. rewrite app_nil_r in *.
    fold (encode_entries (rev res)) in *.
    rewrite <- app_assoc in *.
    set (body := encode_entries (rev res)) in *.
    pose proof (len_nonneg body) as Hb0. pose proof (len_nonneg suffix) as Hs0.
    pose proof (len_nonneg (entry_payload e)) as Hp0.
    assert (Hlen : trailer_len ti = len body + len (entry_payload e) + 6 + len suffix).
    { rewrite Htl. rewrite !len_app, len_encode_entry. lia. }
    cbn [decode_trailer_loop].
    replace (len suffix <? trailer_len ti) with true by (symmetry; apply Z.ltb_lt; lia).
    unfold sizeof_InsFileTrailerEntryHeaderType.
    assert (Hel : entry_length (body ++ encode_entry e ++ suffix)
                    (trailer_len ti - len suffix - 6) = Done (len (entry_payload e))).
    { unfold entry_length. apply load_u32_region; [|lia].
      exists (body ++ entry_payload e ++ le_encode 2 (entry_type_of e)), suffix.
      split.
      - unfold encode_entry. now rewrite <- !app_assoc.
      - len_lia. }
    rewrite Hel.
    rewrite vector_push_checked_small by (cbn [length] in Hcount; lia).
    replace (to_uint32 (len suffix + (len (entry_payload e) + 6)))
      with (len (encode_entry e ++ suffix))
      by (rewrite to_uint32_small; rewrite ?len_app, ?len_encode_entry; lia).
    specialize (IH (encode_entry e ++ suffix) fuel
                  (vector_push items
                     (EntryInfo.mk (trailer_len ti - len suffix - 6)
                        (to_uint64 (to_uint32 (trailer_len ti - len suffix
                                               - len (entry_payload e)) - 6))))).
    rewrite IH; [| exact Htl | exact Hb | simpl in Hfuel; lia |].
    2:{ unfold vector_push, vector_size in *. rewrite length_app.
        cbn [length] in *. lia. }
    f_equal. f_equal. f_equal. unfold vector_push. rewrite <- app_assoc. f_equal.
    cbn [app entry_infos].
    rewrite to_uint32_small by lia. rewrite to_uint64_small by lia.
    rewrite len_app, len_encode_entry.
    f_equal; [f_equal; lia | f_equal; lia].
Qed.

(** Each record of the walk describes its entry. *)
Lemma entry_infos_at (suffix : list byte) :
  forall (res : list entry),
    Forall2 (item_at (encode_entries (rev res) ++ suffix))
      (entry_infos (len (encode_entries (rev res))) res) res.
Proof.
  intros res.
  enough (H : forall (m : buffer) (post : list byte),
             m = encode_entries (rev res) ++ post ->
             Forall2 (item_at m) (entry_infos (len (encode_entries (rev res))) res) res)
    by (apply (H _ suffix eq_refl)).
  induction res as [|e res IH]; intros m post Hm; [constructor|].
  cbn [rev entry_infos] in *. rewrite encode_entries_app in *.
  cbn [encode_entries flat_map] in *. rewrite app_nil_r in *.
  fold (encode_entries (rev res)) in *.
  set (body := encode_entries (rev res)) in *.
  replace (len (body ++ encode_entry e) - 6 - len (entry_payload e)) with (len body)
    by (rewrite len_app, len_encode_entry; lia).
  constructor.
  - split; cbn [EntryInfo.hdr EntryInfo.trailer_offset_to_data].
    + exists body, post. split; [now rewrite Hm, <- app_assoc | reflexivity].
    + rewrite len_app, len_encode_entry. lia.
  - apply (IH m (encode_entry e ++ post)). now rewrite Hm, <- app_assoc.
Qed.

(** ** Well-formed trailers: the two passes of the driver *)

Lemma Forall2_rev {A B : Type} (R : A -> B -> Prop) (xs : list A) (ys : list B) :
  Forall2 R xs ys -> Forall2 R (rev xs) (rev ys).
Proof.
  induction 1 as [|x y xs ys Hxy _ IH]; [constructor|].
  cbn [rev]. apply Forall2_app; [exact IH | now repeat constructor].
Qed.

Lemma region_self (m : buffer) : region m 0 m.
Proof. exists [], []. split; [now rewrite app_nil_r | reflexivity]. Qed.

Lemma wf_entry_type_range (e : entry) : wf_entry e -> 0 <= entry_type_of e < 2 ^ 16.
Proof. destruct e; simpl; [lia | tauto]. Qed.

Lemma item_payload_bound (m : buffer) (hdr_info : EntryInfo.t) (e : entry) :
  item_at m hdr_info e -> len (entry_payload e) + 6 <= len m.
Proof.
  intros (Hreg & _). apply region_bounds in Hreg. rewrite len_encode_entry in Hreg. lia.
Qed.

(** First pass: the payload kept is the one rebuilt from the last
    specific-info entry visited. *)
Lemma change_entries_loop_complete (m : buffer) (new_offset : list byte) :
  len m + len new_offset < 2 ^ 31 ->
  forall (items : list EntryInfo.t) (res : list entry),
    Forall2 (item_at m) items res ->
    Forall wf_entry res ->
    forall kept : option (buffer * Z),
      change_entries_loop m new_offset items kept
      = Done (0, fold_left (keep_rebuilt new_offset) res kept).
Proof.
  intros Hb items res H. induction H as [|it e items res Hit _ IH]; intros Hwf kept;
    [reflexivity|].
  apply Forall_cons_iff in Hwf. destruct Hwf as [He Hres].
  pose proof (item_payload_bound _ _ _ Hit) as Hpl.
  pose proof (len_nonneg (entry_payload e)) as Hp0.
  pose proof (len_nonneg new_offset) as Hx0.
  destruct (item_fields m it e Hit (wf_entry_type_range e He) ltac:(lia))
    as (Hty & Hlen & Hreg).
  cbn [change_entries_loop fold_left]. rewrite Hty. cbn [bind].
  destruct e as [tags tail | type payload];
    cbn [entry_type_of entry_payload keep_rebuilt] in *.
  - change (257 =? 257) with true. cbv iota. rewrite Hlen. cbn [bind].
    destruct He as [Hwt Hso].
    rewrite (to_int32_small (len (encode_tags tags ++ tail))) by lia.
    rewrite (ins_change_stitching_offset_complete m _ _ tags tail new_offset
               Hwt Hso Hreg eq_refl) by lia.
    cbn [bind cr_ret cr_out]. change (0 <? 0) with false. cbv iota.
    apply IH. exact Hres.
  - replace (type =? 257) with false
      by (symmetry; apply Z.eqb_neq; destruct He as [_ Hne]; exact Hne).
    apply IH. exact Hres.
Qed.

Lemma fold_keep_rebuilt_rev (new_offset : list byte) (es : list entry)
    (kept : option (buffer * Z)) :
  fold_left (keep_rebuilt new_offset) (rev es) kept
  = match first_specific es with
    | Some src => Some (rebuilt_payload new_offset src)
    | None => kept
    end.
Proof.
  induction es as [|e es IH]; [reflexivity|].
  cbn [rev]. rewrite fold_left_app. cbn [fold_left]. rewrite IH.
  destruct e; reflexivity.
Qed.

(** *** The stream when no write is short *)

Lemma fwrite_room (o : OFILE) (bs : list byte) :
  can_take o (len bs) -> fwrite o bs = (len bs, accept o bs).
Proof.
  intros H. unfold fwrite, accept.
  destruct (len (o_buf o) + len bs <=? kStdioBufferSize) eqn:E; [reflexivity|].
  apply Z.leb_gt in E. destruct H as [H | H]; [lia|]. unfold slack in H.
  pose proof (len_nonneg bs). pose proof (len_nonneg (o_buf o)).
  cbv zeta. rewrite len_app.
  replace (Z.min (len (o_buf o) + len bs) (Z.max 0 (o_room o)))
    with (len (o_buf o) + len bs) by lia.
  replace (Z.max 0 (len (o_buf o) + len bs - len (o_buf o))) with (len bs) by lia.
  rewrite <- len_app, to_nat_len, firstn_all.
  f_equal. f_equal. rewrite len_app. lia.
Qed.

Lemma follows_accept (o : OFILE) (bs : list byte) : follows o (accept o bs) bs.
Proof.
  unfold follows, accept, accepted, slack.
  destruct (len (o_buf o) + len bs <=? kStdioBufferSize) eqn:E; cbn [o_data o_room o_buf].
  - split; [now rewrite app_assoc|]. split; [rewrite len_app; lia | auto].
  - apply Z.leb_gt in E. split; [now rewrite app_nil_r, !app_assoc|].
    split; [change (len []) with 0; lia | lia].
Qed.

Lemma follows_refl (o : OFILE) : follows o o [].
Proof.
  unfold follows. rewrite app_nil_r. change (len []) with 0.
  split; [reflexivity|]. split; [lia | auto].
Qed.

Lemma follows_trans (o o1 o2 : OFILE) (a b : list byte) :
  follows o o1 a -> follows o1 o2 b -> follows o o2 (a ++ b).
Proof.
  intros (Ha & Hs & Hk) (Ha' & Hs' & Hk'). unfold follows.
  pose proof (len_nonneg a). pose proof (len_nonneg b).
  split; [now rewrite Ha', Ha, app_assoc|]. split; [rewrite len_app; lia|].
  rewrite len_app. intros Hfit. destruct (Hk ltac:(lia)) as [Hd Hr].
  assert (Hb : o_buf o1 = o_buf o ++ a).
  { unfold accepted in Ha. rewrite Hd, <- app_assoc in Ha. now apply app_inv_head in Ha. }
  destruct (Hk' ltac:(rewrite Hb, len_app; lia)) as [Hd' Hr']. split; congruence.
Qed.

Lemma can_take_follows (o o1 : OFILE) (a : list byte) (k : Z) :
  can_take o (len a + k) -> 0 <= k -> follows o o1 a -> can_take o1 k.
Proof.
  intros H Hk0 (Ha & Hs & Hk). pose proof (len_nonneg a). unfold can_take in *.
  destruct H as [H | H]; [left | right; lia].
  destruct (Hk ltac:(lia)) as [Hd Hr].
  assert (Hb : o_buf o1 = o_buf o ++ a).
  { unfold accepted in Ha. rewrite Hd, <- app_assoc in Ha. now apply app_inv_head in Ha. }
  rewrite Hb, len_app. lia.
Qed.

Lemma can_take_less (o : OFILE) (n k : Z) : can_take o n -> k <= n -> can_take o k.
Proof. unfold can_take. intros [H | H] Hk; [left | right]; lia. Qed.

Lemma firstn_room (room : Z) (bs : list byte) :
  len bs <= room -> firstn (Z.to_nat room) bs = bs.
Proof. intros H. apply firstn_all2. unfold len in H. lia. Qed.

(** What the device holds after the last flush. *)
Lemma fflush_follows (room : Z) (o : OFILE) (written : list byte) :
  follows (mkOut [] room []) o written ->
  can_take (mkOut [] room []) (len written) ->
  o_data (snd (fflush o)) = firstn (Z.to_nat room) written.
Proof.
  intros (Ha & Hs & Hk) Hc. unfold can_take, slack, accepted in *.
  cbn [o_data o_room o_buf app] in *. change (len []) with 0 in *.
  pose proof (len_nonneg written) as Hw0. pose proof (len_nonneg (o_buf o)) as Hb0.
  unfold fflush. cbn [snd o_data].
  destruct Hc as [Hc | Hc].
  - destruct (Hk ltac:(lia)) as [Hd Hr]. rewrite Hd in *. cbn [app] in *.
    rewrite Hr. rewrite Ha.
    destruct (Z_le_gt_dec (len written) room).
    + replace (Z.min (len written) (Z.max 0 room)) with (len written) by lia.
      rewrite to_nat_len, firstn_all. symmetry. apply firstn_all2.
      unfold len in *. lia.
    + replace (Z.min (len written) (Z.max 0 room)) with (Z.max 0 room) by lia.
      f_equal. lia.
  - replace (Z.min (len (o_buf o)) (Z.max 0 (o_room o))) with (len (o_buf o)) by lia.
    rewrite to_nat_len, firstn_all, Ha. symmetry. apply firstn_all2.
    unfold len in *. lia.
Qed.

Lemma entry_type_rewrite (new_offset : list byte) (src : option (list tag * list byte))
    (e : entry) :
  entry_type_of (rewrite_entry new_offset src e) = entry_type_of e.
Proof. destruct e, src as [[? ?]|]; reflexivity. Qed.

(** The [switch] of the second pass on a well-formed entry. *)
Lemma entry_to_write_complete (m : buffer) (new_offset : list byte)
    (src : list tag * list byte) (hdr_info : EntryInfo.t) (e : entry) :
  item_at m hdr_info e ->
  wf_entry e ->
  len m < 2 ^ 32 ->
  snd (rebuilt_payload new_offset src) < 2 ^ 32 ->
  entry_to_write m (Some (rebuilt_payload new_offset src)) hdr_info
  = Done (entry_type_of e,
          len (entry_payload (rewrite_entry new_offset (Some src) e)),
          entry_payload (rewrite_entry new_offset (Some src) e)).
Proof.
  intros Hit He Hm Hn.
  pose proof (item_payload_bound _ _ _ Hit) as Hpl.
  pose proof (len_nonneg (entry_payload e)) as Hp0.
  destruct (item_fields m hdr_info e Hit (wf_entry_type_range e He) ltac:(lia))
    as (Hty & Hlen & Hreg).
  unfold entry_to_write. rewrite Hty. cbn [bind].
  destruct e as [tags tail | type payload]; destruct src as [ts tl];
    cbn [entry_type_of rewrite_entry entry_payload] in *.
  - change (257 =? 257) with true. cbv iota.
    unfold rebuilt_payload in *. cbn [fst snd] in *.
    rewrite (load_bytes_region _ 0 _ _ (region_self _) eq_refl). cbn [bind].
    rewrite to_uint32_small; [reflexivity|]. split; [apply len_nonneg | exact Hn].
  - replace (type =? 257) with false
      by (symmetry; apply Z.eqb_neq; destruct He as [_ Hne]; exact Hne).
    rewrite Hlen. cbn [bind].
    rewrite (load_bytes_region _ _ _ _ Hreg eq_refl). reflexivity.
Qed.

Lemma entry_to_write_opaque (m : buffer) (kept : option (buffer * Z))
    (hdr_info : EntryInfo.t) (type : Z) (payload : list byte) :
  item_at m hdr_info (Opaque type payload) ->
  wf_entry (Opaque type payload) ->
  len m < 2 ^ 32 ->
  entry_to_write m kept hdr_info = Done (type, len payload, payload).
Proof.
  intros Hit He Hm.
  pose proof (item_payload_bound _ _ _ Hit) as Hpl.
  pose proof (len_nonneg payload) as Hp0. cbn [entry_payload] in Hpl.
  destruct (item_fields m hdr_info _ Hit (wf_entry_type_range _ He) ltac:(simpl; lia))
    as (Hty & Hlen & Hreg).
  unfold entry_to_write. rewrite Hty. cbn [bind entry_type_of entry_payload] in *.
  replace (type =? 257) with false
    by (symmetry; apply Z.eqb_neq; destruct He as [_ Hne]; exact Hne).
  rewrite Hlen. cbn [bind]. rewrite (load_bytes_region _ _ _ _ Hreg eq_refl). reflexivity.
Qed.

Lemma entry_to_write_wf (m : buffer) (new_offset : list byte)
    (src : option (list tag * list byte)) (hdr_info : EntryInfo.t) (e : entry) :
  item_at m hdr_info e ->
  wf_entry e ->
  has_source src e ->
  len m < 2 ^ 32 ->
  (forall s, src = Some s -> snd (rebuilt_payload new_offset s) < 2 ^ 32) ->
  entry_to_write m (kept_payload new_offset src) hdr_info
  = Done (entry_type_of e,
          len (entry_payload (rewrite_entry new_offset src e)),
          entry_payload (rewrite_entry new_offset src e)).
Proof.
  intros Hit He Hsrc Hm Hn. destruct src as [s|].
  - apply entry_to_write_complete; auto.
  - destruct e as [tags tail | type payload]; [exfalso; now apply Hsrc|].
    now apply entry_to_write_opaque.
Qed.

Lemma to_int32_idem (z : Z) : to_int32 (to_int32 z) = to_int32 z.
Proof.
  unfold to_int32.
  replace ((z + 2 ^ 31) mod 2 ^ 32 - 2 ^ 31 + 2 ^ 31) with ((z + 2 ^ 31) mod 2 ^ 32) by lia.
  now rewrite Z.mod_mod by lia.
Qed.

(** Second pass on the entries of a well-formed trailer: it ends, the total
    is the number of bytes handed to the stream, and when no write is short
    the stream holds every entry, payload first. *)
Lemma rebuild_trailer_loop_complete (m : buffer) (new_offset : list byte)
    (src : option (list tag * list byte)) :
  len m < 2 ^ 32 ->
  (forall s, src = Some s -> snd (rebuilt_payload new_offset s) < 2 ^ 32) ->
  forall (items : list EntryInfo.t) (es : list entry),
    Forall2 (item_at m) items es ->
    Forall wf_entry es ->
    Forall (has_source src) es ->
    forall (file_out : OFILE) (total : Z),
      to_int32 total = total ->
      exists file_out' : OFILE,
        rebuild_trailer_loop m (kept_payload new_offset src) items file_out total
        = Done (file_out',
                to_int32 (total
                          + len (encode_entries (map (rewrite_entry new_offset src) es))))
        /\ (can_take file_out (len (encode_entries (map (rewrite_entry new_offset src) es))) ->
            follows file_out file_out'
              (encode_entries (map (rewrite_entry new_offset src) es))).
Proof.
  intros Hm Hn items es H.
  induction H as [|it e items es Hit _ IH]; intros Hwf Hsrc file_out total Htot.
  - cbn [rebuild_trailer_loop map encode_entries flat_map]. change (len []) with 0.
    exists file_out. rewrite Z.add_0_r, Htot. split; [reflexivity|].
    intros _. apply follows_refl.
  - apply Forall_cons_iff in Hwf. destruct Hwf as [He Hes].
    apply Forall_cons_iff in Hsrc. destruct Hsrc as [Hse Hses].
    cbn [rebuild_trailer_loop map]. rewrite encode_entries_cons.
    rewrite (entry_to_write_wf m new_offset src it e Hit He Hse Hm Hn). cbn [bind].
    set (e' := rewrite_entry new_offset src e) in *.
    set (rest' := encode_entries (map (rewrite_entry new_offset src) es)) in *.
    set (hdr := le_encode 2 (entry_type_of e) ++ le_encode 4 (len (entry_payload e'))).
    set (o1 := snd (fwrite file_out (entry_payload e'))).
    set (o2 := snd (fwrite o1 hdr)).
    pose proof (len_nonneg rest') as Hr0. pose proof (len_nonneg (entry_payload e')) as Hp0.
    assert (Hh : len hdr = 6) by (unfold hdr; len_lia).
    assert (Henc : encode_entry e' = entry_payload e' ++ hdr).
    { unfold encode_entry, hdr, e'. now rewrite (entry_type_rewrite new_offset src e). }
    destruct (IH Hes Hses o2
                (to_int32 (total + (len (entry_payload e')
                                    + sizeof_InsFileTrailerEntryHeaderType)))
                (to_int32_idem _)) as (o' & Heq & Hfol).
    exists o'. split.
    + rewrite Heq. f_equal. f_equal. unfold sizeof_InsFileTrailerEntryHeaderType.
      rewrite to_int32_add_l. f_equal. rewrite len_app, len_encode_entry. clear. lia.
    + intros Hc. rewrite Henc, !len_app, Hh in Hc. rewrite Henc, <- app_assoc.
      assert (H1 : follows file_out o1 (entry_payload e')).
      { unfold o1. rewrite fwrite_room by (apply (can_take_less _ _ _ Hc); clear - Hr0; lia).
        apply follows_accept. }
      assert (Hc1 : can_take o1 (len hdr + len rest')).
      { apply (can_take_follows file_out o1 (entry_payload e')); [|clear - Hr0 Hh; lia | exact H1].
        apply (can_take_less _ _ _ Hc). clear - Hh. lia. }
      assert (H2 : follows o1 o2 hdr).
      { unfold o2. rewrite fwrite_room by (apply (can_take_less _ _ _ Hc1); clear - Hr0; lia).
        apply follows_accept. }
      assert (Hc2 : can_take o2 (len rest')).
      { apply (can_take_follows o1 o2 hdr); [exact Hc1 | exact Hr0 | exact H2]. }
      apply (follows_trans _ _ _ _ _ H1). apply (follows_trans _ _ _ _ _ H2).
      apply Hfol. exact Hc2.
Qed.

(** ** Well-formed files: locating and reading the trailer *)

Lemma bytes_eqb_refl (a : list byte) : bytes_eqb a a = true.
Proof.
  induction a as [|x a IH]; [reflexivity|]. cbn [bytes_eqb]. rewrite IH.
  now rewrite (Byte.byte_dec_lb eq_refl).
Qed.

Lemma fread_region (data : list byte) (p n : Z) (x : list byte) :
  region data p x -> n = len x ->
  fread (mkFile data p) n = (x, mkFile data (p + len x)).
Proof.
  intros H ->. unfold fread. cbn [f_pos f_data].
  now rewrite (region_slice _ _ _ _ H eq_refl).
Qed.

Lemma fseek_end_ok (data : list byte) (p off : Z) :
  0 <= len data + off -> fseek_end (mkFile data p) off = mkFile data (len data + off).
Proof.
  intros H. unfold fseek_end, fseek_set. cbn [f_data].
  now replace (len data + off <? 0) with false by (symmetry; apply Z.ltb_ge; lia).
Qed.

Lemma get_file_size_ok (data : list byte) (p : Z) :
  len data < 2 ^ 63 -> get_file_size (mkFile data p) = (len data, mkFile data (len data)).
Proof.
  intros H. unfold get_file_size. pose proof (len_nonneg data).
  rewrite fseek_end_ok by lia. unfold ftell. cbn [f_pos].
  rewrite Z.add_0_r. now rewrite to_int64_small by lia.
Qed.

Lemma region_end (pre x : list byte) : region (pre ++ x) (len (pre ++ x) - len x) x.
Proof.
  exists pre, []. split; [now rewrite app_nil_r | len_lia].
Qed.

Lemma len_minimal_header (tl ver : Z) : len (minimal_header tl ver) = 72.
Proof. unfold minimal_header. autorewrite with len. reflexivity. Qed.
#[local] Hint Rewrite len_minimal_header : len.

Lemma minimal_header_fields (tl ver : Z) :
  0 <= tl < 2 ^ 32 -> 0 <= ver < 2 ^ 32 ->
  let at_info := skipn 32 (minimal_header tl ver) in
  le_decode (firstn 4 at_info) = tl /\ le_decode (firstn 4 (skipn 4 at_info)) = ver.
Proof.
  intros Htl Hver at_info. subst at_info. split.
  - exact (le_decode_encode 4 tl Htl).
  - exact (le_decode_encode 4 ver Hver).
Qed.

(** A file that ends with [body] and its minimal header is located and read:
    the buffer is the trailer, the header its length and version. *)
Lemma ins_read_allocate_trailer_complete (media body : list byte) (ver : Z) :
  let trailer := body ++ minimal_header (len body + kInsFileMinHeaderLength) ver in
  len (media ++ trailer) < 2 ^ 31 ->
  0 <= ver < 2 ^ 32 ->
  ins_read_allocate_trailer (mkFile (media ++ trailer) 0)
  = (0, Some (trailer, mkTrailerHeader (len body + kInsFileMinHeaderLength) ver),
     mkFile (media ++ trailer) (len (media ++ trailer))).
Proof.
  intros trailer Hlen Hver.
  set (tl := len body + kInsFileMinHeaderLength) in *.
  set (f := media ++ trailer) in *.
  pose proof (len_nonneg media) as Hm0. pose proof (len_nonneg body) as Hb0.
  assert (Htl : len trailer = tl) by (unfold trailer, tl, kInsFileMinHeaderLength,
                                      kInsFileSignatureLength; len_lia).
  assert (Hf : len f = len media + tl) by (unfold f; len_lia).
  assert (H72 : tl = len body + 72) by reflexivity.
  (* the regions the three reads return *)
  assert (Rsig : region f (len f + - kInsFileSignatureLength) kInsFileSignature).
  { unfold f, trailer, minimal_header. 
    replace (media ++ body ++ repeat x00 32 ++ le_encode 4 tl ++ le_encode 4 ver
             ++ kInsFileSignature)
      with ((media ++ body ++ repeat x00 32 ++ le_encode 4 tl ++ le_encode 4 ver)
            ++ kInsFileSignature) by (now rewrite <- !app_assoc).
    replace (- kInsFileSignatureLength) with (- len kInsFileSignature) by reflexivity.
    apply region_end. }
  assert (Rmin : region f (len f + - kInsFileMinHeaderLength) (minimal_header tl ver)).
  { unfold f, trailer.
    replace (media ++ body ++ minimal_header tl ver)
      with ((media ++ body) ++ minimal_header tl ver) by (now rewrite <- !app_assoc).
    replace (- kInsFileMinHeaderLength) with (- len (minimal_header tl ver))
      by (now rewrite len_minimal_header).
    apply region_end. }
  assert (Rtr : region f (len f + - tl) trailer).
  { unfold f. rewrite <- Htl. apply region_end. }
  unfold ins_read_allocate_trailer, ins_find_and_read_minimal_header.
  rewrite get_file_size_ok by lia.
  replace (len f <? kInsFileMinHeaderLength) with false
    by (symmetry; apply Z.ltb_ge; unfold kInsFileMinHeaderLength, kInsFileSignatureLength; lia).
  rewrite fseek_end_ok by (unfold kInsFileSignatureLength; lia).
  rewrite (fread_region f _ kInsFileSignatureLength _ Rsig eq_refl).
  change (len kInsFileSignature =? kInsFileSignatureLength) with true. cbn [negb].
  rewrite bytes_eqb_refl. cbn [negb].
  rewrite fseek_end_ok by (unfold kInsFileMinHeaderLength, kInsFileSignatureLength; lia).
  rewrite (fread_region f _ kInsFileMinHeaderLength _ Rmin)
    by (now rewrite len_minimal_header).
  rewrite len_minimal_header.
  change (72 =? kInsFileMinHeaderLength) with true. cbn [negb].
  change (0 <? 0) with false. cbv iota.
  change (Z.to_nat (kInsFileMinHeaderLength - kInsFileSignatureLength
                    - sizeof_InsFileTrailerHeaderType)) with 32%nat.
  destruct (minimal_header_fields tl ver ltac:(lia) Hver) as [Hd1 Hd2].
  cbv zeta in Hd1, Hd2. rewrite Hd1, Hd2. cbn [trailer_len].
  rewrite (to_int32_small tl) by lia. rewrite to_int32_small by lia.
  rewrite fseek_end_ok by lia.
  rewrite (fread_region f _ tl _ Rtr) by (symmetry; exact Htl).
  rewrite Htl. replace (tl >? tl) with false by (symmetry; apply gtb_false; lia).
  f_equal. f_equal. lia.
Qed.

(** ** Well-formed files: copying the media *)

(** The chunk the copy loop asks for when [todo] bytes are left. *)
Lemma copy_chunk_size (todo : Z) :
  0 < todo < 2 ^ 31 ->
  let c := if to_uint64 (to_int32 todo) >? kCopyBufferSize then kCopyBufferSize
           else to_int32 todo in
  0 < c <= todo /\ c <= kCopyBufferSize /\ to_uint64 c = c /\
  (c = todo \/ c = kCopyBufferSize) /\ to_int32 c = c.
Proof.
  intros H. rewrite (to_int32_small todo) by lia. rewrite (to_uint64_small todo) by lia.
  unfold kCopyBufferSize. destruct (todo >? 8 * 1024) eqn:G; cbv zeta.
  - apply Z.gtb_lt in G. rewrite to_uint64_small, to_int32_small by lia. lia.
  - rewrite Z.gtb_ltb in G. apply Z.ltb_ge in G.
    rewrite to_uint64_small, to_int32_small by lia. lia.
Qed.

(** The copy of the media ends, with the error flag or with the file
    position after the media; the flag is clear and the stream holds the
    media when no write is short. *)
Lemma copy_media_loop_complete (trailer : list byte) (size tl : Z) :
  tl = len trailer -> size < 2 ^ 31 ->
  forall (fuel : nat) (done todo : list byte) (o : OFILE),
    size = len (done ++ todo ++ trailer) ->
    len todo <= Z.of_nat fuel * kCopyBufferSize ->
    exists (error : bool) (file' : FILE) (o' : OFILE),
      copy_media_loop fuel (mkFile (done ++ todo ++ trailer) (len done)) o
        size tl (len done)
      = Some (error, file', o') /\
      (can_take o (len todo) ->
       error = false /\
       file' = mkFile (done ++ todo ++ trailer) (len done + len todo) /\
       follows o o' todo).
Proof.
  intros Htl Hsize. induction fuel as [|fuel IH]; intros done todo o Hs Hfuel.
  - assert (todo = []) by (apply len_zero_nil; pose proof (len_nonneg todo); lia).
    subst todo. cbn [copy_media_loop app].
    replace (len done <? size - tl) with false
      by (symmetry; apply Z.ltb_ge; rewrite Hs; len_lia).
    exists false, (mkFile (done ++ trailer) (len done)), o.
    split; [reflexivity|]. intros _. change (len []) with 0. rewrite Z.add_0_r.
    split; [reflexivity|]. split; [reflexivity | apply follows_refl].
  - pose proof (len_nonneg todo) as Ht0. pose proof (len_nonneg done) as Hd0.
    pose proof (len_nonneg trailer) as Htr0.
    assert (Hsz : size = len done + len todo + len trailer) by (rewrite Hs; len_lia).
    cbn [copy_media_loop].
    destruct (len done <? size - tl) eqn:E.
    + apply Z.ltb_lt in E.
      replace (size - tl - len done) with (len todo) by lia.
      destruct (copy_chunk_size (len todo) ltac:(lia)) as (Hc1 & Hc2 & Hc3 & Hc4 & Hc5).
      cbv zeta in Hc1, Hc2, Hc3, Hc4, Hc5.
      set (c := if to_uint64 (to_int32 (len todo)) >? kCopyBufferSize
                then kCopyBufferSize else to_int32 (len todo)) in *.
      rewrite Hc3.
      set (chunk := firstn (Z.to_nat c) todo).
      set (todo' := skipn (Z.to_nat c) todo).
      assert (Htodo : todo = chunk ++ todo') by (symmetry; apply firstn_skipn).
      assert (Hchunk : len chunk = c).
      { unfold chunk, len. rewrite length_firstn. unfold len in Hc1. lia. }
      assert (Hreg : region (done ++ todo ++ trailer) (len done) chunk).
      { exists done, (todo' ++ trailer). split; [|reflexivity].
        now rewrite Htodo, <- app_assoc. }
      rewrite (fread_region _ _ c _ Hreg) by (symmetry; exact Hchunk).
      rewrite Hchunk, Z.eqb_refl. cbn [negb].
      assert (Ht' : len todo = c + len todo') by (rewrite Htodo at 1; len_lia).
      pose proof (len_nonneg todo') as Ht'0.
      destruct (fwrite o chunk) as [written o1] eqn:Ew.
      destruct (negb (written =? c)) eqn:Eshort.
      * eexists _, _, _. split; [reflexivity|]. intros Hc. exfalso.
        rewrite fwrite_room in Ew
          by (apply (can_take_less _ _ _ Hc); clear IH; lia).
        injection Ew as Hw _. rewrite <- Hw, Hchunk, Z.eqb_refl in Eshort. discriminate.
      * rewrite (to_int32_small (len done + c)) by lia.
        replace (done ++ todo ++ trailer) with ((done ++ chunk) ++ todo' ++ trailer)
          by (now rewrite Htodo, <- !app_assoc).
        replace (len done + c) with (len (done ++ chunk)) by len_lia.
        destruct (IH (done ++ chunk) todo' o1) as (error & file' & o' & Heq & Hok).
        { rewrite Hs, Htodo. now rewrite <- !app_assoc. }
        { clear IH. unfold kCopyBufferSize in *. lia. }
        exists error, file', o'. split; [exact Heq|]. intros Hc.
        assert (H1 : follows o o1 chunk).
        { rewrite fwrite_room in Ew
            by (apply (can_take_less _ _ _ Hc); clear IH; lia).
          injection Ew as _ Ho. rewrite <- Ho. apply follows_accept. }
        assert (Hc1' : can_take o1 (len todo')).
        { apply (can_take_follows o o1 chunk); [|exact Ht'0 | exact H1].
          apply (can_take_less _ _ _ Hc). clear IH. lia. }
        destruct (Hok Hc1') as (He & Hf & Hfol).
        split; [exact He|]. split.
        -- rewrite Hf. f_equal. clear IH. len_lia.
        -- rewrite Htodo. apply (follows_trans _ _ _ _ _ H1 Hfol).
    + apply Z.ltb_ge in E.
      assert (todo = []) by (apply len_zero_nil; lia).
      subst todo. cbn [app].
      exists false, (mkFile (done ++ trailer) (len done)), o.
      split; [reflexivity|]. intros _. change (len []) with 0. rewrite Z.add_0_r.
      split; [reflexivity|]. split; [reflexivity | apply follows_refl].
Qed.

(** ** Well-formed files: the whole rewrite *)

Lemma has_source_first_specific (es : list entry) :
  Forall (has_source (first_specific es)) es.
Proof.
  induction es as [|e es IH]; [constructor|].
  destruct e as [tags tail | type payload]; cbn [first_specific].
  - apply Forall_forall. intros e' _. destruct e'; simpl; [discriminate | exact I].
  - constructor; [exact I | exact IH].
Qed.

Lemma first_specific_In (es : list entry) (tags : list tag) (tail : list byte) :
  first_specific es = Some (tags, tail) -> In (SpecificInfo tags tail) es.
Proof.
  induction es as [|e es IH]; [discriminate|].
  destruct e; cbn [first_specific]; intros H.
  - inv H. now left.
  - right. now apply IH.
Qed.

Lemma write_zero_padding_room (n : nat) (file_out : OFILE) :
  can_take file_out (Z.of_nat n) ->
  follows file_out (write_zero_padding n file_out) (repeat x00 n).
Proof.
  revert file_out. induction n as [|n IH]; intros file_out H.
  - cbn [write_zero_padding repeat]. apply follows_refl.
  - cbn [write_zero_padding repeat].
    assert (H1 : follows file_out (snd (fwrite file_out [x00])) [x00]).
    { rewrite fwrite_room
        by (apply (can_take_less _ _ _ H); rewrite len_cons, len_nil; lia).
      apply follows_accept. }
    change (x00 :: repeat x00 n) with ([x00] ++ repeat x00 n).
    apply (follows_trans _ _ _ _ _ H1). apply IH.
    apply (can_take_follows file_out _ [x00]); [|lia | exact H1].
    apply (can_take_less _ _ _ H). rewrite len_cons, len_nil. lia.
Qed.

Lemma len_rebuilt_payload (new_offset : list byte) (tags : list tag) (tail : list byte) :
  single_offset_tag tags ->
  snd (rebuilt_payload new_offset (tags, tail))
  = len (encode_tags tags ++ tail) - first_offset_size tags + len new_offset.
Proof.
  intros [Hone _]. unfold rebuilt_payload. cbn [fst snd].
  rewrite !len_app, (len_encode_set_offset _ _ Hone). lia.
Qed.

Lemma emitted_file_small (media : list byte) (es : list entry) (ver : Z) :
  len (encode_trailer es ver) < 2 ^ 32 ->
  emitted_file media es ver = media ++ encode_trailer es ver.
Proof.
  intros H. unfold emitted_file, encode_trailer in *.
  rewrite to_uint32_small; [reflexivity|].
  pose proof (len_nonneg (encode_entries es)).
  rewrite len_app, len_minimal_header in H.
  unfold kInsFileMinHeaderLength, kInsFileSignatureLength. lia.
Qed.

(** The size of the payload kept by the first pass. *)
Lemma kept_payload_size (new_offset : list byte) (es : list entry) :
  Forall wf_entry es ->
  len (encode_entries es) + len new_offset < 2 ^ 31 ->
  forall s, first_specific es = Some s -> snd (rebuilt_payload new_offset s) < 2 ^ 32.
Proof.
  intros Hwf Hin [tags tail] Hs. apply first_specific_In in Hs.
  pose proof (proj1 (Forall_forall wf_entry es) Hwf _ Hs) as [Hwt Hso].
  rewrite (len_rebuilt_payload _ _ _ Hso).
  pose proof (first_offset_size_bounds tags).
  assert (len (encode_entry (SpecificInfo tags tail)) <= len (encode_entries es)).
  { unfold encode_entries. clear - Hs. induction es as [|e es IH]; [destruct Hs|].
    cbn [flat_map]. rewrite len_app. pose proof (len_nonneg (flat_map encode_entry es)).
    pose proof (len_nonneg (encode_entry e)).
    destruct Hs as [-> | Hs]; [lia | specialize (IH Hs); lia]. }
  rewrite len_encode_entry in *. cbn [entry_payload] in *. lia.
Qed.

(** The driver on a well-formed file up to the creation of the output file:
    the trailer is read and walked, the first pass keeps the rebuilt payload
    of the first specific-info entry, and the input is rewound. *)
Lemma run_change_stitching_offset_front (fuel : nat) (media : list byte)
    (es : list entry) (ver : Z) (new_offset : list byte) (out_room : option Z) :
  Forall wf_entry es ->
  0 <= ver < 2 ^ 32 ->
  len (media ++ encode_trailer es ver) + len new_offset < 2 ^ 31 ->
  (length es <= fuel)%nat ->
  let trailer := encode_trailer es ver in
  let items := entry_infos (len (encode_entries es)) (rev es) in
  let new_spec := kept_payload new_offset (first_specific es) in
  Forall2 (item_at trailer) (rev items) es /\
  run_change_stitching_offset fuel (Some (media ++ trailer)) out_room new_offset
  = match out_room with
    | None =>
        match free_new_spec new_spec with
        | Fault f => Some (Fault f)
        | Done _ => Some (Done (mkRun (-5) None))
        end
    | Some room =>
        match copy_media_loop fuel (mkFile (media ++ trailer) 0) (mkOut [] room [])
                (len (media ++ trailer)) (len trailer) 0 with
        | None => None
        | Some (error, file, file_out) =>
            if error then
              match free_new_spec new_spec with
              | Fault f => Some (Fault f)
              | Done _ => Some (Done (mkRun (-6) (Some (o_data (snd (fflush file_out))))))
              end
            else
              match rebuild_trailer_loop trailer new_spec (rev items) file_out 0 with
              | Fault f => Some (Fault f)
              | Done (file_out, total_new_trailer_size) =>
                  let file_out := write_zero_padding 32 file_out in
                  let file_out :=
                    snd (fwrite file_out
                           (le_encode 4 (to_uint32 (total_new_trailer_size
                                                    + kInsFileMinHeaderLength))
                            ++ le_encode 4 ver)) in
                  let file_out := snd (fwrite file_out kInsFileSignature) in
                  match free_new_spec new_spec with
                  | Fault f => Some (Fault f)
                  | Done _ => Some (Done (mkRun 0 (Some (o_data (snd (fflush file_out))))))
                  end
              end
        end
    end.
Proof.
  intros Hwf Hver Hin Hfuel trailer items new_spec.
  unfold run_change_stitching_offset. subst trailer items new_spec.
  unfold encode_trailer in *.
  set (body := encode_entries es) in *.
  set (tl := len body + kInsFileMinHeaderLength) in *.
  set (trailer := body ++ minimal_header tl ver) in *.
  pose proof (len_nonneg media) as Hm0. pose proof (len_nonneg body) as Hb0.
  pose proof (len_nonneg new_offset) as Hx0.
  assert (H72 : kInsFileMinHeaderLength = 72) by reflexivity.
  assert (Htl : len trailer = tl) by (unfold trailer, tl; len_lia).
  assert (Hlenf : len (media ++ trailer) = len media + tl) by len_lia.
  rewrite Hlenf in Hin.
  set (items := entry_infos (len body) (rev es)).
  assert (Hitems : Forall2 (item_at trailer) items (rev es)).
  { pose proof (entry_infos_at (minimal_header tl ver) (rev es)) as H.
    rewrite rev_involutive in H. exact H. }
  split.
  { pose proof (Forall2_rev _ _ _ Hitems) as H. now rewrite rev_involutive in H. }
  (* locating and reading the trailer *)
  pose proof (ins_read_allocate_trailer_complete media body ver) as Hread.
  cbv zeta in Hread. fold tl trailer in Hread.
  rewrite Hread by lia. clear Hread.
  change (0 <? 0) with false. cbv iota.
  (* the walk *)
  unfold ins_decode_trailer_data.
  assert (Hwalk : decode_trailer_loop fuel trailer (mkTrailerHeader tl ver)
                    kInsFileMinHeaderLength vector_init
                  = Some (Done (tl, items))).
  { pose proof (decode_trailer_loop_complete (mkTrailerHeader tl ver) (rev es)
                  (minimal_header tl ver) fuel vector_init) as H.
    rewrite rev_involutive in H. fold body trailer in H.
    rewrite len_minimal_header in H. cbn [trailer_len] in H.
    apply H; [symmetry; exact Htl | lia | rewrite length_rev; exact Hfuel
             | apply entries_count_small; fold body; lia]. }
  rewrite Hwalk. cbn [trailer_len]. rewrite Z.eqb_refl. cbn [negb td_ret td_items].
  change (0 <? 0) with false. cbv iota.
  (* first pass *)
  rewrite (change_entries_loop_complete trailer new_offset ltac:(lia) items (rev es)
             Hitems (Forall_rev Hwf) None).
  rewrite fold_keep_rebuilt_rev. change (0 <? 0) with false. cbv iota.
  fold (kept_payload new_offset (first_specific es)).
  (* the media *)
  rewrite get_file_size_ok by lia. unfold fseek_set. change (0 <? 0) with false.
  cbv iota. cbn [f_data]. rewrite Htl.
  destruct out_room as [room|]; [|reflexivity].
  destruct (copy_media_loop _ _ _ _ _ _) as [[[error file] file_out]|]; [|reflexivity].
  destruct error; [reflexivity|].
  destruct (rebuild_trailer_loop _ _ _ _ _) as [[file_out' total]|]; [|reflexivity].
  cbn [trailer_len trailer_version].
  change (Z.to_nat (kInsFileMinHeaderLength - kInsFileSignatureLength
                    - sizeof_InsFileTrailerHeaderType)) with 32%nat.
  rewrite to_uint32_to_int32. reflexivity.
Qed.

(** The driver on a well-formed file with a specific-info entry, with fuel,
    when no write is short or everything written fits the buffer of the
    stream: it returns 0, and the device holds as much of the media and the
    trailer of the rewritten entries as it has room for. *)
Lemma run_change_stitching_offset_emits (fuel : nat) (media : list byte)
    (es : list entry) (ver room : Z) (new_offset : list byte) :
  Forall wf_entry es ->
  first_specific es <> None ->
  0 <= ver < 2 ^ 32 ->
  len (media ++ encode_trailer es ver) + len new_offset < 2 ^ 31 ->
  can_take (mkOut [] room [])
    (len (emitted_file media (rewrite_entries new_offset es) ver)) ->
  (length es <= fuel)%nat ->
  len media <= Z.of_nat fuel * kCopyBufferSize ->
  run_change_stitching_offset fuel (Some (media ++ encode_trailer es ver)) (Some room)
    new_offset
  = Some (Done (mkRun 0
            (Some (firstn (Z.to_nat room)
                     (emitted_file media (rewrite_entries new_offset es) ver))))).
Proof.
  intros Hwf Hfs Hver Hin Hroom Hfuel Hcopy.
  destruct (run_change_stitching_offset_front fuel media es ver new_offset (Some room)
              Hwf Hver Hin Hfuel) as [Hitems Hrun].
  cbv zeta in Hitems, Hrun. rewrite Hrun. clear Hrun.
  unfold emitted_file in *. unfold encode_trailer in *.
  set (body := encode_entries es) in *.
  set (tl := len body + kInsFileMinHeaderLength) in *.
  set (trailer := body ++ minimal_header tl ver) in *.
  set (body' := encode_entries (rewrite_entries new_offset es)) in *.
  set (tl' := to_uint32 (len body' + kInsFileMinHeaderLength)) in *.
  pose proof (len_nonneg media) as Hm0. pose proof (len_nonneg body) as Hb0.
  pose proof (len_nonneg body') as Hb'0. pose proof (len_nonneg new_offset) as Hx0.
  assert (H72 : kInsFileMinHeaderLength = 72) by reflexivity.
  assert (Htl : len trailer = tl) by (unfold trailer, tl; len_lia).
  assert (Hlenf : len (media ++ trailer) = len media + tl) by len_lia.
  assert (Hleno : len (media ++ body' ++ minimal_header tl' ver)
                  = len media + (len body' + 72)) by len_lia.
  rewrite Hlenf in Hin.
  (* the media *)
  destruct (copy_media_loop_complete trailer (len (media ++ trailer)) (len trailer) eq_refl
              ltac:(lia) fuel [] media (mkOut [] room []) eq_refl Hcopy)
    as (error & file' & o1 & Hcp & Hok).
  cbn [app] in Hcp. change (len []) with 0 in Hcp.
  rewrite Hcp. clear Hcp.
  assert (C0 : can_take (mkOut [] room []) (len media)).
  { apply (can_take_less _ _ _ Hroom). rewrite Hleno. lia. }
  destruct (Hok C0) as (-> & _ & F1). clear Hok.
  (* second pass *)
  destruct (rebuild_trailer_loop_complete trailer new_offset (first_specific es)
              ltac:(lia) (kept_payload_size new_offset es Hwf ltac:(fold body; lia))
              _ es Hitems Hwf (has_source_first_specific es) o1 0 eq_refl)
    as (o2 & Hreb & F2).
  fold (rewrite_entries new_offset es) in Hreb, F2. fold body' in Hreb, F2.
  rewrite Hreb. clear Hreb. rewrite Z.add_0_l.
  assert (C1 : can_take o1 (len body' + 72)).
  { apply (can_take_follows (mkOut [] room []) _ media); [|lia | exact F1].
    now rewrite <- Hleno. }
  assert (C1' : can_take o1 (len body')) by (apply (can_take_less _ _ _ C1); lia).
  specialize (F2 C1').
  assert (C2 : can_take o2 72).
  { apply (can_take_follows o1 _ body'); [exact C1 | lia | exact F2]. }
  assert (C2' : can_take o2 (Z.of_nat 32)) by (apply (can_take_less _ _ _ C2); lia).
  pose proof (write_zero_padding_room 32 o2 C2') as F3.
  set (o3 := write_zero_padding 32 o2) in *.
  assert (C3 : can_take o3 40).
  { apply (can_take_follows o2 _ (repeat x00 32)); [|lia | exact F3].
    rewrite len_repeat. exact C2. }
  rewrite to_uint32_int32_add. fold tl'.
  set (hdr := le_encode 4 tl' ++ le_encode 4 ver).
  assert (Hh : len hdr = 8) by (unfold hdr; len_lia).
  assert (F4 : follows o3 (snd (fwrite o3 hdr)) hdr).
  { rewrite fwrite_room by (apply (can_take_less _ _ _ C3); lia). apply follows_accept. }
  set (o4 := snd (fwrite o3 hdr)) in *.
  assert (C4 : can_take o4 32).
  { apply (can_take_follows o3 _ hdr); [|lia | exact F4]. now rewrite Hh. }
  assert (F5 : follows o4 (snd (fwrite o4 kInsFileSignature)) kInsFileSignature).
  { rewrite fwrite_room by exact C4. apply follows_accept. }
  set (o5 := snd (fwrite o4 kInsFileSignature)) in *.
  destruct (first_specific es) as [s|] eqn:Efs; [|congruence].
  cbn [kept_payload free_new_spec].
  pose proof (follows_trans _ _ _ _ _ F1
                (follows_trans _ _ _ _ _ F2
                   (follows_trans _ _ _ _ _ F3
                      (follows_trans _ _ _ _ _ F4 F5)))) as F.
  do 3 f_equal.
  rewrite (fflush_follows room o5 _ F).
  - unfold minimal_header, hdr. now rewrite <- !app_assoc.
  - replace (media ++ body' ++ repeat x00 32 ++ hdr ++ kInsFileSignature)
      with (media ++ body' ++ minimal_header tl' ver); [exact Hroom|].
    unfold minimal_header, hdr. now rewrite <- !app_assoc.
Qed.

(** The driver on a well-formed file, with fuel and room: it returns 0 and
    the output is the media followed by the trailer of the rewritten
    entries, with the version of the input. *)
Lemma run_change_stitching_offset_complete (fuel : nat) (media : list byte)
    (es : list entry) (ver room : Z) (new_offset : list byte) :
  Forall wf_entry es ->
  first_specific es <> None ->
  0 <= ver < 2 ^ 32 ->
  len (media ++ encode_trailer es ver) + len new_offset < 2 ^ 31 ->
  len (media ++ encode_trailer (rewrite_entries new_offset es) ver) < 2 ^ 31 ->
  len (media ++ encode_trailer (rewrite_entries new_offset es) ver) <= room ->
  (length es <= fuel)%nat ->
  len media <= Z.of_nat fuel * kCopyBufferSize ->
  run_change_stitching_offset fuel (Some (media ++ encode_trailer es ver)) (Some room)
    new_offset
  = Some (Done (mkRun 0
            (Some (media ++ encode_trailer (rewrite_entries new_offset es) ver)))).
Proof.
  intros Hwf Hfs Hver Hin Hout Hroom Hfuel Hcopy.
  assert (He : emitted_file media (rewrite_entries new_offset es) ver
               = media ++ encode_trailer (rewrite_entries new_offset es) ver).
  { apply emitted_file_small. rewrite len_app in Hout. pose proof (len_nonneg media). lia. }
  rewrite (run_change_stitching_offset_emits fuel media es ver room new_offset
             Hwf Hfs Hver Hin); [| | exact Hfuel | exact Hcopy].
  - rewrite He. do 4 f_equal. apply firstn_all2. unfold len in Hroom. lia.
  - rewrite He. right. unfold slack. cbn [o_room o_buf]. change (len []) with 0. lia.
Qed.

(** ** Reading the rewritten file back *)

Lemma Forall2_In_l {A B : Type} (R : A -> B -> Prop) (xs : list A) (ys : list B) (x : A) :
  Forall2 R xs ys -> In x xs -> exists y, In y ys /\ R x y.
Proof.
  induction 1 as [|x' y' xs ys Hxy _ IH]; intros Hin; [destruct Hin|].
  destruct Hin as [-> | Hin].
  - exists y'. split; [now left | exact Hxy].
  - destruct (IH Hin) as (y & Hy & Hr). exists y. split; [now right | exact Hr].
Qed.

Lemma Forall2_In_r {A B : Type} (R : A -> B -> Prop) (xs : list A) (ys : list B) (y : B) :
  Forall2 R xs ys -> In y ys -> exists x, In x xs /\ R x y.
Proof.
  induction 1 as [|x' y' xs ys Hxy _ IH]; intros Hin; [destruct Hin|].
  destruct Hin as [-> | Hin].
  - exists x'. split; [now left | exact Hxy].
  - destruct (IH Hin) as (x & Hx & Hr). exists x. split; [now right | exact Hr].
Qed.

(** Every tag of a well-formed sequence has its record, and the record
    reads the tag. *)
Lemma tag_infos_read (m : buffer) (hdr_data : Z) :
  forall (ts : list tag) (position : Z) (t : tag),
    Forall (fun t => len (snd t) <= 255) ts ->
    region m (hdr_data + position) (encode_tags ts) ->
    In t ts ->
    exists e, In e (tag_infos hdr_data position ts) /\
              tag_type_code m (TagInfo.hdr e) = Done (u8 (fst t)) /\
              tag_data_size m (TagInfo.hdr e) = Done (len (snd t)) /\
              load_bytes m (TagInfo.data e) (len (snd t)) = Done (snd t).
Proof.
  induction ts as [|t0 ts IH]; intros position t Hsz Hreg Hin; [destruct Hin|].
  apply Forall_cons_iff in Hsz. destruct Hsz as [Ht0 Hts].
  rewrite encode_tags_cons in Hreg. cbn [tag_infos].
  destruct Hin as [-> | Hin].
  - destruct (tag_fields_region _ _ _ _ Hreg Ht0) as (Htc & Hds & Hval).
    eexists. split; [now left|]. cbn [TagInfo.hdr TagInfo.data].
    replace (hdr_data + (position + 2)) with (hdr_data + position + 2) by lia.
    now repeat split.
  - destruct (IH (position + 2 + len (snd t0)) t Hts) as (e & He & Hf); [|exact Hin|].
    + apply region_app_r in Hreg. unfold encode_tag in Hreg. rewrite !len_cons in Hreg.
      replace (hdr_data + (position + 2 + len (snd t0)))
        with (hdr_data + position + (1 + (1 + len (snd t0)))) by lia. exact Hreg.
    + exists e. split; [now right | exact Hf].
Qed.

(** The rewritten tags of a well-formed payload are well formed when the
    new value fits the size byte, and hold an offset tag with that value. *)
Lemma wf_tags_set_offset (new_offset : list byte) (ts : list tag) (tail : list byte) :
  len new_offset <= 255 -> wf_tags ts tail ->
  wf_tags (map (set_offset new_offset) ts) tail.
Proof.
  intros Hx (Hne & Hlen & Hsz & Htail). unfold wf_tags. rewrite length_map.
  split; [destruct ts; [congruence | discriminate]|].
  split; [exact Hlen|]. split; [|exact Htail].
  apply Forall_map. revert Hsz. apply Forall_impl. intros t Ht.
  unfold set_offset. destruct (is_offset_tag t); [exact Hx | exact Ht].
Qed.

Lemma set_offset_has_offset_tag (new_offset : list byte) (ts : list tag) :
  length (filter is_offset_tag ts) = 1%nat ->
  exists t, In t (map (set_offset new_offset) ts) /\
            u8 (fst t) = kInsFileSpecificHeaderTagTypeOffset /\ snd t = new_offset.
Proof.
  intros H. destruct (filter is_offset_tag ts) as [|t0 l] eqn:E; [discriminate|].
  assert (Hin : In t0 (filter is_offset_tag ts)) by (rewrite E; now left).
  apply filter_In in Hin. destruct Hin as [Hin Hoff].
  exists (fst t0, new_offset). split; [|split; [|reflexivity]].
  - rewrite <- (set_offset_true new_offset t0 Hoff). now apply in_map.
  - unfold is_offset_tag in Hoff. now apply Z.eqb_eq in Hoff.
Qed.

Lemma rewrite_entries_cases (new_offset : list byte) (es : list entry)
    (tags : list tag) (tail : list byte) (e' : entry) :
  Forall wf_entry es ->
  first_specific es = Some (tags, tail) ->
  In e' (rewrite_entries new_offset es) ->
  e' = SpecificInfo (map (set_offset new_offset) tags) tail \/
  (exists type payload, e' = Opaque type payload /\ 0 <= type < 2 ^ 16 /\ type <> 0x0101).
Proof.
  intros Hwf Hfs Hin. unfold rewrite_entries in Hin. rewrite Hfs in Hin.
  apply in_map_iff in Hin. destruct Hin as (e & <- & Hin).
  pose proof (proj1 (Forall_forall wf_entry es) Hwf _ Hin) as He.
  destruct e as [ts tl | type payload]; cbn [rewrite_entry].
  - now left.
  - right. exists type, payload. split; [reflexivity | exact He].
Qed.

(** A well-formed file rewritten with a value of at most 255 bytes reads
    back with that value in every specific-info entry. *)
Lemma reads_back_rewritten (fuel : nat) (media : list byte) (es : list entry)
    (ver : Z) (new_offset : list byte) :
  Forall wf_entry es ->
  first_specific es <> None ->
  0 <= ver < 2 ^ 32 ->
  len new_offset <= 255 ->
  len (media ++ encode_trailer (rewrite_entries new_offset es) ver) < 2 ^ 31 ->
  (length es <= fuel)%nat ->
  reads_back_offset fuel (media ++ encode_trailer (rewrite_entries new_offset es) ver)
    new_offset.
Proof.
  intros Hwf Hfs Hver Hx Hout Hfuel.
  destruct (first_specific es) as [[tags tail]|] eqn:Efs; [clear Hfs | congruence].
  pose proof (first_specific_In _ _ _ Efs) as Hsrc_in.
  pose proof (proj1 (Forall_forall wf_entry es) Hwf _ Hsrc_in) as [Hwt [Hone _]].
  pose proof (wf_tags_set_offset new_offset tags tail Hx Hwt) as Hwt'.
  unfold encode_trailer in *.
  set (es' := rewrite_entries new_offset es) in *.
  set (body' := encode_entries es') in *.
  set (tl := len body' + kInsFileMinHeaderLength) in *.
  set (trailer := body' ++ minimal_header tl ver) in *.
  set (tags' := map (set_offset new_offset) tags) in *.
  pose proof (len_nonneg media) as Hm0. pose proof (len_nonneg body') as Hb0.
  assert (H72 : kInsFileMinHeaderLength = 72) by reflexivity.
  assert (Htl : len trailer = tl) by (unfold trailer, tl; len_lia).
  assert (Hlenf : len (media ++ trailer) = len media + tl) by len_lia.
  rewrite Hlenf in Hout.
  assert (Hcases : forall e', In e' es' ->
            e' = SpecificInfo tags' tail \/
            (exists type payload, e' = Opaque type payload /\
                                  0 <= type < 2 ^ 16 /\ type <> 0x0101))
    by (intros e'; apply rewrite_entries_cases; assumption).
  set (items := entry_infos (len body') (rev es')).
  assert (Hitems : Forall2 (item_at trailer) items (rev es')).
  { pose proof (entry_infos_at (minimal_header tl ver) (rev es')) as H.
    rewrite rev_involutive in H. exact H. }
  assert (Hfields : forall it e', In e' es' -> item_at trailer it e' ->
            entry_type trailer (EntryInfo.hdr it) = Done (entry_type_of e') /\
            entry_length trailer (EntryInfo.hdr it) = Done (len (entry_payload e')) /\
            region trailer (EntryInfo.trailer_offset_to_data it) (entry_payload e') /\
            len (entry_payload e') < 2 ^ 31).
  { intros it e' Hin Hat. pose proof (item_payload_bound _ _ _ Hat) as Hpl.
    pose proof (len_nonneg (entry_payload e')).
    assert (Hty : 0 <= entry_type_of e' < 2 ^ 16).
    { destruct (Hcases e' Hin) as [-> | (t & p & -> & Ht & _)]; simpl; lia. }
    destruct (item_fields trailer it e' Hat Hty ltac:(lia)) as (A & B & C).
    repeat split; try assumption; lia. }
  exists trailer, (mkTrailerHeader tl ver), (mkFile (media ++ trailer) (len (media ++ trailer))),
         (mkTrailerDecode 0 items tl).
  split; [|split; [|split; [reflexivity|split]]].
  - pose proof (ins_read_allocate_trailer_complete media body' ver) as Hread.
    cbv zeta in Hread. fold tl trailer in Hread. apply Hread; lia.
  - unfold ins_decode_trailer_data.
    pose proof (decode_trailer_loop_complete (mkTrailerHeader tl ver) (rev es')
                  (minimal_header tl ver) fuel vector_init) as H.
    rewrite rev_involutive in H. fold body' trailer items in H.
    rewrite len_minimal_header in H. cbn [trailer_len] in H.
    change kInsFileMinHeaderLength with 72.
    rewrite H; [| symmetry; exact Htl | lia
                | unfold es', rewrite_entries; rewrite length_rev, length_map; exact Hfuel
                | apply entries_count_small; fold body'; lia].
    cbn [trailer_len]. rewrite Z.eqb_refl. reflexivity.
  - (* there is a specific-info entry *)
    assert (Hin' : In (SpecificInfo tags' tail) (rev es')).
    { apply in_rev. rewrite rev_involutive. unfold es', rewrite_entries. rewrite Efs.
      apply (in_map (rewrite_entry new_offset (Some (tags, tail))) es
               (SpecificInfo tags tail) Hsrc_in). }
    destruct (Forall2_In_r _ _ _ _ Hitems Hin') as (it & Hit & Hat).
    exists it. split; [exact Hit|].
    apply in_rev in Hin'.
    now destruct (Hfields it _ Hin' Hat) as (A & _).
  - (* every specific-info entry holds the new value *)
    cbn [td_items]. intros it Hit Hty.
    destruct (Forall2_In_l _ _ _ _ Hitems Hit) as (e' & Hin' & Hat).
    apply in_rev in Hin'.
    destruct (Hfields it e' Hin' Hat) as (A & B & C & D).
    rewrite A in Hty. inv Hty.
    destruct (Hcases e' Hin') as [-> | (t & p & -> & _ & Hne)];
      [| cbn [entry_type_of] in *; congruence].
    cbn [entry_payload] in *.
    exists (len (encode_tags tags' ++ tail)).
    pose proof (len_nonneg (encode_tags tags' ++ tail)).
    rewrite to_int32_small by lia.
    destruct (decode_specific_complete trailer (EntryInfo.trailer_offset_to_data it)
                _ tags' tail vector_init Hwt' C eq_refl) as (reads & Hdec).
    eexists. split; [exact B|]. split; [exact Hdec|]. cbn [sd_ret sd_elements].
    split; [lia|].
    destruct (set_offset_has_offset_tag new_offset tags Hone) as (t & Ht & Hoff & Hval).
    fold tags' in Ht. destruct Hwt' as (_ & _ & Hsz' & _).
    destruct (tag_infos_read trailer (EntryInfo.trailer_offset_to_data it) tags' 0 t Hsz')
      as (e & He & Htc & Hds & Hld); [| exact Ht |].
    + rewrite Z.add_0_r. now apply region_app_l in C.
    + exists e. split; [exact He|]. unfold is_offset_record.
      rewrite Hval in Hds, Hld. rewrite Hoff in Htc. now repeat split.
Qed.

(** C7, the claim as stated, on a value of 256 bytes: the driver accepts
    [one_entry_file] and returns 0, but the size byte of the offset tag it
    writes is [256 mod 256 = 0], and the tag decoder rejects the payload of
    the output when it reaches the fourth record it sees in the value. *)
Lemma long_offset_is_not_read_back :
  run_change_stitching_offset 1 (Some one_entry_file) (Some 1000) long_offset
  = Some (Done (mkRun 0 (Some long_offset_output))) /\
  ~ reads_back_offset 1 long_offset_output long_offset.
Proof.
  split; [vm_compute; reflexivity|].
  intros (m & ti & file & d & Hread & Hdec & _ & _ & Hall).
  vm_compute in Hread. inv Hread.
  vm_compute in Hdec. inv Hdec.
  destruct (Hall (EntryInfo.mk 258 0)) as (length & sd & Hlen & Hsd & Hret & _).
  - now left.
  - vm_compute. reflexivity.
  - vm_compute in Hlen. inv Hlen.
    vm_compute in Hsd. inv Hsd. simpl in Hret. lia.
Qed.

(** C7, amended.  For a well-formed input file (media, then a trailer of
    well-formed entries in which every specific-info payload holds exactly
    one, non-empty, stitching offset tag among its one to four tags) and a
    new value of at most 255 bytes, with sizes below [2^31], room on the
    device and fuel for the loops: the driver returns 0, and decoding the
    specific-info entries of the output finds in each of them an offset tag
    whose declared size is the length of the value and whose bytes are the
    value. *)
Theorem rewritten_offset_reads_back (fuel : nat) (media : list byte) (es : list entry)
    (ver room : Z) (new_offset : list byte) :
  Forall wf_entry es ->
  first_specific es <> None ->
  0 <= ver < 2 ^ 32 ->
  len new_offset <= 255 ->
  len (media ++ encode_trailer es ver) + len new_offset < 2 ^ 31 ->
  len (media ++ encode_trailer (rewrite_entries new_offset es) ver) < 2 ^ 31 ->
  len (media ++ encode_trailer (rewrite_entries new_offset es) ver) <= room ->
  (length es <= fuel)%nat ->
  len media <= Z.of_nat fuel * kCopyBufferSize ->
  run_change_stitching_offset fuel (Some (media ++ encode_trailer es ver)) (Some room)
    new_offset
  = Some (Done (mkRun 0
            (Some (media ++ encode_trailer (rewrite_entries new_offset es) ver)))) /\
  reads_back_offset fuel (media ++ encode_trailer (rewrite_entries new_offset es) ver)
    new_offset.
Proof.
  intros Hwf Hfs Hver Hx Hin Hout Hroom Hfuel Hcopy. split.
  - now apply run_change_stitching_offset_complete.
  - now apply reads_back_rewritten.
Qed.

Lemma rewritten_offset_reads_back_witness :
  reads_back_offset 1
    ([x01; x02; x03]
     ++ encode_trailer
          (rewrite_entries [x35; x36; x37] [SpecificInfo [(x2a, [x31])] []]) 3)
    [x35; x36; x37].
Proof.
  apply (rewritten_offset_reads_back 1 [x01; x02; x03]
           [SpecificInfo [(x2a, [x31])] []] 3 1000 [x35; x36; x37]).
  - constructor; [|constructor]. split.
    + split; [discriminate|]. split; [simpl; lia|].
      split; [|reflexivity]. constructor; [vm_compute; discriminate | constructor].
    + split; [reflexivity | vm_compute; discriminate].
  - discriminate.
  - lia.
  - vm_compute. discriminate.
  - vm_compute. reflexivity.
  - vm_compute. reflexivity.
  - vm_compute. discriminate.
  - simpl. lia.
  - vm_compute. discriminate.
Defined.

(** ** The round trip *)

Lemma set_offset_same (new_offset : list byte) (ts : list tag) :
  Forall (fun t => is_offset_tag t = true -> snd t = new_offset) ts ->
  map (set_offset new_offset) ts = ts.
Proof.
  induction 1 as [|t ts Ht _ IH]; [reflexivity|].
  cbn [map]. rewrite IH. f_equal. unfold set_offset.
  destruct (is_offset_tag t) eqn:E; [|reflexivity].
  rewrite <- (Ht eq_refl). now destruct t.
Qed.

Lemma first_specific_after_opaque (before after : list entry) (tags : list tag)
    (tail : list byte) :
  Forall is_opaque before ->
  first_specific (before ++ SpecificInfo tags tail :: after) = Some (tags, tail).
Proof.
  induction 1 as [|e before He _ IH]; [reflexivity|].
  destruct e; [destruct He | exact IH].
Qed.

Lemma rewrite_entry_opaque (new_offset : list byte) (src : option (list tag * list byte))
    (es : list entry) :
  Forall is_opaque es -> map (rewrite_entry new_offset src) es = es.
Proof.
  induction 1 as [|e es He _ IH]; [reflexivity|].
  cbn [map]. rewrite IH. destruct e; [destruct He | reflexivity].
Qed.

(** X14.  The round trip on a well-formed file with one specific-info entry whose
    single offset tag is not empty: rewriting with the value already present
    gives the input file back, byte for byte. *)
Theorem roundtrip_identity (fuel : nat) (media : list byte) (before after : list entry)
    (tags : list tag) (tail : list byte) (ver room : Z) (new_offset : list byte) :
  let es := before ++ SpecificInfo tags tail :: after in
  let file := media ++ encode_trailer es ver in
  Forall wf_entry es ->
  Forall is_opaque before -> Forall is_opaque after ->
  Forall (fun t => is_offset_tag t = true -> snd t = new_offset) tags ->
  0 <= ver < 2 ^ 32 ->
  len file + len new_offset < 2 ^ 31 ->
  len file <= room ->
  (length es <= fuel)%nat ->
  len media <= Z.of_nat fuel * kCopyBufferSize ->
  run_change_stitching_offset fuel (Some file) (Some room) new_offset
  = Some (Done (mkRun 0 (Some file))).
Proof.
  intros es file Hwf Hb Ha Hsame Hver Hin Hroom Hfuel Hcopy.
  assert (Hid : rewrite_entries new_offset es = es).
  { unfold rewrite_entries, es. rewrite (first_specific_after_opaque _ _ _ _ Hb).
    rewrite map_app. cbn [map rewrite_entry].
    rewrite !rewrite_entry_opaque by assumption.
    now rewrite (set_offset_same _ _ Hsame). }
  pose proof (len_nonneg new_offset) as Hx0.
  pose proof (run_change_stitching_offset_complete fuel media es ver room new_offset) as Hrun.
  rewrite Hid in Hrun. apply Hrun; try assumption.
  - unfold es. rewrite (first_specific_after_opaque _ _ _ _ Hb). discriminate.
  - fold file. lia.
Qed.

(** ** Every successful rewrite: the trailer header that is emitted *)

Lemma load_bytes_Done (m : buffer) (p n : Z) (x : list byte) :
  load_bytes m p n = Done x -> len x = n /\ 0 <= n.
Proof.
  unfold load_bytes. intros H. destruct (n =? 0) eqn:E.
  - inv H. apply Z.eqb_eq in E. subst. split; [reflexivity | lia].
  - destruct ((0 <=? p) && (0 <? n) && (p + n <=? len m)) eqn:B; [|discriminate].
    inv H. rewrite !andb_true_iff in B. destruct B as ((Hp & Hn) & Hb).
    apply Z.leb_le in Hp, Hb. apply Z.ltb_lt in Hn.
    unfold len in *. rewrite length_firstn, length_skipn. lia.
Qed.

(** One [fwrite] on a device with [room >= 0]: the device takes no more
    than its room, and nothing is lost unless the device is full afterwards. *)
Lemma fwrite_forward (o : OFILE) (bs written : list byte) :
  0 <= o_room o ->
  intact o written \/ full o ->
  0 <= o_room (snd (fwrite o bs)) /\
  len (o_data (snd (fwrite o bs))) + o_room (snd (fwrite o bs)) = len (o_data o) + o_room o /\
  (intact (snd (fwrite o bs)) (written ++ bs) \/ full (snd (fwrite o bs))).
Proof.
  intros H Hi. unfold fwrite, intact, full, accepted in *.
  destruct (len (o_buf o) + len bs <=? kStdioBufferSize); cbn [snd o_data o_room o_buf].
  - split; [lia|]. split; [lia|].
    destruct Hi as [Hi | Hi]; [left; now rewrite app_assoc, Hi | now right].
  - pose proof (len_nonneg (o_buf o ++ bs)) as Hp.
    set (pending := o_buf o ++ bs) in *.
    set (n := Z.min (len pending) (Z.max 0 (o_room o))).
    assert (Hn : 0 <= n <= len pending /\ n <= o_room o) by (unfold n; lia).
    assert (Hl : len (firstn (Z.to_nat n) pending) = n).
    { unfold len in *. rewrite length_firstn. lia. }
    split; [lia|]. split; [rewrite len_app, Hl; lia|].
    destruct (Z.eq_dec n (len pending)) as [E | E].
    + destruct Hi as [Hi | Hi]; [left | right; lia].
      rewrite E, to_nat_len, firstn_all, app_nil_r. unfold pending.
      now rewrite app_assoc, Hi.
    + right. unfold n in *. lia.
Qed.

(** The last flush: the device holds everything unless it is full. *)
Lemma fflush_forward (o : OFILE) (written : list byte) :
  0 <= o_room o ->
  intact o written \/ full o ->
  0 <= o_room (snd (fflush o)) /\
  len (o_data (snd (fflush o))) + o_room (snd (fflush o)) = len (o_data o) + o_room o /\
  (o_data (snd (fflush o)) = written \/ full (snd (fflush o))).
Proof.
  intros H Hi. unfold fflush, intact, full, accepted in *. cbn [snd o_data o_room o_buf].
  pose proof (len_nonneg (o_buf o)) as Hp.
  set (n := Z.min (len (o_buf o)) (Z.max 0 (o_room o))).
  assert (Hn : 0 <= n <= len (o_buf o) /\ n <= o_room o) by (unfold n; lia).
  assert (Hl : len (firstn (Z.to_nat n) (o_buf o)) = n).
  { unfold len in *. rewrite length_firstn. lia. }
  split; [lia|]. split; [rewrite len_app, Hl; lia|].
  destruct (Z.eq_dec n (len (o_buf o))) as [E | E].
  - destruct Hi as [Hi | Hi]; [left | right; lia].
    now rewrite E, to_nat_len, firstn_all.
  - right. unfold n in *. lia.
Qed.

Lemma write_zero_padding_forward (n : nat) :
  forall (o : OFILE) (written : list byte),
    0 <= o_room o ->
    intact o written \/ full o ->
    0 <= o_room (write_zero_padding n o) /\
    len (o_data (write_zero_padding n o)) + o_room (write_zero_padding n o)
    = len (o_data o) + o_room o /\
    (intact (write_zero_padding n o) (written ++ repeat x00 n)
     \/ full (write_zero_padding n o)).
Proof.
  induction n as [|n IH]; intros o written H Hi.
  - cbn [write_zero_padding repeat]. rewrite app_nil_r. repeat split; [lia | exact Hi].
  - cbn [write_zero_padding].
    destruct (fwrite_forward o [x00] written H Hi) as (A & B & C).
    destruct (IH (snd (fwrite o [x00])) (written ++ [x00]) A C) as (A' & B' & C').
    split; [exact A'|]. split; [lia|].
    cbn [repeat]. change (x00 :: repeat x00 n) with ([x00] ++ repeat x00 n).
    now rewrite app_assoc.
Qed.

Lemma copy_media_loop_forward (size tl : Z) :
  forall (fuel : nat) (file : FILE) (o : OFILE) (w : Z) (written : list byte)
         (error : bool) (file' : FILE) (o' : OFILE),
    copy_media_loop fuel file o size tl w = Some (error, file', o') ->
    0 <= o_room o ->
    intact o written \/ full o ->
    0 <= o_room o' /\ len (o_data o') + o_room o' = len (o_data o) + o_room o /\
    exists media : list byte, intact o' (written ++ media) \/ full o'.
Proof.
  induction fuel as [|fuel IH]; intros file o w written error file' o' H Hroom Hi.
  - cbn [copy_media_loop] in H. destruct (w <? size - tl); [discriminate|].
    inv H. split; [lia|]. split; [lia|]. exists []. now rewrite app_nil_r.
  - cbn [copy_media_loop] in H.
    destruct (w <? size - tl);
      [|inv H; split; [lia|]; split; [lia|]; exists []; now rewrite app_nil_r].
    destruct (fread file _) as [chunk file1].
    destruct (negb (len chunk =? _));
      [inv H; split; [lia|]; split; [lia|]; exists []; now rewrite app_nil_r|].
    pose proof (fwrite_forward o chunk written Hroom Hi) as (A & B & C).
    destruct (fwrite o chunk) as [n o1] eqn:E. cbn [snd] in A, B, C.
    destruct (negb (n =? _)).
    + inv H. split; [lia|]. split; [lia|]. exists chunk. exact C.
    + destruct (IH _ _ _ _ _ _ _ H A C) as (A' & B' & media & C').
      split; [lia|]. split; [lia|]. exists (chunk ++ media). now rewrite app_assoc.
Qed.

(** The length written in an entry header is the length of the payload
    written before it. *)
Lemma entry_to_write_length (m : buffer) (new_spec : option (buffer * Z))
    (hdr_info : EntryInfo.t) (type length : Z) (payload : list byte) :
  (forall blk n, new_spec = Some (blk, n) -> n < 2 ^ 32) ->
  entry_to_write m new_spec hdr_info = Done (type, length, payload) ->
  length = len payload /\ entry_type m (EntryInfo.hdr hdr_info) = Done type.
Proof.
  intros Hn H. unfold entry_to_write in H. bind_inv H.
  destruct (a =? 257).
  - destruct new_spec as [[blk n]|]; [|discriminate].
    bind_inv H. inv H. apply load_bytes_Done in Ha0. destruct Ha0 as [Hl H0].
    split; [|exact Ha]. rewrite to_uint32_small; [now symmetry|].
    specialize (Hn blk n eq_refl). lia.
  - bind_inv H. bind_inv H. inv H. apply load_bytes_Done in Ha1.
    split; [now symmetry | exact Ha].
Qed.

(** Second pass, any input: what comes out, as long as room is left. *)
Lemma rebuild_trailer_loop_forward (m : buffer) (new_spec : option (buffer * Z)) :
  (forall blk n, new_spec = Some (blk, n) -> n < 2 ^ 32) ->
  forall (items : list EntryInfo.t) (o : OFILE) (total : Z) (written : list byte)
         (o' : OFILE) (total' : Z),
    rebuild_trailer_loop m new_spec items o total = Done (o', total') ->
    0 <= o_room o ->
    intact o written \/ full o ->
    exists ws : list (Z * list byte),
      Forall2 (fun it w => entry_type m (EntryInfo.hdr it) = Done (fst w)) items ws /\
      to_uint32 total' = to_uint32 (total + emitted_total ws) /\
      0 <= o_room o' /\
      len (o_data o') + o_room o' = len (o_data o) + o_room o /\
      (intact o' (written ++ flat_map emit ws) \/ full o').
Proof.
  intros Hn. induction items as [|it items IH]; intros o total written o' total' H Hroom Hi.
  - cbn [rebuild_trailer_loop] in H. inv H. exists []. cbn [emitted_total flat_map].
    rewrite Z.add_0_r, app_nil_r. repeat split; try lia; [constructor | exact Hi].
  - cbn [rebuild_trailer_loop] in H. bind_inv H. destruct a as [[type length] payload].
    destruct (entry_to_write_length _ _ _ _ _ _ Hn Ha) as [-> Hty].
    set (o1 := snd (fwrite o payload)) in *.
    set (hdr := le_encode 2 type ++ le_encode 4 (len payload)) in *.
    set (o2 := snd (fwrite o1 hdr)) in *.
    destruct (fwrite_forward o payload written Hroom Hi) as (A1 & B1 & C1).
    fold o1 in A1, B1, C1.
    destruct (fwrite_forward o1 hdr _ A1 C1) as (A2 & B2 & C2). fold o2 in A2, B2, C2.
    destruct (IH _ _ _ _ _ H A2 C2) as (ws & Hf & Ht & A & B & C).
    exists ((type, payload) :: ws). cbn [emitted_total flat_map fst snd].
    split; [constructor; [exact Hty | exact Hf]|].
    split.
    { rewrite Ht. unfold sizeof_InsFileTrailerEntryHeaderType.
      rewrite to_uint32_int32_add. f_equal. lia. }
    split; [lia|]. split; [lia|].
    unfold emit, hdr in *. cbn [fst snd]. now rewrite <- !app_assoc in *.
Qed.

(** The size [ins_change_stitching_offset] returns is an [int]. *)
Lemma ins_change_stitching_offset_size (m : buffer) (in_trailer_hdr in_trailer_hdr_size : Z)
    (new_offset : list byte) (r : change_result) (blk : buffer) (n : Z) :
  ins_change_stitching_offset m in_trailer_hdr in_trailer_hdr_size new_offset = Done r ->
  cr_out r = Some (blk, n) ->
  n < 2 ^ 31.
Proof.
  unfold ins_change_stitching_offset. intros H Hout. bind_inv H.
  destruct (sd_ret a <? 0); [inv H; discriminate|].
  destruct (sd_tail a) as [[tail_ptr tail_size]|]; [|inv H; discriminate].
  bind_inv H. bind_inv H. bind_inv H. destruct a2 as [b1 p1].
  bind_inv H. destruct a2 as [b2 p2]. bind_inv H. bind_inv H. inv H.
  cbn [cr_out] in Hout. inv Hout. apply to_int32_range.
Qed.

Lemma change_entries_loop_size (m : buffer) (new_offset : list byte) :
  forall (items : list EntryInfo.t) (kept : option (buffer * Z)) (r : Z)
         (new_spec : option (buffer * Z)),
    change_entries_loop m new_offset items kept = Done (r, new_spec) ->
    (forall blk n, kept = Some (blk, n) -> n < 2 ^ 32) ->
    forall blk n, new_spec = Some (blk, n) -> n < 2 ^ 32.
Proof.
  induction items as [|it items IH]; intros kept r new_spec H Hk.
  - cbn [change_entries_loop] in H. inv H. exact Hk.
  - cbn [change_entries_loop] in H. bind_inv H. destruct (a =? 257).
    + bind_inv H. bind_inv H. destruct (cr_ret a1 <? 0).
      * inv H. exact Hk.
      * apply (IH _ _ _ H). intros blk n Hb.
        pose proof (ins_change_stitching_offset_size _ _ _ _ _ _ _ Ha1 Hb). lia.
    + apply (IH _ _ _ H). exact Hk.
Qed.

(** C4, amended.  Every run of the driver that returns 0, on a device that
    did not fill up: the output is some media bytes, then for each entry
    found in the input, last found first, a payload followed by its header
    [{type, payload length}], then 32 zero bytes, the trailer header and the
    signature.  The [trailer_len] of that header is the sum over the entries
    written of [payload length + 6], plus 72, as a 32-bit value (so the sum
    itself whenever it is below [2^32]); its [trailer_version] is the one
    read from the input. *)
Theorem emitted_trailer_len_is_recomputed (fuel : nat) (file_in : list byte) (room : Z)
    (new_offset : list byte) (out : list byte) :
  run_change_stitching_offset fuel (Some file_in) (Some room) new_offset
  = Some (Done (mkRun 0 (Some out))) ->
  len out < room ->
  exists (m : buffer) (ti : InsFileTrailerHeaderType) (file : FILE)
         (d : trailer_decode_result) (media : list byte) (ws : list (Z * list byte))
         (new_trailer_len : Z),
    ins_read_allocate_trailer (mkFile file_in 0) = (0, Some (m, ti), file) /\
    ins_decode_trailer_data fuel m ti vector_init = Some (Done d) /\
    Forall2 (fun it w => entry_type m (EntryInfo.hdr it) = Done (fst w))
      (rev (td_items d)) ws /\
    out = media ++ flat_map emit ws ++ repeat x00 32
          ++ le_encode 4 new_trailer_len ++ le_encode 4 (trailer_version ti)
          ++ kInsFileSignature /\
    new_trailer_len = to_uint32 (emitted_total ws + kInsFileMinHeaderLength) /\
    (emitted_total ws + kInsFileMinHeaderLength < 2 ^ 32 ->
     new_trailer_len = emitted_total ws + kInsFileMinHeaderLength).
Proof.
  unfold run_change_stitching_offset. intros H Hroom.
  destruct (ins_read_allocate_trailer (mkFile file_in 0)) as [[r0 tr] file] eqn:Eread.
  destruct tr as [[m ti]|]; [|discriminate].
  destruct (r0 <? 0) eqn:Er0; [discriminate|].
  destruct (ins_decode_trailer_data fuel m ti vector_init) as [[d|f]|] eqn:Edec;
    try discriminate.
  destruct (td_ret d <? 0); [discriminate|].
  destruct (change_entries_loop m new_offset (td_items d) None) as [[r1 new_spec]|f] eqn:Ech;
    [|discriminate].
  destruct (r1 <? 0); [discriminate|].
  destruct (get_file_size file) as [file_in_size file1].
  destruct (copy_media_loop fuel (fseek_set file1 0) (mkOut [] room []) file_in_size
              (trailer_len ti) 0) as [[[error file2] o1]|] eqn:Ecopy; [|discriminate].
  destruct error; [destruct (free_new_spec new_spec); discriminate|].
  destruct (rebuild_trailer_loop m new_spec (rev (td_items d)) o1 0)
    as [[o2 total]|f] eqn:Ereb; [|discriminate].
  destruct (free_new_spec new_spec); [|discriminate].
  match type of H with
  | Some (Done (mkRun 0 (Some ?b))) = _ => remember b as written eqn:Ewritten
  end.
  injection H as Hout. subst out.
  (* the return value of the reader is 0 *)
  assert (r0 = 0).
  { unfold ins_read_allocate_trailer in Eread.
    destruct (ins_find_and_read_minimal_header (mkFile file_in 0)) as [[r h] f0].
    destruct (r <? 0); [discriminate|].
    destruct (fread _ _) as [td f1]. destruct (_ >? _); [discriminate|]. now inv Eread. }
  subst r0.
  cbn [trailer_len trailer_version] in Ewritten.
  change (Z.to_nat (kInsFileMinHeaderLength - kInsFileSignatureLength
                    - sizeof_InsFileTrailerHeaderType)) with 32%nat in Ewritten.
  set (hdr := le_encode 4 (to_uint32 (to_int32 (total + kInsFileMinHeaderLength)))
              ++ le_encode 4 (trailer_version ti)) in *.
  set (o3 := write_zero_padding 32 o2) in *.
  set (o4 := snd (fwrite o3 hdr)) in *.
  set (o5 := snd (fwrite o4 kInsFileSignature)) in *.
  (* the room is accounted for from the first write to the last flush *)
  pose proof (len_nonneg written) as Hw0.
  assert (I0 : intact (mkOut [] room []) [] \/ full (mkOut [] room [])) by (now left).
  destruct (copy_media_loop_forward _ _ _ _ _ _ _ _ _ _ Ecopy
              ltac:(cbn [o_room]; lia) I0) as (A1 & B1 & media & C1).
  cbn [o_data o_room app] in B1, C1. change (len []) with 0 in B1.
  destruct (rebuild_trailer_loop_forward m new_spec
              (change_entries_loop_size _ _ _ _ _ _ Ech ltac:(discriminate))
              _ _ _ _ _ _ Ereb A1 C1) as (ws & Hws & Htot & A2 & B2 & C2).
  destruct (write_zero_padding_forward 32 o2 _ A2 C2) as (A3 & B3 & C3).
  fold o3 in A3, B3, C3.
  destruct (fwrite_forward o3 hdr _ A3 C3) as (A4 & B4 & C4). fold o4 in A4, B4, C4.
  destruct (fwrite_forward o4 kInsFileSignature _ A4 C4) as (A5 & B5 & C5).
  fold o5 in A5, B5, C5.
  destruct (fflush_forward o5 _ A5 C5) as (A6 & B6 & C6).
  rewrite <- Ewritten in B6, C6.
  destruct C6 as [C6 | C6]; [|unfold full in C6; lia].
  exists m, ti, file, d, media, ws,
         (to_uint32 (to_int32 (total + kInsFileMinHeaderLength))).
  split; [first [exact Eread | reflexivity]|].
  split; [first [exact Edec | reflexivity]|]. split; [exact Hws|].
  assert (Hlen : to_uint32 (to_int32 (total + kInsFileMinHeaderLength))
                 = to_uint32 (emitted_total ws + kInsFileMinHeaderLength)).
  { rewrite to_uint32_to_int32. unfold to_uint32 in *.
    rewrite <- Zplus_mod_idemp_l, Htot, Zplus_mod_idemp_l. f_equal. }
  split; [|split].
  - rewrite C6. unfold hdr. now rewrite <- !app_assoc.
  - exact Hlen.
  - intros Hsmall. rewrite Hlen. apply to_uint32_small. split; [|exact Hsmall].
    assert (0 <= emitted_total ws).
    { clear. induction ws as [|w ws IH]; cbn [emitted_total]; [lia|].
      pose proof (len_nonneg (snd w)). lia. }
    unfold kInsFileMinHeaderLength, kInsFileSignatureLength. lia.
Qed.

Lemma emitted_trailer_len_is_recomputed_witness :
  exists (m : buffer) (ti : InsFileTrailerHeaderType) (file : FILE)
         (d : trailer_decode_result) (media : list byte) (ws : list (Z * list byte))
         (new_trailer_len : Z),
    ins_read_allocate_trailer (mkFile one_entry_file 0) = (0, Some (m, ti), file) /\
    ins_decode_trailer_data 1 m ti vector_init = Some (Done d) /\
    Forall2 (fun it w => entry_type m (EntryInfo.hdr it) = Done (fst w))
      (rev (td_items d)) ws /\
    example_file [x01; x02; x03] (example_entry 0x0101 [x2a; x03; x35; x36; x37])
    = media ++ flat_map emit ws ++ repeat x00 32
      ++ le_encode 4 new_trailer_len ++ le_encode 4 (trailer_version ti)
      ++ kInsFileSignature /\
    new_trailer_len = to_uint32 (emitted_total ws + kInsFileMinHeaderLength) /\
    (emitted_total ws + kInsFileMinHeaderLength < 2 ^ 32 ->
     new_trailer_len = emitted_total ws + kInsFileMinHeaderLength).
Proof.
  apply (emitted_trailer_len_is_recomputed 1 one_entry_file 1000 [x35; x36; x37]).
  - vm_compute. reflexivity.
  - vm_compute. reflexivity.
Defined.

(** ** The two paths of the payload rewrite, in general *)

(** X11.  Replacing: with a single non-empty offset tag the size returned is the
    old size, minus the size of the old value, plus the length of the new. *)
Lemma replacement_size (m : buffer) (in_trailer_hdr in_trailer_hdr_size : Z)
    (ts : list tag) (tail : list byte) (new_offset : list byte) :
  wf_tags ts tail ->
  single_offset_tag ts ->
  region m in_trailer_hdr (encode_tags ts ++ tail) ->
  in_trailer_hdr_size = len (encode_tags ts ++ tail) ->
  in_trailer_hdr_size + len new_offset < 2 ^ 31 ->
  exists blk,
    ins_change_stitching_offset m in_trailer_hdr in_trailer_hdr_size new_offset
    = Done (mkChange 0
              (Some (blk, in_trailer_hdr_size - first_offset_size ts + len new_offset))) /\
    len blk = in_trailer_hdr_size - first_offset_size ts + len new_offset.
Proof.
  intros Hwf Hso Hreg Hsize Hb.
  pose proof (ins_change_stitching_offset_complete m _ _ ts tail new_offset
                Hwf Hso Hreg Hsize Hb) as H.
  pose proof (len_rebuilt_payload new_offset ts tail Hso) as Hl.
  unfold rebuilt_payload in Hl. cbn [fst snd] in Hl. rewrite <- Hsize in Hl.
  rewrite Hl in H. eexists. split; [exact H | exact Hl].
Qed.

(** X12.  Inserting: when no decoded tag is an offset tag, the block is allocated
    with the old size plus the length of the value, the 2 bytes of the new
    tag header are not counted, and one of the last three stores overruns
    the block. *)
Lemma insertion_always_overruns (m : buffer) (in_trailer_hdr in_trailer_hdr_size : Z)
    (ts : list tag) (tail : list byte) (new_offset : list byte) :
  wf_tags ts tail ->
  filter is_offset_tag ts = [] ->
  region m in_trailer_hdr (encode_tags ts ++ tail) ->
  in_trailer_hdr_size = len (encode_tags ts ++ tail) ->
  in_trailer_hdr_size + len new_offset < 2 ^ 31 ->
  exists pos n,
    ins_change_stitching_offset m in_trailer_hdr in_trailer_hdr_size new_offset
    = Fault (BadWrite (in_trailer_hdr_size + len new_offset) pos n).
Proof.
  intros Hwf Hnone Hreg Hsize Hbound.
  pose proof Hwf as (Hne & Hlen & Hsz & Htl).
  unfold ins_change_stitching_offset.
  destruct (decode_specific_complete m in_trailer_hdr in_trailer_hdr_size ts tail
              vector_init Hwf Hreg Hsize) as (reads & Hdec).
  rewrite Hdec. cbn [bind sd_ret sd_tail sd_elements]. unfold vector_init. cbn [app].
  replace (Z.of_nat (length ts) <? 0) with false by (symmetry; apply Z.ltb_ge; lia).
  rewrite (find_stitching_offset_size_complete m in_trailer_hdr ts 0 Hsz)
    by (rewrite Z.add_0_r; exact (region_app_l _ _ _ _ Hreg)).
  cbn [bind]. rewrite (first_offset_size_no_offset_tag ts Hnone).
  pose proof (len_nonneg new_offset) as Hx. pose proof (len_nonneg tail) as Htn.
  pose proof (len_nonneg (encode_tags ts)) as Hen.
  rewrite len_app in Hsize.
  unfold strlen. rewrite (to_int32_small (len new_offset)) by lia.
  rewrite Z.sub_0_r. rewrite to_int32_small by lia.
  unfold malloc_zero.
  replace (in_trailer_hdr_size + len new_offset <? 0) with false
    by (symmetry; apply Z.ltb_ge; lia).
  cbn [bind].
  replace (Z.to_nat (in_trailer_hdr_size + len new_offset))
    with (length (encode_tags ts) + (length tail + length new_offset))%nat
    by (unfold len in *; lia).
  pose proof (rebuild_tags_complete m in_trailer_hdr new_offset ts 0 []
                (length (encode_tags ts) + (length tail + length new_offset)) Hsz) as Hreb.
  rewrite (set_offset_no_offset_tag new_offset ts Hnone) in Hreb.
  cbn [app] in Hreb. change (len []) with 0 in Hreb.
  rewrite Hreb; [| rewrite Z.add_0_r; exact (region_app_l _ _ _ _ Hreg) | lia].
  cbn [bind]. change (0 =? 0) with true. cbv iota.
  replace (length (encode_tags ts) + (length tail + length new_offset)
           - length (encode_tags ts))%nat
    with (length tail + length new_offset)%nat by lia.
  rewrite Z.add_0_l.
  set (hdr := [byte_of kInsFileSpecificHeaderTagTypeOffset; byte_of (len new_offset)]).
  set (enc := encode_tags ts) in *.
  assert (Hsum : len enc + Z.of_nat (length tail + length new_offset)
                 = in_trailer_hdr_size + len new_offset) by (unfold len in *; lia).
  (* the header of the new tag *)
  destruct (le_lt_dec 2 (length tail + length new_offset)) as [Hfit | Hshort].
  2:{ rewrite (store_bytes_overrun enc hdr _ (len enc) eq_refl) by (simpl; lia).
      cbn [bind]. rewrite Hsum. eauto. }
  rewrite (store_bytes_next enc hdr _ (len enc) eq_refl) by (simpl; lia).
  cbn [bind]. rewrite load_string_all. cbn [bind].
  unfold sizeof_InsFileSpecificDataTagHeaderType.
  assert (Hpos : len enc + 2 = len (enc ++ hdr)) by (unfold hdr; len_lia).
  change (length hdr) with 2%nat.
  (* the value *)
  destruct (le_lt_dec (length new_offset) (length tail + length new_offset - 2))
    as [Hfit2 | Hshort2].
  2:{ rewrite (store_bytes_overrun (enc ++ hdr) new_offset _ _ Hpos) by lia.
      cbn [bind]. replace (len (enc ++ hdr) + Z.of_nat (length tail + length new_offset - 2))
        with (in_trailer_hdr_size + len new_offset) by (unfold hdr; len_lia).
      eauto. }
  rewrite (store_bytes_next (enc ++ hdr) new_offset _ _ Hpos) by lia.
  cbn [bind].
  rewrite (load_bytes_region m _ (len tail) tail (region_app_r _ _ _ _ Hreg) eq_refl).
  cbn [bind].
  (* the tail *)
  assert (Hpos2 : len enc + 2 + len new_offset = len ((enc ++ hdr) ++ new_offset))
    by (unfold hdr; len_lia).
  rewrite (store_bytes_overrun _ tail _ _ Hpos2) by lia.
  replace (len ((enc ++ hdr) ++ new_offset)
           + Z.of_nat (length tail + length new_offset - 2 - length new_offset))
    with (in_trailer_hdr_size + len new_offset) by (unfold hdr, len in *; len_lia).
  cbn [bind]. eauto.
Qed.

(** ** The tag names *)

(** A table that holds the [0xFF] sentinel is never left by the loop, and the
    name found is the one of the code or the one of the sentinel. *)
Lemma field_name_loop_sentinel (type_code : Z) :
  forall (table : list (Z * String.string)) (i : Z),
    (exists name, In (kInsFileSpecificHeaderTagTypeUnknown, name) table) ->
    exists name,
      field_name_loop table i type_code = Done name /\
      (In (type_code, name) table \/ In (kInsFileSpecificHeaderTagTypeUnknown, name) table).
Proof.
  induction table as [|[type name] rest IH]; intros i [u Hu]; [destruct Hu|].
  cbn [field_name_loop].
  destruct (type =? kInsFileSpecificHeaderTagTypeUnknown) eqn:E.
  - apply Z.eqb_eq in E. subst type. exists name. split; [reflexivity|]. right. now left.
  - destruct (type =? type_code) eqn:E2.
    + apply Z.eqb_eq in E2. subst type. exists name. split; [reflexivity|]. left. now left.
    + destruct Hu as [Hu|Hu].
      { inversion Hu. subst type. rewrite Z.eqb_refl in E. discriminate. }
      destruct (IH (i + 1) (ex_intro _ u Hu)) as (nm & H1 & H2).
      exists nm. split; [exact H1|]. destruct H2; [left | right]; now right.
Qed.

(** X1.  The name lookup always returns: the scan stops at the sentinel at the
    latest, so no entry beyond the table is read; the name is the one the
    table gives to the code, or "unknown". *)
Theorem field_name_lookup_stays_in_table (type_code : Z) :
  exists name,
    ins_get_header_field_name type_code = Done name /\
    (In (to_uint8 type_code, name) kInsSpecificTagNameInfos \/ name = "unknown"%string).
Proof.
  unfold ins_get_header_field_name.
  destruct (field_name_loop_sentinel (to_uint8 type_code) kInsSpecificTagNameInfos 0)
    as (name & H & Hin).
  { exists "unknown"%string. unfold kInsSpecificTagNameInfos. cbn [In]. tauto. }
  exists name. split; [exact H|].
  destruct Hin as [Hin | Hin]; [now left | right].
  unfold kInsSpecificTagNameInfos in Hin. cbn [In] in Hin.
  repeat (destruct Hin as [Hin | Hin]; [inversion Hin; try reflexivity|]); try discriminate.
  destruct Hin.
Qed.

(** X2.  A code between 0 and 255 gets the name "unknown" exactly when it is
    none of the four codes the table knows. *)
Theorem field_name_unknown_iff (type_code : Z) :
  0 <= type_code < 256 ->
  (ins_get_header_field_name type_code = Done "unknown"%string <->
   type_code <> kInsFileSpecificHeaderTagTypeSerial /\
   type_code <> kInsFileSpecificHeaderTagTypeFirmware /\
   type_code <> kInsFileSpecificHeaderTagTypeModel /\
   type_code <> kInsFileSpecificHeaderTagTypeOffset).
Proof.
  intros Hc. unfold ins_get_header_field_name, to_uint8.
  rewrite Z.mod_small by lia.
  unfold kInsSpecificTagNameInfos, kInsFileSpecificHeaderTagTypeSerial,
    kInsFileSpecificHeaderTagTypeFirmware, kInsFileSpecificHeaderTagTypeModel,
    kInsFileSpecificHeaderTagTypeOffset, kInsFileSpecificHeaderTagTypeUnknown.
  cbn [field_name_loop]. change (10 =? 255) with false. change (26 =? 255) with false.
  change (18 =? 255) with false. change (42 =? 255) with false.
  change (255 =? 255) with true. cbv iota.
  destruct (10 =? type_code) eqn:E1; [apply Z.eqb_eq in E1; split; [discriminate | lia]|].
  destruct (26 =? type_code) eqn:E2; [apply Z.eqb_eq in E2; split; [discriminate | lia]|].
  destruct (18 =? type_code) eqn:E3; [apply Z.eqb_eq in E3; split; [discriminate | lia]|].
  destruct (42 =? type_code) eqn:E4; [apply Z.eqb_eq in E4; split; [discriminate | lia]|].
  apply Z.eqb_neq in E1, E2, E3, E4. split; [lia | reflexivity].
Qed.

Lemma field_name_unknown_iff_witness :
  ins_get_header_field_name 0x48 = Done "unknown"%string.
Proof.
  apply (field_name_unknown_iff 0x48); [lia|].
  unfold kInsFileSpecificHeaderTagTypeSerial, kInsFileSpecificHeaderTagTypeFirmware,
    kInsFileSpecificHeaderTagTypeModel, kInsFileSpecificHeaderTagTypeOffset. lia.
Defined.

(** ** Locating the trailer: every file *)

Lemma bytes_eqb_eq (a b : list byte) : bytes_eqb a b = true -> a = b.
Proof.
  revert b. induction a as [|x a IH]; destruct b as [|y b]; cbn [bytes_eqb];
    try discriminate; [reflexivity|].
  intros H. apply andb_prop in H. destruct H as [H1 H2].
  apply Byte.byte_dec_bl in H1. subst y. f_equal. now apply IH.
Qed.

(** The last [k] bytes of a file, read from where they start. *)
Lemma fread_last (data : list byte) (k : Z) :
  0 <= k <= len data ->
  fread (mkFile data (len data - k)) k
  = (skipn (Z.to_nat (len data - k)) data, mkFile data (len data)).
Proof.
  intros Hk. unfold fread. cbn [f_pos f_data].
  assert (Hl : length (skipn (Z.to_nat (len data - k)) data) = Z.to_nat k).
  { rewrite length_skipn. unfold len in *. lia. }
  rewrite firstn_all2 by lia.
  f_equal. f_equal. unfold len in *. rewrite Hl. lia.
Qed.

(** The two ways [ins_find_and_read_minimal_header] ends. *)
Lemma find_minimal_header_cases (data : list byte) (p : Z) :
  len data < 2 ^ 63 ->
  (ends_with_signature data /\
   ins_find_and_read_minimal_header (mkFile data p)
   = (0, skipn (Z.to_nat (len data - 72)) data, mkFile data (len data)))
  \/
  (~ ends_with_signature data /\
   exists file', ins_find_and_read_minimal_header (mkFile data p) = (-1, [], file')).
Proof.
  intros Hlen. pose proof (len_nonneg data) as H0.
  unfold ins_find_and_read_minimal_header, ends_with_signature.
  rewrite get_file_size_ok by lia.
  change kInsFileMinHeaderLength with 72. change kInsFileSignatureLength with 32.
  destruct (len data <? 72) eqn:E.
  { apply Z.ltb_lt in E. right. split; [lia | eauto]. }
  apply Z.ltb_ge in E.
  rewrite fseek_end_ok by lia.
  rewrite Z.add_opp_r.
  rewrite fread_last by lia.
  assert (Hs : len (skipn (Z.to_nat (len data - 32)) data) = 32).
  { unfold len in *. rewrite length_skipn. lia. }
  rewrite Hs. change (32 =? 32) with true. cbn [negb].
  destruct (bytes_eqb (skipn (Z.to_nat (len data - 32)) data) kInsFileSignature) eqn:Es;
    cbn [negb].
  - apply bytes_eqb_eq in Es. left.
    rewrite fseek_end_ok by lia.
    rewrite Z.add_opp_r.
    rewrite fread_last by lia.
    assert (Hh : len (skipn (Z.to_nat (len data - 72)) data) = 72).
    { unfold len in *. rewrite length_skipn. lia. }
    rewrite Hh. change (72 =? 72) with true. cbn [negb].
    split; [split; [lia | exact Es] | reflexivity].
  - right. split; [|eauto]. intros [_ Hsig]. rewrite Hsig, bytes_eqb_refl in Es. discriminate.
Qed.

(** X3.  The minimal header is found exactly in the files of at least 72 bytes
    that end with the 32 signature bytes; it is then the last 72 bytes of the
    file.  Every other file gives -1. *)
Theorem minimal_header_found_iff (data : list byte) (p : Z)
    (r : Z) (out_minimal_header : list byte) (file' : FILE) :
  len data < 2 ^ 63 ->
  ins_find_and_read_minimal_header (mkFile data p) = (r, out_minimal_header, file') ->
  (r = 0 \/ r = -1) /\
  (r = 0 <-> ends_with_signature data) /\
  (r = 0 -> out_minimal_header = skipn (Z.to_nat (len data - 72)) data).
Proof.
  intros Hlen H.
  destruct (find_minimal_header_cases data p Hlen) as [(Hsig & E) | (Hno & f & E)];
    rewrite E in H; inversion H; subst.
  - split; [now left|]. split; [tauto | reflexivity].
  - split; [now right|]. split; [|discriminate]. split; [discriminate | tauto].
Qed.

Lemma minimal_header_found_iff_witness : ends_with_signature one_entry_file.
Proof.
  apply (minimal_header_found_iff one_entry_file 0 0
           (skipn (Z.to_nat (len one_entry_file - 72)) one_entry_file)
           (mkFile one_entry_file (len one_entry_file))).
  - vm_compute. reflexivity.
  - vm_compute. reflexivity.
  - reflexivity.
Defined.

(** The offset handed to [fseek]: [-((int32_t) trailer_len)]. *)
Lemma trailer_seek_offset (tl : Z) :
  0 <= tl < 2 ^ 32 ->
  to_int32 (- to_int32 tl) = if tl <=? 2 ^ 31 then - tl else 2 ^ 32 - tl.
Proof.
  intros H. destruct (tl <=? 2 ^ 31) eqn:E.
  - apply Z.leb_le in E. destruct (Z.eq_dec tl (2 ^ 31)) as [-> | Hne]; [reflexivity|].
    rewrite (to_int32_small tl) by lia. apply to_int32_small. lia.
  - apply Z.leb_gt in E.
    assert (Ht : to_int32 tl = tl - 2 ^ 32).
    { unfold to_int32. replace (tl + 2 ^ 31) with (tl - 2 ^ 31 + 1 * 2 ^ 32) by lia.
      rewrite Z.mod_add by lia. rewrite Z.mod_small by lia. lia. }
    rewrite Ht. rewrite to_int32_small by lia. lia.
Qed.

(** A read at or past the end of the file returns nothing. *)
Lemma fread_past_end (data : list byte) (pos n : Z) :
  len data <= pos -> fread (mkFile data pos) n = ([], mkFile data pos).
Proof.
  intros H. unfold fread. cbn [f_pos f_data].
  rewrite skipn_all2 by (unfold len in H; lia).
  rewrite firstn_nil. change (len []) with 0. now rewrite Z.add_0_r.
Qed.

Lemma declared_trailer_len_range (data : list byte) :
  0 <= declared_trailer_len data < 2 ^ 32.
Proof.
  unfold declared_trailer_len.
  pose proof (le_decode_range (firstn 4 (skipn (Z.to_nat (len data - 40)) data))) as H.
  pose proof (firstn_le_length 4 (skipn (Z.to_nat (len data - 40)) data)) as Hl.
  assert (256 ^ Z.of_nat (length (firstn 4 (skipn (Z.to_nat (len data - 40)) data)))
          <= 256 ^ 4) by (apply Z.pow_le_mono_r; lia).
  change (256 ^ 4) with (2 ^ 32) in *. lia.
Qed.

(** The three ways [ins_read_allocate_trailer] ends. *)
Lemma read_allocate_trailer_cases (data : list byte) (p : Z) :
  len data < 2 ^ 63 ->
  let tl := declared_trailer_len data in
  (~ ends_with_signature data /\
   exists file', ins_read_allocate_trailer (mkFile data p) = (-1, None, file'))
  \/
  (ends_with_signature data /\ (len data < tl \/ 2 ^ 31 < tl) /\
   exists file', ins_read_allocate_trailer (mkFile data p) = (-2, None, file'))
  \/
  (ends_with_signature data /\ tl <= len data /\ tl <= 2 ^ 31 /\
   ins_read_allocate_trailer (mkFile data p)
   = (0, Some (skipn (Z.to_nat (len data - tl)) data,
               mkTrailerHeader tl (declared_trailer_version data)),
      mkFile data (len data))).
Proof.
  intros Hlen tl. pose proof (len_nonneg data) as H0.
  pose proof (declared_trailer_len_range data) as Htl. fold tl in Htl.
  unfold ins_read_allocate_trailer.
  destruct (find_minimal_header_cases data p Hlen) as [(Hsig & E) | (Hno & f & E)];
    rewrite E.
  2:{ left. split; [exact Hno|]. change (-1 <? 0) with true. cbv iota. eauto. }
  right. change (0 <? 0) with false. cbv iota.
  assert (H72 : 72 <= len data) by (destruct Hsig as [H _]; exact H).
  change (Z.to_nat (kInsFileMinHeaderLength - kInsFileSignatureLength
                    - sizeof_InsFileTrailerHeaderType)) with 32%nat.
  rewrite !skipn_skipn.
  replace (32 + Z.to_nat (len data - 72))%nat with (Z.to_nat (len data - 40)) by lia.
  replace (4 + Z.to_nat (len data - 40))%nat with (Z.to_nat (len data - 36)) by lia.
  fold (declared_trailer_len data). fold (declared_trailer_version data). fold tl.
  cbn [trailer_len]. rewrite trailer_seek_offset by exact Htl.
  destruct (tl <=? 2 ^ 31) eqn:E31.
  - apply Z.leb_le in E31. destruct (Z_le_gt_dec tl (len data)) as [Hfit | Hbig].
    + right. rewrite fseek_end_ok by lia. rewrite Z.add_opp_r.
      rewrite fread_last by lia.
      assert (Hb : len (skipn (Z.to_nat (len data - tl)) data) = tl).
      { unfold len in *. rewrite length_skipn. lia. }
      rewrite Hb. replace (tl >? tl) with false by (symmetry; apply gtb_false; lia).
      repeat (split; [assumption|]). reflexivity.
    + left. split; [exact Hsig|]. split; [lia|].
      unfold fseek_end, fseek_set. cbn [f_data].
      replace (len data + - tl <? 0) with true by (symmetry; apply Z.ltb_lt; lia).
      rewrite fread_past_end by lia. change (len []) with 0.
      replace (tl >? 0) with true by (symmetry; apply Z.gtb_lt; lia).
      eauto.
  - apply Z.leb_gt in E31. left. split; [exact Hsig|]. split; [lia|].
    rewrite fseek_end_ok by lia.
    rewrite fread_past_end by lia. change (len []) with 0.
    replace (tl >? 0) with true by (symmetry; apply Z.gtb_lt; lia).
    eauto.
Qed.

(** X4.  Whenever the trailer is read with success, the file ends with the
    signature, the header returned holds the two fields declared 40 and 36
    bytes before the end, the declared length is at most the file length, and
    the buffer is exactly the last [trailer_len] bytes of the file. *)
Theorem read_trailer_success_is_the_file_tail (data : list byte) (p : Z)
    (buf : buffer) (ti : InsFileTrailerHeaderType) (file' : FILE) :
  len data < 2 ^ 63 ->
  ins_read_allocate_trailer (mkFile data p) = (0, Some (buf, ti), file') ->
  ends_with_signature data /\
  trailer_len ti = declared_trailer_len data /\
  trailer_version ti = declared_trailer_version data /\
  trailer_len ti <= len data /\
  len buf = trailer_len ti /\
  buf = skipn (Z.to_nat (len data - trailer_len ti)) data.
Proof.
  intros Hlen H.
  destruct (read_allocate_trailer_cases data p Hlen)
    as [(_ & f & E) | [(_ & _ & f & E) | (Hsig & Hfit & _ & E)]];
    rewrite E in H; inversion H; subst.
  cbn [trailer_len trailer_version]. pose proof (declared_trailer_len_range data).
  repeat (split; [first [assumption | reflexivity]|]).
  split; [|reflexivity].
  unfold len in *. rewrite length_skipn. lia.
Qed.

Lemma read_trailer_success_is_the_file_tail_witness :
  ends_with_signature one_entry_file /\ declared_trailer_len one_entry_file = 81.
Proof.
  destruct (read_trailer_success_is_the_file_tail one_entry_file 0
              (skipn 3 one_entry_file) (mkTrailerHeader 81 3)
              (mkFile one_entry_file 84)) as (Hs & Hl & _).
  - vm_compute. reflexivity.
  - vm_compute. reflexivity.
  - split; [exact Hs | symmetry; exact Hl].
Defined.

(** X5.  A file that ends with the signature but declares a trailer longer than
    the file itself, or longer than [2^31] bytes, is refused with -2 and no
    buffer is returned. *)
Theorem oversized_trailer_len_is_refused (data : list byte) (p : Z) :
  len data < 2 ^ 63 ->
  ends_with_signature data ->
  len data < declared_trailer_len data \/ 2 ^ 31 < declared_trailer_len data ->
  exists file', ins_read_allocate_trailer (mkFile data p) = (-2, None, file').
Proof.
  intros Hlen Hsig Hbig.
  destruct (read_allocate_trailer_cases data p Hlen)
    as [(Hno & _) | [(_ & _ & f & E) | (_ & Hfit & H31 & _)]].
  - contradiction.
  - eauto.
  - lia.
Qed.

Lemma oversized_trailer_len_is_refused_witness :
  exists file', ins_read_allocate_trailer (mkFile (minimal_header 100 3) 0) = (-2, None, file').
Proof.
  apply (oversized_trailer_len_is_refused (minimal_header 100 3) 0).
  - vm_compute. reflexivity.
  - split; [vm_compute; discriminate | vm_compute; reflexivity].
  - left. vm_compute. reflexivity.
Defined.

(** ** The trailer walk on the trailers the format describes *)

(** The walk over a well-formed trailer: the records, and where they point. *)
Lemma trailer_walk_complete (fuel : nat) (es : list entry) (ver : Z) :
  len (encode_trailer es ver) < 2 ^ 32 ->
  (length es <= fuel)%nat ->
  let m := encode_trailer es ver in
  let items := entry_infos (len (encode_entries es)) (rev es) in
  ins_decode_trailer_data fuel m (mkTrailerHeader (len m) ver) vector_init
  = Some (Done (mkTrailerDecode 0 items (len m))) /\
  Forall2 (item_at m) items (rev es).
Proof.
  intros Hlen Hfuel m items. unfold m, encode_trailer in *.
  set (body := encode_entries es) in *.
  set (tl := len body + kInsFileMinHeaderLength) in *.
  pose proof (len_nonneg body) as Hb0.
  assert (H72 : kInsFileMinHeaderLength = 72) by reflexivity.
  assert (Htl : len (body ++ minimal_header tl ver) = tl) by (unfold tl; len_lia).
  rewrite Htl in *. split.
  - unfold ins_decode_trailer_data.
    pose proof (decode_trailer_loop_complete (mkTrailerHeader tl ver) (rev es)
                  (minimal_header tl ver) fuel vector_init) as H.
    rewrite rev_involutive in H. fold body in H.
    rewrite len_minimal_header in H. cbn [trailer_len] in H.
    change kInsFileMinHeaderLength with 72 at 1.
    rewrite H; [| symmetry; exact Htl | lia | rewrite length_rev; exact Hfuel
                | apply entries_count_small; fold body; lia].
    cbn [trailer_len]. rewrite Z.eqb_refl. reflexivity.
  - pose proof (entry_infos_at (minimal_header tl ver) (rev es)) as H.
    rewrite rev_involutive in H. exact H.
Qed.

Lemma read_entries_at (m : buffer) :
  forall (items : list EntryInfo.t) (es : list entry),
    Forall2 (item_at m) items es ->
    Forall (fun e => 0 <= entry_type_of e < 2 ^ 16) es ->
    len m < 2 ^ 32 ->
    read_entries m items = Done (map entry_pair es).
Proof.
  intros items es H. induction H as [|hdr_info e items es Hat _ IH]; intros Hty Hm.
  - reflexivity.
  - inversion Hty as [|? ? Hte Hty']. subst.
    cbn [read_entries map]. unfold read_entry.
    assert (Hp : len (entry_payload e) < 2 ^ 32).
    { destruct Hat as [Hr _]. apply region_bounds in Hr.
      rewrite len_encode_entry in Hr. pose proof (len_nonneg (entry_payload e)).
      lia. }
    destruct (item_fields m hdr_info e Hat Hte Hp) as (Ht & Hl & Hr).
    rewrite Ht, Hl. cbn [bind].
    rewrite (load_bytes_region _ _ _ _ Hr eq_refl). cbn [bind].
    rewrite (IH Hty' Hm). reflexivity.
Qed.

(** X6.  Decoding the encoding of a trailer: the walk returns 0, lands on
    [trailer_len], and its records, read back through the entry headers they
    point to, are the entries of the trailer from the last one in the file to
    the first, each with its type and its payload. *)
Theorem trailer_walk_finds_every_entry (fuel : nat) (es : list entry) (ver : Z) :
  len (encode_trailer es ver) < 2 ^ 32 ->
  (length es <= fuel)%nat ->
  Forall (fun e => 0 <= entry_type_of e < 2 ^ 16) es ->
  exists items,
    ins_decode_trailer_data fuel (encode_trailer es ver)
      (mkTrailerHeader (len (encode_trailer es ver)) ver) vector_init
    = Some (Done (mkTrailerDecode 0 items (len (encode_trailer es ver)))) /\
    read_entries (encode_trailer es ver) items = Done (map entry_pair (rev es)).
Proof.
  intros Hlen Hfuel Hty.
  destruct (trailer_walk_complete fuel es ver Hlen Hfuel) as [Hw Hat].
  eexists. split; [exact Hw|].
  apply read_entries_at; [exact Hat | now apply Forall_rev | exact Hlen].
Qed.

Lemma trailer_walk_finds_every_entry_witness :
  exists items,
    ins_decode_trailer_data 2
      (encode_trailer [Opaque 0x0300 [x07; x08]; SpecificInfo [(x2a, [x31])] []] 3)
      (mkTrailerHeader 89 3) vector_init
    = Some (Done (mkTrailerDecode 0 items 89)) /\
    read_entries (encode_trailer [Opaque 0x0300 [x07; x08]; SpecificInfo [(x2a, [x31])] []] 3)
      items
    = Done [(0x0101, [x2a; x01; x31]); (0x0300, [x07; x08])].
Proof.
  apply (trailer_walk_finds_every_entry 2
           [Opaque 0x0300 [x07; x08]; SpecificInfo [(x2a, [x31])] []] 3).
  - vm_compute. reflexivity.
  - simpl. lia.
  - repeat constructor; simpl; lia.
Defined.

(** X7.  An entry header that declares [2^32 - 6] bytes, met first, keeps the
    walk from ever returning: the 32-bit cursor comes back to 72 after every
    turn and every turn pushes one more record, so whatever the fuel the
    walk is still running or has faulted, and once the vector holds [2^30]
    records the next push faults on the capacity it asks for. *)
Theorem trailer_walk_never_returns_on_wrapping_length (m : buffer)
    (ti : InsFileTrailerHeaderType) (items : vector_t EntryInfo.t) :
  kInsFileMinHeaderLength < trailer_len ti ->
  entry_length m (trailer_len ti - kInsFileMinHeaderLength
                  - sizeof_InsFileTrailerEntryHeaderType) = Done (2 ^ 32 - 6) ->
  vector_size items <= 2 ^ 30 ->
  forall fuel : nat,
    (ins_decode_trailer_data fuel m ti items = None \/
     ins_decode_trailer_data fuel m ti items = Some (Fault (BadAlloc (2 ^ 31)))) /\
    (2 ^ 30 < vector_size items + Z.of_nat fuel ->
     ins_decode_trailer_data fuel m ti items = Some (Fault (BadAlloc (2 ^ 31)))).
Proof.
  intros Hlt Hlen Hsize fuel. unfold ins_decode_trailer_data.
  enough (H : decode_trailer_loop fuel m ti kInsFileMinHeaderLength items
              = if vector_size items + Z.of_nat fuel <=? 2 ^ 30 then None
                else Some (Fault (BadAlloc (2 ^ 31)))).
  { rewrite H. destruct (vector_size items + Z.of_nat fuel <=? 2 ^ 30) eqn:E.
    - split; [now left|]. apply Z.leb_le in E. intros G. exfalso. lia.
    - split; [now right | reflexivity]. }
  revert items Hsize. induction fuel as [|fuel IH]; intros items Hsize.
  - cbn [decode_trailer_loop].
    replace (kInsFileMinHeaderLength <? trailer_len ti) with true
      by (symmetry; apply Z.ltb_lt; exact Hlt).
    now replace (vector_size items + Z.of_nat 0 <=? 2 ^ 30) with true
      by (symmetry; apply Z.leb_le; lia).
  - cbn [decode_trailer_loop].
    replace (kInsFileMinHeaderLength <? trailer_len ti) with true
      by (symmetry; apply Z.ltb_lt; exact Hlt).
    rewrite Hlen. unfold vector_push_checked.
    destruct (vector_size items <? 2 ^ 30) eqn:E.
    + apply Z.ltb_lt in E.
      change (to_uint32 (kInsFileMinHeaderLength
                         + (2 ^ 32 - 6 + sizeof_InsFileTrailerEntryHeaderType)))
        with kInsFileMinHeaderLength.
      assert (Hs : forall x, vector_size (vector_push items x) = vector_size items + 1).
      { intros x. unfold vector_push, vector_size. rewrite length_app. cbn [length]. lia. }
      rewrite IH by (rewrite Hs; lia). rewrite Hs.
      replace (vector_size items + 1 + Z.of_nat fuel)
        with (vector_size items + Z.of_nat (S fuel)) by lia.
      reflexivity.
    + apply Z.ltb_ge in E.
      now replace (vector_size items + Z.of_nat (S fuel) <=? 2 ^ 30) with false
        by (symmetry; apply Z.leb_gt; lia).
Qed.

Lemma trailer_walk_never_returns_on_wrapping_length_witness :
  (ins_decode_trailer_data 1000 looping_trailer (mkTrailerHeader 78 3) vector_init = None \/
   ins_decode_trailer_data 1000 looping_trailer (mkTrailerHeader 78 3) vector_init
   = Some (Fault (BadAlloc (2 ^ 31)))) /\
  (2 ^ 30 < vector_size (@vector_init EntryInfo.t) + Z.of_nat 1000 ->
   ins_decode_trailer_data 1000 looping_trailer (mkTrailerHeader 78 3) vector_init
   = Some (Fault (BadAlloc (2 ^ 31)))).
Proof.
  apply (trailer_walk_never_returns_on_wrapping_length looping_trailer
           (mkTrailerHeader 78 3) vector_init).
  - vm_compute. reflexivity.
  - vm_compute. reflexivity.
  - vm_compute. discriminate.
Defined.

(** ** The tag decoder and the rewrite, composed *)

Lemma decode_specific_at_most_4_witness :
  exists new, [TagInfo.mk 9 9 11; TagInfo.mk 0 0 2] = [TagInfo.mk 9 9 11] ++ new /\
              (length new <= 4)%nat.
Proof.
  apply (decode_specific_at_most_4 [x0a; x00] 0 2 [TagInfo.mk 9 9 11]
           (mkSpecDecode 1 [TagInfo.mk 9 9 11; TagInfo.mk 0 0 2] (Some (2, 0)) [1])).
  reflexivity.
Defined.

Lemma read_tags_at (m : buffer) (hdr_data : Z) :
  forall (ts : list tag) (position : Z),
    Forall (fun t => len (snd t) <= 255) ts ->
    region m (hdr_data + position) (encode_tags ts) ->
    read_tags m (tag_infos hdr_data position ts) = Done ts.
Proof.
  induction ts as [|t ts IH]; intros position Hsz Hr; [reflexivity|].
  inversion Hsz as [|? ? Ht Hsz']. subst.
  cbn [tag_infos read_tags]. unfold read_tag. cbn [TagInfo.hdr TagInfo.data].
  rewrite encode_tags_cons in Hr.
  destruct (tag_fields_region m (hdr_data + position) t (encode_tags ts) Hr Ht)
    as (H1 & H2 & H3).
  rewrite H1, H2. cbn [bind].
  replace (hdr_data + (position + 2)) with (hdr_data + position + 2) by lia.
  rewrite H3. cbn [bind].
  rewrite IH; [| exact Hsz' |].
  - cbn [bind]. rewrite byte_of_u8. now destruct t.
  - apply region_app_r in Hr. unfold encode_tag in Hr. rewrite !len_cons in Hr.
    replace (hdr_data + (position + 2 + len (snd t)))
      with (hdr_data + position + (1 + (1 + len (snd t)))) by lia.
    exact Hr.
Qed.

(** X9.  Decoding the encoding of a payload: for one to four tags of at most 255
    bytes each (and a tail only after four tags), the decoder succeeds,
    returns the number of tags, appends one record per tag to the vector it
    was given, and these records, read back through their pointers, are the
    tags; the tail it reports is the tail. *)
Theorem tag_decoder_reads_back_the_tags (m : buffer) (hdr_data : Z)
    (ts : list tag) (tail : list byte) (v : vector_t TagInfo.t) :
  wf_tags ts tail ->
  region m hdr_data (encode_tags ts ++ tail) ->
  exists (d : spec_decode_result) (new : list TagInfo.t) (tail_ptr : Z),
    ins_decode_trailer_specific_header m hdr_data (len (encode_tags ts ++ tail)) v = Done d /\
    sd_ret d = Z.of_nat (length ts) /\
    sd_elements d = v ++ new /\
    read_tags m new = Done ts /\
    sd_tail d = Some (tail_ptr, len tail) /\
    load_bytes m tail_ptr (len tail) = Done tail.
Proof.
  intros Hwf Hr.
  destruct (decode_specific_complete m hdr_data _ ts tail v Hwf Hr eq_refl) as (reads & Hd).
  destruct Hwf as (_ & _ & Hsz & _).
  eexists _, _, _. split; [exact Hd|]. cbn [sd_ret sd_elements sd_tail].
  split; [reflexivity|]. split; [reflexivity|].
  split; [|split; [reflexivity|]].
  - apply read_tags_at; [exact Hsz|]. rewrite Z.add_0_r. now apply region_app_l in Hr.
  - apply region_app_r in Hr. now apply load_bytes_region.
Qed.

Lemma sample_tags_wf : wf_tags sample_tags [] /\ single_offset_tag sample_tags.
Proof.
  split.
  - split; [discriminate|]. split; [simpl; lia|].
    split; [|reflexivity]. constructor; [vm_compute; discriminate | constructor].
  - split; [reflexivity | vm_compute; discriminate].
Qed.

Lemma tag_decoder_reads_back_the_tags_witness :
  exists (d : spec_decode_result) (new : list TagInfo.t) (tail_ptr : Z),
    ins_decode_trailer_specific_header [x2a; x01; x31] 0 3 [] = Done d /\
    sd_ret d = 1 /\
    sd_elements d = [] ++ new /\
    read_tags [x2a; x01; x31] new = Done sample_tags /\
    sd_tail d = Some (tail_ptr, 0) /\
    load_bytes [x2a; x01; x31] tail_ptr 0 = Done [].
Proof.
  apply (tag_decoder_reads_back_the_tags [x2a; x01; x31] 0 sample_tags [] []).
  - apply sample_tags_wf.
  - exists [], []. split; reflexivity.
Defined.

(** X10.  The rewrite followed by the decoder: for a payload with one to four tags
    among which exactly one, non-empty, offset tag, and a new value of at
    most 255 bytes, the block returned decodes to the same number of tags, in
    the same order, the offset tag holding the new value and every other tag
    its old value, followed by the same tail. *)
Theorem rebuilt_payload_decodes_to_updated_tags (m : buffer) (in_trailer_hdr : Z)
    (ts : list tag) (tail : list byte) (new_offset : list byte) :
  wf_tags ts tail ->
  single_offset_tag ts ->
  region m in_trailer_hdr (encode_tags ts ++ tail) ->
  len (encode_tags ts ++ tail) + len new_offset < 2 ^ 31 ->
  len new_offset <= 255 ->
  exists (blk : buffer) (d : spec_decode_result) (tail_ptr : Z),
    ins_change_stitching_offset m in_trailer_hdr (len (encode_tags ts ++ tail)) new_offset
    = Done (mkChange 0 (Some (blk, len blk))) /\
    ins_decode_trailer_specific_header blk 0 (len blk) vector_init = Done d /\
    sd_ret d = Z.of_nat (length ts) /\
    read_tags blk (sd_elements d) = Done (map (set_offset new_offset) ts) /\
    sd_tail d = Some (tail_ptr, len tail) /\
    load_bytes blk tail_ptr (len tail) = Done tail.
Proof.
  intros Hwf Hone Hr Hsize Hx.
  pose proof (ins_change_stitching_offset_complete m in_trailer_hdr _ ts tail new_offset
                Hwf Hone Hr eq_refl Hsize) as Hc.
  set (ts' := map (set_offset new_offset) ts) in *.
  assert (Hwf' : wf_tags ts' tail) by (now apply wf_tags_set_offset).
  destruct (decode_specific_complete (encode_tags ts' ++ tail) 0 _ ts' tail vector_init
              Hwf' (region_self _) eq_refl) as (reads & Hd).
  destruct Hwf' as (_ & _ & Hsz & _).
  eexists _, _, _. split; [exact Hc|]. split; [exact Hd|].
  cbn [sd_ret sd_elements sd_tail]. unfold vector_init. cbn [app].
  split; [unfold ts'; now rewrite length_map|].
  split; [|split; [reflexivity|]].
  - apply read_tags_at; [exact Hsz|]. apply (region_here (encode_tags ts') tail).
  - apply load_bytes_region; [|reflexivity].
    apply (region_app_r _ 0 (encode_tags ts') tail), region_self.
Qed.

Lemma rebuilt_payload_decodes_to_updated_tags_witness :
  exists (blk : buffer) (d : spec_decode_result) (tail_ptr : Z),
    ins_change_stitching_offset [x2a; x01; x31] 0 3 [x35; x36]
    = Done (mkChange 0 (Some (blk, len blk))) /\
    ins_decode_trailer_specific_header blk 0 (len blk) vector_init = Done d /\
    sd_ret d = 1 /\
    read_tags blk (sd_elements d) = Done [(x2a, [x35; x36])] /\
    sd_tail d = Some (tail_ptr, 0) /\
    load_bytes blk tail_ptr 0 = Done [].
Proof.
  apply (rebuilt_payload_decodes_to_updated_tags [x2a; x01; x31] 0 sample_tags []
           [x35; x36]).
  - apply sample_tags_wf.
  - apply sample_tags_wf.
  - exists [], []. split; reflexivity.
  - vm_compute. reflexivity.
  - vm_compute. discriminate.
Defined.

Lemma replacement_size_witness :
  exists blk,
    ins_change_stitching_offset [x2a; x01; x31] 0 3 [x35; x36]
    = Done (mkChange 0 (Some (blk, 3 - first_offset_size sample_tags + 2))) /\
    len blk = 3 - first_offset_size sample_tags + 2.
Proof.
  apply (replacement_size [x2a; x01; x31] 0 3 sample_tags [] [x35; x36]).
  - apply sample_tags_wf.
  - apply sample_tags_wf.
  - exists [], []. split; reflexivity.
  - reflexivity.
  - vm_compute. reflexivity.
Defined.

Lemma serial_only_tags_wf : wf_tags serial_only_tags [].
Proof.
  split; [discriminate|]. split; [simpl; lia|].
  split; [|reflexivity]. constructor; [vm_compute; discriminate | constructor].
Qed.

Lemma insertion_always_overruns_witness :
  exists pos n,
    ins_change_stitching_offset [x0a; x01; x41] 0 3 [x37] = Fault (BadWrite (3 + 1) pos n).
Proof.
  apply (insertion_always_overruns [x0a; x01; x41] 0 3 serial_only_tags [] [x37]).
  - apply serial_only_tags_wf.
  - reflexivity.
  - exists [], []. split; reflexivity.
  - reflexivity.
  - vm_compute. reflexivity.
Defined.

(** ** The driver: what it does to well-formed files *)

Lemma sample_entries_wf : Forall wf_entry sample_entries.
Proof.
  constructor; [simpl; lia|]. constructor; [|constructor]. exact sample_tags_wf.
Qed.

Lemma opaque_entries_wf : Forall wf_entry opaque_entries /\ Forall is_opaque opaque_entries.
Proof.
  split; repeat constructor; simpl; lia.
Qed.

(** The three stages every mode starts with, on a well-formed file. *)
Lemma well_formed_file_stages (fuel : nat) (media : list byte) (es : list entry) (ver : Z) :
  0 <= ver < 2 ^ 32 ->
  len (media ++ encode_trailer es ver) < 2 ^ 31 ->
  (length es <= fuel)%nat ->
  let trailer := encode_trailer es ver in
  let items := entry_infos (len (encode_entries es)) (rev es) in
  ins_read_allocate_trailer (mkFile (media ++ trailer) 0)
  = (0, Some (trailer, mkTrailerHeader (len trailer) ver),
     mkFile (media ++ trailer) (len (media ++ trailer))) /\
  ins_decode_trailer_data fuel trailer (mkTrailerHeader (len trailer) ver) vector_init
  = Some (Done (mkTrailerDecode 0 items (len trailer))) /\
  Forall2 (item_at trailer) items (rev es).
Proof.
  intros Hver Hlen Hfuel trailer items.
  assert (Ht : len trailer < 2 ^ 32).
  { unfold trailer in *. rewrite len_app in Hlen. pose proof (len_nonneg media). lia. }
  destruct (trailer_walk_complete fuel es ver Ht Hfuel) as [Hw Hat].
  split; [|split; [exact Hw | exact Hat]].
  pose proof (ins_read_allocate_trailer_complete media (encode_entries es) ver) as Hread.
  cbv zeta in Hread. unfold trailer, encode_trailer in *.
  rewrite Hread by assumption. repeat f_equal.
  assert (H72 : kInsFileMinHeaderLength = 72) by reflexivity. len_lia.
Qed.

(** X13.  The rewrite of a whole file.  For a well-formed file (media, entries
    whose specific-info payloads have one non-empty offset tag, at least one
    of them a specific-info entry, the minimal header) with sizes below
    [2^31], enough room on the device and enough
    fuel, the driver returns 0 and the output is: the media bytes unchanged,
    every entry of another type unchanged and in place, every specific-info
    entry replaced by the rebuilt payload of the first one in the file, and a
    minimal header with the new total length and the version of the input. *)
Theorem rewrite_keeps_media_and_other_entries (fuel : nat) (media : list byte)
    (es : list entry) (ver room : Z) (new_offset : list byte) :
  Forall wf_entry es ->
  first_specific es <> None ->
  0 <= ver < 2 ^ 32 ->
  len (media ++ encode_trailer es ver) + len new_offset < 2 ^ 31 ->
  len (media ++ encode_trailer (rewrite_entries new_offset es) ver) < 2 ^ 31 ->
  len (media ++ encode_trailer (rewrite_entries new_offset es) ver) <= room ->
  (length es <= fuel)%nat ->
  len media <= Z.of_nat fuel * kCopyBufferSize ->
  run_change_stitching_offset fuel (Some (media ++ encode_trailer es ver)) (Some room)
    new_offset
  = Some (Done (mkRun 0
            (Some (media ++ encode_trailer (rewrite_entries new_offset es) ver)))).
Proof.
  intros. now apply run_change_stitching_offset_complete.
Qed.

Lemma rewrite_keeps_media_and_other_entries_witness :
  run_change_stitching_offset 2 (Some ([x01; x02; x03] ++ encode_trailer sample_entries 3))
    (Some 1000) [x35; x36]
  = Some (Done (mkRun 0
            (Some ([x01; x02; x03]
                   ++ encode_trailer
                        [Opaque 0x0300 [x07; x08]; SpecificInfo [(x2a, [x35; x36])] []] 3)))).
Proof.
  apply (rewrite_keeps_media_and_other_entries 2 [x01; x02; x03] sample_entries 3 1000
           [x35; x36]).
  - exact sample_entries_wf.
  - vm_compute. discriminate.
  - lia.
  - vm_compute. reflexivity.
  - vm_compute. reflexivity.
  - vm_compute. discriminate.
  - simpl. lia.
  - vm_compute. discriminate.
Defined.

Lemma roundtrip_identity_witness :
  run_change_stitching_offset 2 (Some ([x01; x02; x03] ++ encode_trailer sample_entries 3))
    (Some 1000) [x31]
  = Some (Done (mkRun 0 (Some ([x01; x02; x03] ++ encode_trailer sample_entries 3)))).
Proof.
  apply (roundtrip_identity 2 [x01; x02; x03] [Opaque 0x0300 [x07; x08]] [] sample_tags []
           3 1000 [x31]).
  - exact sample_entries_wf.
  - repeat constructor.
  - constructor.
  - repeat constructor.
  - lia.
  - vm_compute. reflexivity.
  - vm_compute. discriminate.
  - simpl. lia.
  - vm_compute. discriminate.
Defined.

Lemma first_specific_opaque (es : list entry) :
  Forall is_opaque es -> first_specific es = None.
Proof.
  induction 1 as [|e es He _ IH]; [reflexivity|].
  destruct e; [destruct He | exact IH].
Qed.

(** X15.  A file whose trailer has no specific-info entry: the first pass
    never assigns [new_spec_trailer_hdr], and every way on from there frees
    it.  Whether the output file cannot be created, a write of the media is
    short or the whole trailer is emitted, the run of the change mode on a
    well-formed file of this kind ends in the [free] of a pointer that was
    never set, before any exit code is returned. *)
Theorem file_without_specific_entry_frees_unset_pointer (fuel : nat) (media : list byte)
    (es : list entry) (ver : Z) (out_room : option Z) (new_offset : list byte) :
  let file := media ++ encode_trailer es ver in
  Forall wf_entry es ->
  Forall is_opaque es ->
  0 <= ver < 2 ^ 32 ->
  len file + len new_offset < 2 ^ 31 ->
  (length es <= fuel)%nat ->
  len media <= Z.of_nat fuel * kCopyBufferSize ->
  run_change_stitching_offset fuel (Some file) out_room new_offset = Some (Fault BadFree).
Proof.
  intros file Hwf Hop Hver Hin Hfuel Hcopy. unfold file in *.
  destruct (run_change_stitching_offset_front fuel media es ver new_offset out_room
              Hwf Hver Hin Hfuel) as [Hitems Hrun].
  cbv zeta in Hitems, Hrun. rewrite Hrun. clear Hrun.
  pose proof (has_source_first_specific es) as Hsrc.
  pose proof (kept_payload_size new_offset es Hwf) as Hsize.
  rewrite (first_specific_opaque es Hop) in *. cbn [kept_payload free_new_spec] in *.
  destruct out_room as [room|]; [|reflexivity].
  pose proof (len_nonneg media) as Hm0. pose proof (len_nonneg new_offset) as Hx0.
  pose proof (len_nonneg (encode_trailer es ver)) as Ht0.
  rewrite len_app in Hin.
  destruct (copy_media_loop_complete (encode_trailer es ver)
              (len (media ++ encode_trailer es ver)) (len (encode_trailer es ver)) eq_refl
              ltac:(rewrite len_app; lia) fuel [] media (mkOut [] room []) eq_refl Hcopy)
    as (error & file' & o1 & Hcp & _).
  cbn [app] in Hcp. change (len []) with 0 in Hcp. rewrite Hcp. clear Hcp.
  destruct error; [reflexivity|].
  destruct (rebuild_trailer_loop_complete (encode_trailer es ver) new_offset None
              ltac:(lia) ltac:(discriminate) _ es Hitems Hwf Hsrc o1 0 eq_refl)
    as (o2 & Hreb & _).
  cbn [kept_payload] in Hreb. rewrite Hreb. reflexivity.
Qed.

Lemma file_without_specific_entry_frees_unset_pointer_witness :
  run_change_stitching_offset 2 (Some ([x01; x02; x03] ++ encode_trailer opaque_entries 3))
    (Some 1000) [x35; x36]
  = Some (Fault BadFree).
Proof.
  apply (file_without_specific_entry_frees_unset_pointer 2 [x01; x02; x03] opaque_entries 3
           (Some 1000) [x35; x36]).
  - apply opaque_entries_wf.
  - apply opaque_entries_wf.
  - lia.
  - vm_compute. reflexivity.
  - simpl. lia.
  - vm_compute. discriminate.
Defined.

(** *** Two rewrites in a row *)

Lemma is_offset_tag_set_offset (new_offset : list byte) (t : tag) :
  is_offset_tag (set_offset new_offset t) = is_offset_tag t.
Proof.
  unfold set_offset. destruct (is_offset_tag t) eqn:E; exact E.
Qed.

Lemma filter_set_offset (new_offset : list byte) (ts : list tag) :
  length (filter is_offset_tag (map (set_offset new_offset) ts))
  = length (filter is_offset_tag ts).
Proof.
  induction ts as [|t ts IH]; [reflexivity|].
  cbn [map filter]. rewrite is_offset_tag_set_offset.
  destruct (is_offset_tag t); cbn [length]; now rewrite IH.
Qed.

Lemma first_offset_size_set_offset (new_offset : list byte) (ts : list tag) :
  filter is_offset_tag ts <> [] ->
  first_offset_size (map (set_offset new_offset) ts) = len new_offset.
Proof.
  induction ts as [|t ts IH]; intros H; [now contradiction H|].
  cbn [map first_offset_size filter] in *. rewrite is_offset_tag_set_offset.
  destruct (is_offset_tag t) eqn:E.
  - now rewrite (set_offset_true _ _ E).
  - now apply IH.
Qed.

Lemma map_set_offset_twice (x y : list byte) (ts : list tag) :
  map (set_offset y) (map (set_offset x) ts) = map (set_offset y) ts.
Proof.
  rewrite map_map. apply map_ext. intros t. unfold set_offset at 2.
  destruct (is_offset_tag t) eqn:E.
  - unfold set_offset. change (is_offset_tag (fst t, x)) with (is_offset_tag t).
    now rewrite E.
  - reflexivity.
Qed.

Lemma single_offset_tag_set_offset (new_offset : list byte) (ts : list tag) :
  0 < len new_offset -> single_offset_tag ts ->
  single_offset_tag (map (set_offset new_offset) ts).
Proof.
  intros Hx [Hone _]. split; [now rewrite filter_set_offset|].
  rewrite first_offset_size_set_offset; [lia|].
  destruct (filter is_offset_tag ts); [discriminate | congruence].
Qed.

Lemma wf_rewrite_entries (new_offset : list byte) (es : list entry) :
  0 < len new_offset <= 255 ->
  Forall wf_entry es -> Forall wf_entry (rewrite_entries new_offset es).
Proof.
  intros Hx Hwf. apply Forall_forall. intros e' Hin.
  unfold rewrite_entries in Hin. apply in_map_iff in Hin. destruct Hin as (e & <- & Hin).
  pose proof (proj1 (Forall_forall wf_entry es) Hwf _ Hin) as He.
  destruct e as [ts tl | type payload]; [|exact He].
  destruct (first_specific es) as [[tags tail]|] eqn:Hfs; [|exact He].
  apply first_specific_In in Hfs.
  pose proof (proj1 (Forall_forall wf_entry es) Hwf _ Hfs) as [Hw Hs].
  cbn [rewrite_entry wf_entry]. split.
  - apply wf_tags_set_offset; [lia | exact Hw].
  - apply single_offset_tag_set_offset; [lia | exact Hs].
Qed.

Lemma first_specific_none (es : list entry) :
  first_specific es = None -> Forall is_opaque es.
Proof.
  induction es as [|e es IH]; [constructor|].
  destruct e; cbn [first_specific]; [discriminate|].
  intros H. constructor; [exact I | now apply IH].
Qed.

Lemma first_specific_rewritten (x : list byte) (tags : list tag) (tail : list byte) :
  forall es : list entry,
    first_specific es <> None ->
    first_specific (map (rewrite_entry x (Some (tags, tail))) es)
    = Some (map (set_offset x) tags, tail).
Proof.
  induction es as [|e es IH]; intros H; [now contradiction H|].
  destruct e; cbn [map rewrite_entry first_specific] in *; [reflexivity | now apply IH].
Qed.

(** Rewriting twice is rewriting once with the second value. *)
Lemma rewrite_entries_twice (x y : list byte) (es : list entry) :
  rewrite_entries y (rewrite_entries x es) = rewrite_entries y es.
Proof.
  unfold rewrite_entries.
  destruct (first_specific es) as [[tags tail]|] eqn:Hfs.
  - rewrite first_specific_rewritten by congruence.
    rewrite map_map. apply map_ext. intros e.
    destruct e; cbn [rewrite_entry]; [|reflexivity].
    now rewrite map_set_offset_twice.
  - apply first_specific_none in Hfs.
    rewrite (rewrite_entry_opaque x None es Hfs).
    destruct (first_specific es); now rewrite !rewrite_entry_opaque.
Qed.

(** X16.  Two runs in a row on a well-formed file with a specific-info entry:
    rewriting the output of a first rewrite gives the file that rewriting
    the input with the second value gives; nothing of the first value is
    left. *)
Theorem last_rewrite_wins (fuel : nat) (media : list byte) (es : list entry)
    (ver room : Z) (x y : list byte) :
  let file := media ++ encode_trailer es ver in
  let out1 := media ++ encode_trailer (rewrite_entries x es) ver in
  let out2 := media ++ encode_trailer (rewrite_entries y es) ver in
  Forall wf_entry es ->
  first_specific es <> None ->
  0 <= ver < 2 ^ 32 ->
  0 < len x <= 255 ->
  len file + len x < 2 ^ 31 ->
  len file + len y < 2 ^ 31 ->
  len out1 + len y < 2 ^ 31 ->
  len out2 < 2 ^ 31 ->
  len out1 <= room -> len out2 <= room ->
  (length es <= fuel)%nat ->
  len media <= Z.of_nat fuel * kCopyBufferSize ->
  run_change_stitching_offset fuel (Some file) (Some room) x
  = Some (Done (mkRun 0 (Some out1))) /\
  run_change_stitching_offset fuel (Some file) (Some room) y
  = Some (Done (mkRun 0 (Some out2))) /\
  run_change_stitching_offset fuel (Some out1) (Some room) y
  = Some (Done (mkRun 0 (Some out2))).
Proof.
  intros file out1 out2 Hwf Hfs Hver Hx Hfx Hfy Hoy Ho2 Hr1 Hr2 Hfuel Hcopy.
  pose proof (len_nonneg y) as Hy0.
  split; [|split].
  - apply run_change_stitching_offset_complete; try assumption. fold out1. lia.
  - now apply run_change_stitching_offset_complete.
  - pose proof (run_change_stitching_offset_complete fuel media (rewrite_entries x es)
                  ver room y) as H.
    rewrite rewrite_entries_twice in H. apply H; try assumption.
    + now apply wf_rewrite_entries.
    + unfold rewrite_entries. destruct (first_specific es) as [[tags tail]|] eqn:E;
        [|congruence].
      rewrite first_specific_rewritten by congruence. discriminate.
    + unfold rewrite_entries. now rewrite length_map.
Qed.

Lemma last_rewrite_wins_witness :
  run_change_stitching_offset 2
    (Some ([x01; x02; x03] ++ encode_trailer (rewrite_entries [x35; x36] sample_entries) 3))
    (Some 1000) [x37]
  = Some (Done (mkRun 0
       (Some ([x01; x02; x03] ++ encode_trailer (rewrite_entries [x37] sample_entries) 3)))).
Proof.
  apply (last_rewrite_wins 2 [x01; x02; x03] sample_entries 3 1000 [x35; x36] [x37]).
  - exact sample_entries_wf.
  - vm_compute. discriminate.
  - lia.
  - vm_compute. split; [reflexivity | discriminate].
  - vm_compute. reflexivity.
  - vm_compute. reflexivity.
  - vm_compute. reflexivity.
  - vm_compute. reflexivity.
  - vm_compute. discriminate.
  - vm_compute. discriminate.
  - simpl. lia.
  - vm_compute. discriminate.
Defined.

(** ** The two modes: the files they refuse *)

(** X17.  Both modes stop with -3 on every file whose trailer cannot be read: a
    file below 72 bytes or without the signature at its end, or one that
    declares a trailer longer than the file or than [2^31] bytes.  The change
    mode creates no output; the show mode prints two lines. *)
Theorem unreadable_trailer_gives_minus_3 (fuel : nat) (data param_file_in : list byte)
    (out_room : option Z) (new_offset : list byte) :
  len data < 2 ^ 63 ->
  ~ (ends_with_signature data /\
     declared_trailer_len data <= len data /\ declared_trailer_len data <= 2 ^ 31) ->
  run_change_stitching_offset fuel (Some data) out_room new_offset
  = Some (Done (mkRun (-3) None)) /\
  run_show_info fuel param_file_in (Some data)
  = Some (Done (-3, [UseFile param_file_in; CannotDecodeFileHeader])).
Proof.
  intros Hlen Hno. unfold run_change_stitching_offset, run_show_info.
  destruct (read_allocate_trailer_cases data 0 Hlen)
    as [(_ & f & E) | [(_ & _ & f & E) | (Hsig & Hfit & H31 & _)]];
    [rewrite E; split; reflexivity | rewrite E; split; reflexivity | tauto].
Qed.

Lemma unreadable_trailer_gives_minus_3_witness :
  run_change_stitching_offset 0 (Some not_an_ins_file) (Some 1000) [x31]
  = Some (Done (mkRun (-3) None)) /\
  run_show_info 0 [x61] (Some not_an_ins_file)
  = Some (Done (-3, [UseFile [x61]; CannotDecodeFileHeader])).
Proof.
  apply (unreadable_trailer_gives_minus_3 0 not_an_ins_file [x61] (Some 1000) [x31]).
  - vm_compute. reflexivity.
  - intros [[_ H] _]. vm_compute in H. discriminate.
Defined.

(** X18.  Both modes stop with -4 on a file that ends with the signature and
    declares a trailer of less than 72 bytes: the walk finds no entry and the
    landing check fails, whatever the file holds before its last 72 bytes. *)
Theorem trailer_below_72_gives_minus_4 (fuel : nat) (data param_file_in : list byte)
    (out_room : option Z) (new_offset : list byte) :
  len data < 2 ^ 63 ->
  ends_with_signature data ->
  declared_trailer_len data < kInsFileMinHeaderLength ->
  run_change_stitching_offset fuel (Some data) out_room new_offset
  = Some (Done (mkRun (-4) None)) /\
  run_show_info fuel param_file_in (Some data)
  = Some (Done (-4, [UseFile param_file_in;
                     TrailerVersionLength (to_int32 (declared_trailer_version data))
                       (to_int32 (declared_trailer_len data));
                     CannotDecodeTrailerHeader])).
Proof.
  intros Hlen Hsig Hshort. unfold run_change_stitching_offset, run_show_info.
  change kInsFileMinHeaderLength with 72 in Hshort.
  destruct (read_allocate_trailer_cases data 0 Hlen)
    as [(Hno & _) | [(_ & Hbig & _) | (_ & _ & _ & E)]].
  - contradiction.
  - destruct Hsig as [H72 _]. change kInsFileMinHeaderLength with 72 in H72. lia.
  - rewrite E. change (0 <? 0) with false. cbv iota.
    assert (Hw : ins_decode_trailer_data fuel
                   (skipn (Z.to_nat (len data - declared_trailer_len data)) data)
                   (mkTrailerHeader (declared_trailer_len data)
                      (declared_trailer_version data)) vector_init
                 = Some (Done (mkTrailerDecode (-1) [] kInsFileMinHeaderLength))).
    { unfold ins_decode_trailer_data.
      assert (Hl : forall items,
                 decode_trailer_loop fuel
                   (skipn (Z.to_nat (len data - declared_trailer_len data)) data)
                   (mkTrailerHeader (declared_trailer_len data)
                      (declared_trailer_version data)) kInsFileMinHeaderLength items
                 = Some (Done (kInsFileMinHeaderLength, items))).
      { intros items. destruct fuel; cbn [decode_trailer_loop trailer_len];
          change kInsFileMinHeaderLength with 72;
          now replace (72 <? declared_trailer_len data) with false
            by (symmetry; apply Z.ltb_ge; lia). }
      rewrite Hl. cbn [trailer_len]. change kInsFileMinHeaderLength with 72.
      now replace (72 =? declared_trailer_len data) with false
        by (symmetry; apply Z.eqb_neq; lia). }
    rewrite Hw. split; reflexivity.
Qed.

Lemma trailer_below_72_gives_minus_4_witness :
  run_change_stitching_offset 0 (Some short_trailer_file) None [x31]
  = Some (Done (mkRun (-4) None)) /\
  run_show_info 0 [x61] (Some short_trailer_file)
  = Some (Done (-4, [UseFile [x61]; TrailerVersionLength 3 10; CannotDecodeTrailerHeader])).
Proof.
  apply (trailer_below_72_gives_minus_4 0 short_trailer_file [x61] None [x31]).
  - vm_compute. reflexivity.
  - split; [vm_compute; discriminate | vm_compute; reflexivity].
  - vm_compute. reflexivity.
Defined.

(** X19.  When the output file cannot be created the change mode returns -5
    on a well-formed file with a specific-info entry: the input is read,
    walked and rebuilt in memory before the output is opened, the rebuilt
    payload is freed, and nothing is written. *)
Theorem output_not_created_gives_minus_5 (fuel : nat) (media : list byte)
    (es : list entry) (ver : Z) (new_offset : list byte) :
  Forall wf_entry es ->
  first_specific es <> None ->
  0 <= ver < 2 ^ 32 ->
  len (media ++ encode_trailer es ver) + len new_offset < 2 ^ 31 ->
  (length es <= fuel)%nat ->
  run_change_stitching_offset fuel (Some (media ++ encode_trailer es ver)) None new_offset
  = Some (Done (mkRun (-5) None)).
Proof.
  intros Hwf Hfs Hver Hlen Hfuel.
  destruct (run_change_stitching_offset_front fuel media es ver new_offset None
              Hwf Hver Hlen Hfuel) as [_ Hrun].
  cbv zeta in Hrun. rewrite Hrun.
  destruct (first_specific es); [reflexivity | congruence].
Qed.

Lemma output_not_created_gives_minus_5_witness :
  run_change_stitching_offset 2 (Some ([x01; x02; x03] ++ encode_trailer sample_entries 3))
    None [x35; x36]
  = Some (Done (mkRun (-5) None)).
Proof.
  apply (output_not_created_gives_minus_5 2 [x01; x02; x03] sample_entries 3 [x35; x36]).
  - exact sample_entries_wf.
  - vm_compute. discriminate.
  - lia.
  - vm_compute. reflexivity.
  - simpl. lia.
Defined.

(** The copy of the media when the first chunk fills the copy buffer and
    the device has no room for it: the chunk is larger than the buffer of
    the stream, so it goes to the device at once, the count is short and the
    loop stops with the error flag. *)
Lemma copy_media_loop_short (trailer media : list byte) (fuel : nat) (room : Z) :
  len (media ++ trailer) < 2 ^ 31 ->
  kCopyBufferSize <= len media ->
  room < kCopyBufferSize ->
  exists (file' : FILE) (o' : OFILE),
    copy_media_loop (S fuel) (mkFile (media ++ trailer) 0) (mkOut [] room [])
      (len (media ++ trailer)) (len trailer) 0
    = Some (true, file', o') /\
    o_data (snd (fflush o')) = firstn (Z.to_nat room) media.
Proof.
  intros Hsize Hbig Hroom.
  pose proof (len_nonneg trailer) as Htr0. rewrite len_app in Hsize.
  cbn [copy_media_loop].
  replace (0 <? len (media ++ trailer) - len trailer) with true
    by (symmetry; apply Z.ltb_lt; rewrite len_app; unfold kCopyBufferSize in Hbig; lia).
  replace (len (media ++ trailer) - len trailer - 0) with (len media)
    by (rewrite len_app; lia).
  destruct (copy_chunk_size (len media) ltac:(unfold kCopyBufferSize in Hbig; lia))
    as (Hc1 & Hc2 & Hc3 & Hc4 & _).
  cbv zeta in Hc1, Hc2, Hc3, Hc4.
  set (c := if to_uint64 (to_int32 (len media)) >? kCopyBufferSize
            then kCopyBufferSize else to_int32 (len media)) in *.
  assert (Hc : c = kCopyBufferSize) by lia.
  rewrite Hc3.
  set (chunk := firstn (Z.to_nat c) media).
  assert (Hchunk : len chunk = c).
  { unfold chunk, len. rewrite length_firstn. unfold len in Hc1. lia. }
  assert (Hreg : region (media ++ trailer) 0 chunk).
  { exists [], (skipn (Z.to_nat c) media ++ trailer). split; [|reflexivity].
    cbn [app]. unfold chunk. now rewrite app_assoc, firstn_skipn. }
  rewrite (fread_region _ _ c _ Hreg) by (symmetry; exact Hchunk).
  rewrite Hchunk, Z.eqb_refl. cbn [negb].
  unfold fwrite. cbn [o_buf o_data o_room app]. change (len []) with 0.
  rewrite Hchunk.
  replace (0 + c <=? kStdioBufferSize) with false
    by (symmetry; apply Z.leb_gt; rewrite Hc; reflexivity).
  replace (Z.min c (Z.max 0 room)) with (Z.max 0 room) by lia.
  rewrite Z.sub_0_r.
  replace (Z.max 0 (Z.max 0 room) =? c) with false by (symmetry; apply Z.eqb_neq; lia).
  cbn [negb]. eexists _, _. split; [reflexivity|].
  unfold fflush. cbn [snd o_data o_buf o_room]. change (len []) with 0.
  rewrite firstn_nil, app_nil_r. unfold chunk. rewrite firstn_firstn. f_equal.
  unfold kCopyBufferSize in *. lia.
Qed.

(** X20.  A short write is seen by the media copy only when it reaches the
    device.  On a well-formed file with a specific-info entry: when the
    media fills the copy buffer at least once and the device has less room
    than that first chunk, the change mode returns -6 and the output file is
    left with the first [room] bytes of the media; when everything the
    driver writes fits the buffer of the stream, every [fwrite] reports a
    full count, the results of [fflush] and [fclose] are not looked at, and
    the change mode returns 0 whatever the room: the output file holds the
    first [room] bytes of the rewritten file. *)
Theorem short_media_write_seen_at_the_device (fuel : nat) (media : list byte)
    (es : list entry) (ver room : Z) (new_offset : list byte) :
  Forall wf_entry es ->
  first_specific es <> None ->
  0 <= ver < 2 ^ 32 ->
  len (media ++ encode_trailer es ver) + len new_offset < 2 ^ 31 ->
  (length es <= fuel)%nat ->
  len media <= Z.of_nat fuel * kCopyBufferSize ->
  (kCopyBufferSize <= len media -> room < kCopyBufferSize ->
   run_change_stitching_offset fuel (Some (media ++ encode_trailer es ver)) (Some room)
     new_offset
   = Some (Done (mkRun (-6) (Some (firstn (Z.to_nat room) media))))) /\
  (len (emitted_file media (rewrite_entries new_offset es) ver) <= kStdioBufferSize ->
   run_change_stitching_offset fuel (Some (media ++ encode_trailer es ver)) (Some room)
     new_offset
   = Some (Done (mkRun 0
             (Some (firstn (Z.to_nat room)
                      (emitted_file media (rewrite_entries new_offset es) ver)))))).
Proof.
  intros Hwf Hfs Hver Hlen Hfuel Hcopy. split.
  - intros Hbig Hroom. pose proof (len_nonneg new_offset) as Hx0.
    destruct (run_change_stitching_offset_front fuel media es ver new_offset (Some room)
                Hwf Hver Hlen Hfuel) as [_ Hrun].
    cbv zeta in Hrun. rewrite Hrun. clear Hrun.
    destruct fuel as [|fuel]; [unfold kCopyBufferSize in *; lia|].
    destruct (copy_media_loop_short (encode_trailer es ver) media fuel room
                ltac:(lia) Hbig Hroom) as (file' & o' & E & Hout).
    rewrite E, Hout. destruct (first_specific es); [reflexivity | congruence].
  - intros Hfit. apply run_change_stitching_offset_emits; try assumption.
    left. cbn [o_buf]. change (len []) with 0. lia.
Qed.

Lemma short_media_write_seen_at_the_device_witness :
  run_change_stitching_offset 2 (Some large_media_file) (Some 2) [x35; x36]
  = Some (Done (mkRun (-6) (Some [x01; x01]))) /\
  run_change_stitching_offset 2 (Some ([x01; x02; x03] ++ encode_trailer sample_entries 3))
    (Some 2) [x35; x36]
  = Some (Done (mkRun 0 (Some [x01; x02]))).
Proof.
  split.
  - refine (proj1 (short_media_write_seen_at_the_device 2
                     (repeat x01 (Z.to_nat kCopyBufferSize))
                     [SpecificInfo [(x2a, [x31])] []] 3 2 [x35; x36] _ _ _ _ _ _) _ _).
    + constructor; [|constructor]. exact sample_tags_wf.
    + discriminate.
    + lia.
    + vm_compute. reflexivity.
    + simpl. lia.
    + vm_compute. discriminate.
    + vm_compute. discriminate.
    + reflexivity.
  - refine (proj2 (short_media_write_seen_at_the_device 2 [x01; x02; x03] sample_entries
                     3 2 [x35; x36] _ _ _ _ _ _) _).
    + exact sample_entries_wf.
    + vm_compute. discriminate.
    + lia.
    + vm_compute. reflexivity.
    + simpl. lia.
    + vm_compute. discriminate.
    + vm_compute. discriminate.
Defined.

(** X21.  A specific-info entry, the last one of the file, whose first tag declares
    more value bytes than the whole payload has: the change mode returns -7
    before the output file is opened, whatever the other entries are. *)
Theorem overlong_first_tag_gives_minus_7 (fuel : nat) (media : list byte) (es : list entry)
    (t s : byte) (rest : list byte) (ver : Z) (out_room : option Z)
    (new_offset : list byte) :
  let payload := t :: s :: rest in
  let file := media ++ encode_trailer (es ++ [Opaque 0x0101 payload]) ver in
  len payload < u8 s ->
  0 <= ver < 2 ^ 32 ->
  len file < 2 ^ 31 ->
  (length es < fuel)%nat ->
  run_change_stitching_offset fuel (Some file) out_room new_offset
  = Some (Done (mkRun (-7) None)).
Proof.
  intros payload file Hbig Hver Hlen Hfuel.
  set (bad := Opaque 0x0101 payload) in *.
  destruct (well_formed_file_stages fuel media (es ++ [bad]) ver Hver Hlen)
    as (Hread & Hwalk & Hat).
  { rewrite length_app. cbn [length]. lia. }
  cbv zeta in Hread, Hwalk, Hat.
  unfold file, run_change_stitching_offset. rewrite Hread.
  change (0 <? 0) with false. cbv iota. rewrite Hwalk. cbn [td_ret td_items].
  change (0 <? 0) with false. cbv iota.
  rewrite rev_app_distr in *. cbn [rev app entry_infos] in *.
  set (m := encode_trailer (es ++ [bad]) ver) in *.
  set (stop := len (encode_entries (es ++ [bad]))) in *.
  change (entry_payload bad) with payload in *.
  set (hdr_info := EntryInfo.mk (stop - 6) (stop - 6 - len payload)) in *.
  inversion Hat as [|h e items res Hbad _]. subst.
  assert (Hm : len m < 2 ^ 31).
  { unfold file in Hlen. rewrite len_app in Hlen. pose proof (len_nonneg media). lia. }
  assert (Hp31 : len (entry_payload bad) + 6 <= len m)
    by (now apply item_payload_bound in Hbad).
  assert (Hp : len (entry_payload bad) < 2 ^ 32) by lia.
  destruct (item_fields m _ bad Hbad ltac:(simpl; lia) Hp) as (Hty & Hl & Hr).
  change (entry_payload bad) with payload in *.
  change (entry_type_of bad) with 257 in *.
  cbn [change_entries_loop]. rewrite Hty. cbn [bind].
  change (257 =? 257) with true. cbv iota. rewrite Hl. cbn [bind].
  pose proof (len_nonneg payload) as Hp0.
  rewrite (to_int32_small (len payload)) by lia.
  assert (Hc : ins_change_stitching_offset m (EntryInfo.trailer_offset_to_data hdr_info)
                 (len payload) new_offset
               = Done (mkChange (-3) None)).
  { unfold ins_change_stitching_offset, ins_decode_trailer_specific_header, kMaxTagsCount.
    rewrite decode_specific_loop_step.
    assert (Hs : tag_data_size m (EntryInfo.trailer_offset_to_data hdr_info + 0)
                 = Done (u8 s)).
    { unfold tag_data_size. rewrite Z.add_0_r.
      apply (region_app_r _ _ [t] (s :: rest)) in Hr.
      change (len [t]) with 1 in Hr.
      now rewrite (load8_region _ _ _ _ Hr). }
    rewrite Hs. cbn [bind].
    replace (u8 s >? len payload - 0) with true by (symmetry; apply Z.gtb_lt; lia).
    reflexivity. }
  rewrite Hc. reflexivity.
Qed.

Lemma overlong_first_tag_gives_minus_7_witness :
  run_change_stitching_offset 1 (Some overlong_tag_file) (Some 1000) [x35]
  = Some (Done (mkRun (-7) None)).
Proof.
  apply (overlong_first_tag_gives_minus_7 1 [x01; x02; x03] [] x2a x05 [x31] 3 (Some 1000)
           [x35]).
  - vm_compute. reflexivity.
  - lia.
  - vm_compute. reflexivity.
  - simpl. lia.
Defined.

(** ** The show mode *)

Lemma field_name_is_name_of (type_code : Z) :
  ins_get_header_field_name type_code = Done (name_of type_code).
Proof.
  unfold name_of. destruct (ins_get_header_field_name type_code) as [name|f] eqn:E;
    [reflexivity|].
  unfold ins_get_header_field_name in E.
  destruct (field_name_loop_sentinel (to_uint8 type_code) kInsSpecificTagNameInfos 0)
    as (name & H & _).
  { exists "unknown"%string. unfold kInsSpecificTagNameInfos. cbn [In]. tauto. }
  congruence.
Qed.

Lemma show_tags_loop_complete (m : buffer) :
  forall (elems : list TagInfo.t) (shown : list (tag * Z)),
    Forall2 (shown_at m) elems shown ->
    show_tags_loop m elems = Done (tag_lines shown).
Proof.
  induction 1 as [|e s elems shown (Ho & Ht & Hs & Hd) _ IH]; [reflexivity|].
  cbn [show_tags_loop]. rewrite Ht. cbn [bind].
  rewrite field_name_is_name_of. cbn [bind]. rewrite Hs. cbn [bind].
  rewrite Hd. cbn [bind]. rewrite IH. cbn [bind].
  unfold tag_lines. cbn [flat_map]. unfold tag_line_pair at 2. cbn [app].
  now rewrite Ho.
Qed.

Lemma tag_infos_shown_at (m : buffer) (hdr_data : Z) :
  forall (ts : list tag) (position : Z),
    Forall (fun t => len (snd t) <= 255) ts ->
    region m (hdr_data + position) (encode_tags ts) ->
    Forall2 (shown_at m) (tag_infos hdr_data position ts) (tags_with_offsets position ts).
Proof.
  induction ts as [|t ts IH]; intros position Hsz Hr; [constructor|].
  inversion Hsz as [|? ? Ht Hsz']. subst.
  cbn [tag_infos tags_with_offsets]. rewrite encode_tags_cons in Hr.
  destruct (tag_fields_region m (hdr_data + position) t (encode_tags ts) Hr Ht)
    as (H1 & H2 & H3).
  constructor.
  - unfold shown_at. cbn [TagInfo.hdr_offset TagInfo.hdr TagInfo.data fst snd].
    replace (hdr_data + (position + 2)) with (hdr_data + position + 2) by lia.
    repeat split; assumption.
  - apply IH; [exact Hsz'|].
    apply region_app_r in Hr. unfold encode_tag in Hr. rewrite !len_cons in Hr.
    replace (hdr_data + (position + 2 + len (snd t)))
      with (hdr_data + position + (1 + (1 + len (snd t)))) by lia.
    exact Hr.
Qed.

Lemma showable_type_range (e : entry) : showable e -> 0 <= entry_type_of e < 2 ^ 16.
Proof. destruct e; simpl; [lia | tauto]. Qed.

(** The loop over the entries of a well-formed trailer. *)
Lemma show_entries_loop_complete (m : buffer) :
  len m < 2 ^ 31 ->
  forall (res : list entry) (stop : Z),
    Forall2 (item_at m) (entry_infos stop res) res ->
    Forall showable res ->
    forall (elems : list TagInfo.t) (shown : list (tag * Z)) (out : list line),
      Forall2 (shown_at m) elems shown ->
      show_entries_loop m (entry_infos stop res) elems out
      = Done (0, out ++ entry_lines stop res shown).
Proof.
  intros Hm. induction res as [|e res IH]; intros stop Hat Hok elems shown out Hshown.
  - cbn [entry_infos show_entries_loop entry_lines]. now rewrite app_nil_r.
  - cbn [entry_infos] in *.
    inversion Hat as [|hdr_info e' items res' He Hat']. subst.
    inversion Hok as [|? ? Hse Hok']. subst.
    pose proof (item_payload_bound _ _ _ He) as Hpb.
    pose proof (len_nonneg (entry_payload e)) as Hp0.
    destruct (item_fields m _ e He (showable_type_range e Hse) ltac:(lia))
      as (Hty & Hl & Hr).
    pose proof (region_bounds _ _ _ Hr) as Hrb.
    cbn [EntryInfo.trailer_offset_to_data] in Hr, Hrb.
    cbn [show_entries_loop]. rewrite Hty, Hl. cbn [bind].
    cbn [EntryInfo.trailer_offset_to_data].
    rewrite (to_int32_small (len (entry_payload e))) by lia.
    rewrite (to_int32_small (stop - 6 - len (entry_payload e))) by lia.
    destruct e as [tags tail | type payload].
    + cbn [entry_type_of entry_payload] in *.
      change (257 =? 257) with true. cbv iota.
      destruct (decode_specific_complete m _ _ tags tail elems Hse Hr eq_refl)
        as (reads & Hd).
      rewrite Hd. cbn [bind sd_ret sd_elements sd_tail].
      replace (Z.of_nat (length tags) <? 0) with false by (symmetry; apply Z.ltb_ge; lia).
      assert (Hshown' : Forall2 (shown_at m)
                          (elems ++ tag_infos (stop - 6 - len (encode_tags tags ++ tail)) 0 tags)
                          (shown ++ tags_with_offsets 0 tags)).
      { apply Forall2_app; [exact Hshown|].
        destruct Hse as (_ & _ & Hsz & _).
        apply tag_infos_shown_at; [exact Hsz|]. rewrite Z.add_0_r.
        now apply region_app_l in Hr. }
      rewrite (show_tags_loop_complete m _ _ Hshown'). cbn [bind].
      rewrite (IH _ Hat' Hok' _ _ _ Hshown').
      unfold vector_size. rewrite (Forall2_length Hshown').
      cbn [entry_lines entry_type_of entry_payload].
      rewrite <- !app_assoc. reflexivity.
    + cbn [entry_type_of entry_payload] in *.
      replace (type =? 257) with false
        by (symmetry; apply Z.eqb_neq; cbn [showable] in Hse; tauto).
      rewrite (IH _ Hat' Hok' _ _ _ Hshown).
      cbn [entry_lines entry_type_of entry_payload].
      rewrite <- !app_assoc. reflexivity.
Qed.

(** The show mode on a well-formed file: the exit code and the lines. *)
Lemma run_show_info_complete (fuel : nat) (param_file_in media : list byte)
    (es : list entry) (ver : Z) :
  Forall showable es ->
  0 <= ver < 2 ^ 32 ->
  len (media ++ encode_trailer es ver) < 2 ^ 31 ->
  (length es <= fuel)%nat ->
  run_show_info fuel param_file_in (Some (media ++ encode_trailer es ver))
  = Some (Done (0, show_lines param_file_in es ver)).
Proof.
  intros Hok Hver Hlen Hfuel.
  destruct (well_formed_file_stages fuel media es ver Hver Hlen Hfuel)
    as (Hread & Hwalk & Hat).
  cbv zeta in Hread, Hwalk, Hat.
  assert (Hm : len (encode_trailer es ver) < 2 ^ 31).
  { rewrite len_app in Hlen. pose proof (len_nonneg media). lia. }
  pose proof (len_nonneg (encode_trailer es ver)) as Hm0.
  unfold run_show_info. rewrite Hread.
  change (0 <? 0) with false. cbv iota. rewrite Hwalk. cbn [td_ret td_items].
  change (0 <? 0) with false. cbv iota. cbn [trailer_version trailer_len].
  rewrite (show_entries_loop_complete _ Hm (rev es) _ Hat (Forall_rev Hok) [] [] _
             (Forall2_nil _)).
  change (0 <? 0) with false. cbv iota.
  unfold show_lines, vector_size.
  rewrite (Forall2_length Hat), length_rev.
  rewrite (to_int32_small (len (encode_trailer es ver))) by lia.
  reflexivity.
Qed.

(** X22.  The show mode on a well-formed file, with fuel for the walk: it returns
    0 and prints, after the three opening lines, one group of lines per
    entry, from the last entry of the file to the first.  For a
    specific-info entry the group gives the number of tags and lists them
    with name, size, offset and value: the tags of this entry preceded by the
    tags of every specific-info entry printed before it, because the vector
    of tags is never emptied between two entries. *)
Theorem show_lists_every_entry (fuel : nat) (param_file_in media : list byte)
    (es : list entry) (ver : Z) :
  Forall showable es ->
  0 <= ver < 2 ^ 32 ->
  len (media ++ encode_trailer es ver) < 2 ^ 31 ->
  (length es <= fuel)%nat ->
  run_show_info fuel param_file_in (Some (media ++ encode_trailer es ver))
  = Some (Done (0, show_lines param_file_in es ver)).
Proof.
  intros. now apply run_show_info_complete.
Qed.

Lemma sample_entries_showable : Forall showable sample_entries.
Proof.
  constructor; [simpl; lia|]. constructor; [|constructor]. apply sample_tags_wf.
Qed.

Lemma show_lists_every_entry_witness :
  run_show_info 2 [x61] (Some ([x01; x02; x03] ++ encode_trailer sample_entries 3))
  = Some (Done (0, show_lines [x61] sample_entries 3)).
Proof.
  apply (show_lists_every_entry 2 [x61] [x01; x02; x03] sample_entries 3).
  - exact sample_entries_showable.
  - lia.
  - vm_compute. reflexivity.
  - simpl. lia.
Defined.

(** Lists built with [::] and [++], brought to one shape. *)
Ltac norm_app := repeat first [rewrite <- app_assoc | progress (cbn [app])].

(** The lines of a list of entries, cut after some of them. *)
Lemma entry_lines_app :
  forall (res1 res2 : list entry) (stop : Z) (shown : list (tag * Z)),
  exists (pre : list line) (stop' : Z) (shown' : list (tag * Z)),
    entry_lines stop (res1 ++ res2) shown = pre ++ entry_lines stop' res2 shown' /\
    (Forall is_opaque res1 -> shown' = shown).
Proof.
  induction res1 as [|e res1 IH]; intros res2 stop shown.
  - exists [], stop, shown. split; [reflexivity | reflexivity].
  - cbn [app entry_lines].
    destruct e as [tags tail | type payload].
    + destruct (IH res2 (stop - 6 - len (entry_payload (SpecificInfo tags tail)))
                  (shown ++ tags_with_offsets 0 tags)) as (pre & stop' & shown' & E & _).
      rewrite E.
      exists (TailEntryFound (entry_type_of (SpecificInfo tags tail))
                (len (entry_payload (SpecificInfo tags tail)))
                (stop - 6 - len (entry_payload (SpecificInfo tags tail)))
              :: FoundSpecific 257 (len (entry_payload (SpecificInfo tags tail)))
              :: SpecificDecoded (Z.of_nat (length (shown ++ tags_with_offsets 0 tags)))
                   (len tail)
              :: tag_lines (shown ++ tags_with_offsets 0 tags) ++ pre), stop', shown'.
      split.
      * cbn [app]. do 3 f_equal. apply app_assoc.
      * intros H. inversion H as [|? ? He _]. destruct He.
    + destruct (IH res2 (stop - 6 - len (entry_payload (Opaque type payload))) shown)
        as (pre & stop' & shown' & E & Hs).
      rewrite E.
      exists (TailEntryFound (entry_type_of (Opaque type payload))
                (len (entry_payload (Opaque type payload)))
                (stop - 6 - len (entry_payload (Opaque type payload)))
              :: FoundOther type (len (entry_payload (Opaque type payload))) :: pre),
             stop', shown'.
      split; [reflexivity|].
      intros H. inversion H. now apply Hs.
Qed.

Lemma showable_app (es1 es2 : list entry) :
  Forall showable (es1 ++ es2) <-> Forall showable es1 /\ Forall showable es2.
Proof. apply Forall_app. Qed.

(** X23.  Two specific-info entries in one trailer, with entries of other types
    after the first one: for the first one of the file, which the show mode
    prints after the second, the number of tags announced is the sum of both
    and the tags listed are those of the second entry followed by its own. *)
Theorem show_repeats_tags_of_later_entries (fuel : nat) (param_file_in media : list byte)
    (before between after : list entry) (ts1 ts2 : list tag) (tail1 tail2 : list byte)
    (ver : Z) :
  let es := before ++ SpecificInfo ts1 tail1 :: between ++ SpecificInfo ts2 tail2 :: after in
  Forall showable es ->
  Forall is_opaque between -> Forall is_opaque after ->
  0 <= ver < 2 ^ 32 ->
  len (media ++ encode_trailer es ver) < 2 ^ 31 ->
  (length es <= fuel)%nat ->
  exists pre post : list line,
    run_show_info fuel param_file_in (Some (media ++ encode_trailer es ver))
    = Some (Done (0,
        pre ++ SpecificDecoded (Z.of_nat (length ts2 + length ts1)) (len tail1)
            :: tag_lines (tags_with_offsets 0 ts2 ++ tags_with_offsets 0 ts1) ++ post)).
Proof.
  intros es Hok Hbetween Hafter Hver Hlen Hfuel.
  rewrite (run_show_info_complete fuel param_file_in media es ver Hok Hver Hlen Hfuel).
  unfold show_lines, es. rewrite rev_app_distr. cbn [rev].
  rewrite rev_app_distr. cbn [rev]. rewrite <- !app_assoc. cbn [app].
  destruct (entry_lines_app (rev after)
              (SpecificInfo ts2 tail2 :: rev between ++ SpecificInfo ts1 tail1 :: rev before)
              (len (encode_entries es)) []) as (pre1 & stop1 & shown1 & E1 & Hs1).
  fold es. rewrite E1. rewrite (Hs1 (Forall_rev Hafter)). cbn [entry_lines app].
  destruct (entry_lines_app (rev between) (SpecificInfo ts1 tail1 :: rev before)
              (stop1 - 6 - len (entry_payload (SpecificInfo ts2 tail2)))
              (tags_with_offsets 0 ts2)) as (pre2 & stop2 & shown2 & E2 & Hs2).
  rewrite E2. rewrite (Hs2 (Forall_rev Hbetween)). cbn [entry_lines].
  assert (Hcount : forall (ts : list tag) (p : Z), length (tags_with_offsets p ts) = length ts).
  { induction ts as [|t ts IH]; intros p; [reflexivity|].
    cbn [tags_with_offsets length]. now rewrite IH. }
  rewrite length_app, !Hcount.
  match goal with
  | |- exists pre post,
         Some (Done (0, ?a :: ?b :: ?c
                        :: (pre1 ++ ?d :: ?e :: ?f :: ?g ++ pre2 ++ ?h :: ?i :: _ :: _ ++ ?r)
                           ++ ?z)) = _ =>
      exists (a :: b :: c :: pre1 ++ d :: e :: f :: g ++ pre2 ++ [h; i]), (r ++ z)
  end.
  do 2 f_equal. f_equal. norm_app. reflexivity.
Qed.

Lemma two_specific_entries_showable : Forall showable two_specific_entries.
Proof.
  constructor; [exact serial_only_tags_wf|]. constructor; [|constructor].
  apply sample_tags_wf.
Qed.

Lemma show_repeats_tags_of_later_entries_witness :
  exists pre post : list line,
    run_show_info 2 [x61]
      (Some ([x01] ++ encode_trailer
                        ([] ++ SpecificInfo serial_only_tags []
                            :: [] ++ SpecificInfo sample_tags [] :: []) 3))
    = Some (Done (0,
        pre ++ SpecificDecoded 2 0
            :: tag_lines (tags_with_offsets 0 sample_tags
                          ++ tags_with_offsets 0 serial_only_tags) ++ post)).
Proof.
  apply (show_repeats_tags_of_later_entries 2 [x61] [x01] [] [] [] serial_only_tags
           sample_tags [] [] 3).
  - exact two_specific_entries_showable.
  - constructor.
  - constructor.
  - lia.
  - vm_compute. reflexivity.
  - simpl. lia.
Defined.

Lemma tag_lines_in (s : tag * Z) (shown : list (tag * Z)) :
  In s shown -> exists pre post, tag_lines shown = pre ++ tag_line_pair s ++ post.
Proof.
  intros H. apply in_split in H. destruct H as (l1 & l2 & ->).
  exists (tag_lines l1), (tag_lines l2). unfold tag_lines.
  rewrite flat_map_app. reflexivity.
Qed.

Lemma tags_with_offsets_in (t : tag) :
  forall (ts : list tag) (position : Z),
    In t ts -> exists off, In (t, off) (tags_with_offsets position ts).
Proof.
  induction ts as [|t0 ts IH]; intros position H; [destruct H|].
  cbn [tags_with_offsets]. destruct H as [-> | H].
  - exists position. now left.
  - destruct (IH (position + 2 + len (snd t0)) H) as (off & Hin).
    exists off. now right.
Qed.

(** Every tag of every specific-info entry has its two lines in the output. *)
Lemma entry_lines_in (ts : list tag) (tail : list byte) (t : tag) (res : list entry)
    (stop : Z) (shown : list (tag * Z)) :
  In (SpecificInfo ts tail) res -> In t ts ->
  exists pre post off, entry_lines stop res shown = pre ++ tag_line_pair (t, off) ++ post.
Proof.
  intros He Ht. apply in_split in He. destruct He as (res1 & res2 & ->).
  destruct (entry_lines_app res1 (SpecificInfo ts tail :: res2) stop shown)
    as (pre & stop' & shown' & E & _).
  rewrite E. cbn [entry_lines].
  destruct (tags_with_offsets_in t ts 0 Ht) as (off & Hin).
  destruct (tag_lines_in (t, off) (shown' ++ tags_with_offsets 0 ts))
    as (p1 & p2 & Hl); [apply in_or_app; now right|].
  rewrite Hl.
  match goal with
  | |- exists _ _ _, pre ++ ?a :: ?b :: ?c :: (p1 ++ _ ++ p2) ++ ?r = _ =>
      exists (pre ++ a :: b :: c :: p1), (p2 ++ r), off
  end.
  norm_app. reflexivity.
Qed.

Lemma showable_rewrite_entries (new_offset : list byte) (es : list entry) :
  len new_offset <= 255 ->
  Forall wf_entry es -> Forall showable (rewrite_entries new_offset es).
Proof.
  intros Hx Hwf. apply Forall_forall. intros e' Hin.
  unfold rewrite_entries in Hin. apply in_map_iff in Hin. destruct Hin as (e & <- & Hin).
  pose proof (proj1 (Forall_forall wf_entry es) Hwf _ Hin) as He.
  destruct e as [ts tl | type payload]; [|exact He].
  destruct (first_specific es) as [[tags tail]|] eqn:Hfs; [|exact (proj1 He)].
  apply first_specific_In in Hfs.
  pose proof (proj1 (Forall_forall wf_entry es) Hwf _ Hfs) as [Hw _].
  cbn [rewrite_entry showable]. now apply wf_tags_set_offset.
Qed.

(** X24.  The two modes, one after the other: on a well-formed file with a
    specific-info entry and a new value of at most 255 bytes, the change mode
    returns 0 and the show mode, run on its output, returns 0 and prints a
    tag of type 2A named "stitching offset" with the length of the new value
    as its size, followed by the bytes of the new value. *)
Theorem show_after_change_prints_the_new_offset (fuel : nat)
    (param_file_in media : list byte) (es : list entry) (ver room : Z)
    (new_offset : list byte) :
  Forall wf_entry es ->
  first_specific es <> None ->
  0 <= ver < 2 ^ 32 ->
  len new_offset <= 255 ->
  len (media ++ encode_trailer es ver) + len new_offset < 2 ^ 31 ->
  len (media ++ encode_trailer (rewrite_entries new_offset es) ver) < 2 ^ 31 ->
  len (media ++ encode_trailer (rewrite_entries new_offset es) ver) <= room ->
  (length es <= fuel)%nat ->
  len media <= Z.of_nat fuel * kCopyBufferSize ->
  exists (out : list byte) (pre post : list line) (off : Z),
    run_change_stitching_offset fuel (Some (media ++ encode_trailer es ver)) (Some room)
      new_offset
    = Some (Done (mkRun 0 (Some out))) /\
    run_show_info fuel param_file_in (Some out)
    = Some (Done (0, pre ++ TagLine 0x2A "stitching offset"%string (len new_offset) off
                         :: TagData new_offset :: post)).
Proof.
  intros Hwf Hfs Hver Hx Hin Hout Hroom Hfuel Hcopy.
  set (es' := rewrite_entries new_offset es) in *.
  assert (Hok : Forall showable es') by (now apply showable_rewrite_entries).
  assert (Hfuel' : (length es' <= fuel)%nat)
    by (unfold es', rewrite_entries; now rewrite length_map).
  destruct (first_specific es) as [[tags tail]|] eqn:Hsrc; [clear Hfs | congruence].
  pose proof (first_specific_In _ _ _ Hsrc) as Hsin.
  pose proof (proj1 (Forall_forall wf_entry es) Hwf _ Hsin) as [_ [Hone _]].
  destruct (set_offset_has_offset_tag new_offset tags Hone) as (t & Ht & Hcode & Hval).
  assert (He' : In (SpecificInfo (map (set_offset new_offset) tags) tail) (rev es')).
  { apply in_rev. rewrite rev_involutive. unfold es', rewrite_entries. rewrite Hsrc.
    apply in_map_iff. exists (SpecificInfo tags tail). split; [reflexivity | exact Hsin]. }
  destruct (entry_lines_in _ tail t (rev es') (len (encode_entries es')) [] He' Ht)
    as (p1 & p2 & off & Hl).
  exists (media ++ encode_trailer es' ver).
  exists ([UseFile param_file_in;
           TrailerVersionLength (to_int32 ver) (len (encode_trailer es' ver));
           TrailerDecoded (Z.of_nat (length es'))] ++ p1), (p2 ++ [DoneLine]), off.
  split.
  { apply run_change_stitching_offset_complete; try assumption.
    rewrite Hsrc. discriminate. }
  rewrite (run_show_info_complete fuel param_file_in media es' ver Hok Hver Hout Hfuel').
  unfold show_lines. rewrite Hl. unfold tag_line_pair. cbn [fst snd].
  rewrite Hcode, Hval.
  change (name_of kInsFileSpecificHeaderTagTypeOffset) with "stitching offset"%string.
  change kInsFileSpecificHeaderTagTypeOffset with 42.
  do 2 f_equal. f_equal. norm_app. reflexivity.
Qed.

Lemma show_after_change_prints_the_new_offset_witness :
  exists (out : list byte) (pre post : list line) (off : Z),
    run_change_stitching_offset 2 (Some ([x01; x02; x03] ++ encode_trailer sample_entries 3))
      (Some 1000) [x35; x36]
    = Some (Done (mkRun 0 (Some out))) /\
    run_show_info 2 [x61] (Some out)
    = Some (Done (0, pre ++ TagLine 0x2A "stitching offset"%string 2 off
                         :: TagData [x35; x36] :: post)).
Proof.
  apply (show_after_change_prints_the_new_offset 2 [x61] [x01; x02; x03] sample_entries 3
           1000 [x35; x36]).
  - exact sample_entries_wf.
  - discriminate.
  - lia.
  - vm_compute. discriminate.
  - vm_compute. reflexivity.
  - vm_compute. reflexivity.
  - vm_compute. discriminate.
  - simpl. lia.
  - vm_compute. discriminate.
Defined.

(** ** c_vector.h *)

Lemma store_in_block {A : Type} (blk : list (option A)) (i : nat) (x : A) :
  (i < length blk)%nat ->
  CVector.store blk (Z.of_nat i) x = Done (firstn i blk ++ Some x :: skipn (S i) blk) /\
  length (firstn i blk ++ Some x :: skipn (S i) blk) = length blk /\
  firstn (S i) (firstn i blk ++ Some x :: skipn (S i) blk) = firstn i blk ++ [Some x].
Proof.
  intros Hi. unfold CVector.store, CVector.slots.
  replace (0 <=? Z.of_nat i) with true by (symmetry; apply Z.leb_le; lia).
  replace (Z.of_nat i <? Z.of_nat (length blk)) with true by (symmetry; apply Z.ltb_lt; lia).
  cbn [andb]. rewrite Nat2Z.id.
  assert (Hf : length (firstn i blk) = i) by (apply firstn_length_le; lia).
  split; [reflexivity|]. split.
  - rewrite length_app. cbn [length]. rewrite Hf, length_skipn. lia.
  - rewrite firstn_app, Hf. rewrite firstn_all2 by lia.
    replace (S i - i)%nat with 1%nat by lia. reflexivity.
Qed.

Lemma realloc_grows {A : Type} (blk : list (option A)) (k : nat) :
  (length blk <= k)%nat ->
  CVector.realloc blk (Z.of_nat k) = Done (blk ++ repeat None (k - length blk)).
Proof.
  intros H. unfold CVector.realloc.
  replace (Z.of_nat k <? 0) with false by (symmetry; apply Z.ltb_ge; lia).
  rewrite Nat2Z.id. now rewrite firstn_all2 by exact H.
Qed.

Lemma holds_block {A : Type} (v : CVector.t A) (l : list A) :
  holds v l -> (length l <= length (CVector.a v))%nat.
Proof.
  intros (_ & _ & Hf). apply (f_equal (@length _)) in Hf.
  rewrite length_map, length_firstn in Hf. lia.
Qed.

(** One [vector_push]: the element is appended, the invariants are kept. *)
Lemma vector_push_step {A : Type} (v : CVector.t A) (l : list A) (x : A) :
  holds v l -> capacity_ok v -> Z.of_nat (length l) < 2 ^ 30 ->
  exists v', CVector.vector_push v x = Done v' /\ holds v' (l ++ [x]) /\ capacity_ok v'.
Proof.
  intros Hh Hc Hl. pose proof (holds_block v l Hh) as Hb.
  destruct v as [n m a]. destruct Hh as (Hn & Hm & Hf). destruct Hc as (Hp & Hc).
  cbn [CVector.n CVector.m CVector.a] in *.
  unfold CVector.vector_push, CVector.make_room. cbn [CVector.n CVector.m CVector.a].
  assert (Hn1 : to_int32 (n + 1) = Z.of_nat (length (l ++ [x]))).
  { rewrite length_app. cbn [length]. rewrite to_int32_small by lia. lia. }
  destruct (n =? m) eqn:E.
  - apply Z.eqb_eq in E.
    assert (Hla : length a = length l) by lia.
    assert (Ha : a = map Some l) by (rewrite <- Hf; symmetry; apply firstn_all2; lia).
    unfold CVector.next_capacity.
    destruct (m =? 0) eqn:E0.
    + apply Z.eqb_eq in E0. destruct l; [|cbn [length] in *; lia].
      destruct a; [|cbn [length] in *; lia].
      cbn [length] in Hn. change (Z.of_nat 0) with 0 in Hn. subst n.
      eexists. split; [reflexivity|].
      unfold holds, capacity_ok. cbn. split; [repeat split|].
      split; [right; exists 1; split; [lia | reflexivity] | lia].
    + apply Z.eqb_neq in E0.
      rewrite Z.shiftl_mul_pow2 by lia. change (2 ^ 1) with 2.
      replace (0 <? m) with true by (symmetry; apply Z.ltb_lt; lia).
      replace (m * 2 <? 2 ^ 31) with true by (symmetry; apply Z.ltb_lt; lia).
      cbn [andb bind].
      replace (m * 2) with (Z.of_nat (2 * length a)) by lia.
      rewrite realloc_grows by lia. cbn [bind CVector.n CVector.a CVector.m].
      replace (2 * length a - length a)%nat with (length a) by lia.
      replace n with (Z.of_nat (length a)) by lia.
      destruct (store_in_block (a ++ repeat None (length a)) (length a) x)
        as (Hs & Hlen & Hfirst).
      { rewrite length_app, repeat_length. lia. }
      rewrite Hs. cbn [bind]. eexists. split; [reflexivity|].
      unfold holds, capacity_ok. cbn [CVector.n CVector.m CVector.a].
      rewrite (length_app a), repeat_length in Hlen. rewrite Hlen.
      split; [split; [|split]|].
      * rewrite <- Hn1. f_equal. lia.
      * lia.
      * rewrite length_app. cbn [length]. replace (length l + 1)%nat with (S (length a)) by lia.
        rewrite Hfirst. rewrite firstn_app, Nat.sub_diag. cbn [firstn].
        rewrite firstn_all2 by lia. rewrite app_nil_r, map_app. now rewrite Ha at 1.
      * split.
        -- right. destruct Hp as [Hp | (k & Hk & Hp)]; [lia|].
           exists (k + 1). split; [lia|]. rewrite Z.pow_add_r by lia. lia.
        -- rewrite to_int32_small by lia. lia.
  - apply Z.eqb_neq in E. cbn [bind CVector.n CVector.a CVector.m].
    replace n with (Z.of_nat (length l)) by lia.
    destruct (store_in_block a (length l) x) as (Hs & Hlen & Hfirst); [lia|].
    rewrite Hs. cbn [bind]. eexists. split; [reflexivity|].
    unfold holds, capacity_ok. cbn [CVector.n CVector.m CVector.a].
    rewrite Hlen. split; [split; [|split]|].
    + rewrite <- Hn1. f_equal. lia.
    + exact Hm.
    + rewrite length_app. cbn [length]. replace (length l + 1)%nat with (S (length l)) by lia.
      rewrite Hfirst, Hf, map_app. reflexivity.
    + split; [exact Hp|]. rewrite to_int32_small by lia. lia.
Qed.

Lemma push_all_holds {A : Type} :
  forall (xs : list A) (v : CVector.t A) (l : list A),
    holds v l -> capacity_ok v -> Z.of_nat (length (l ++ xs)) <= 2 ^ 30 ->
    exists v', push_all v xs = Done v' /\ holds v' (l ++ xs) /\ capacity_ok v'.
Proof.
  induction xs as [|x xs IH]; intros v l Hh Hc Hl.
  - exists v. rewrite app_nil_r. auto.
  - cbn [push_all]. rewrite length_app in Hl. cbn [length] in Hl.
    destruct (vector_push_step v l x Hh Hc ltac:(lia)) as (v1 & Hp & Hh1 & Hc1).
    rewrite Hp. cbn [bind].
    destruct (IH v1 (l ++ [x]) Hh1 Hc1) as (v' & Hp' & Hh' & Hc').
    { rewrite <- app_assoc. cbn [app]. rewrite length_app. cbn [length]. lia. }
    rewrite <- app_assoc in Hh'. exists v'. auto.
Qed.

Lemma holds_init {A : Type} :
  holds (@CVector.vector_init A) [] /\ capacity_ok (@CVector.vector_init A).
Proof.
  unfold holds, capacity_ok. cbn. repeat split; lia.
Qed.

Lemma holds_vector_at {A : Type} (v : CVector.t A) (l : list A) (i : nat) (x : A) :
  holds v l -> nth_error l i = Some x -> CVector.vector_at v (Z.of_nat i) = Done x.
Proof.
  intros (_ & _ & Hf) Hx. unfold CVector.vector_at, CVector.load.
  replace (0 <=? Z.of_nat i) with true by (symmetry; apply Z.leb_le; lia).
  rewrite Nat2Z.id.
  assert (Hi : (i < length l)%nat) by (apply nth_error_Some; congruence).
  assert (H : nth_error (CVector.a v) i = Some (Some x)).
  { pose proof (nth_error_firstn (length l) (CVector.a v) i) as H.
    replace (i <? length l)%nat with true in H by (symmetry; apply Nat.ltb_lt; exact Hi).
    rewrite <- H, Hf. now apply map_nth_error. }
  now rewrite H.
Qed.

(** X25.  Elements pushed on an empty vector are read back: after [vector_push] of
    the elements of [xs] (at most [2^30] of them), [vector_size] is their
    number and [vector_at] returns the element of [xs] at every index.  The
    list that models the vector in the rest of this development,
    [vector_init] extended by [vector_push], holds the same elements. *)
Theorem pushed_elements_are_read_back {A : Type} (xs : list A) :
  Z.of_nat (length xs) <= 2 ^ 30 ->
  exists v : CVector.t A,
    push_all CVector.vector_init xs = Done v /\
    CVector.vector_size v = vector_size (fold_left vector_push xs vector_init) /\
    forall (i : nat) (x : A),
      nth_error (fold_left vector_push xs vector_init) i = Some x ->
      CVector.vector_at v (Z.of_nat i) = Done x.
Proof.
  intros Hl.
  assert (Hmodel : forall (ys l : list A), fold_left vector_push ys l = l ++ ys).
  { induction ys as [|y ys IH]; intros l; cbn [fold_left]; [now rewrite app_nil_r|].
    rewrite IH. unfold vector_push. now rewrite <- app_assoc. }
  rewrite Hmodel. unfold vector_init. cbn [app].
  destruct (push_all_holds xs CVector.vector_init [] (proj1 holds_init) (proj2 holds_init) Hl)
    as (v & Hp & Hh & _).
  cbn [app] in Hh. exists v. split; [exact Hp|]. split.
  - unfold CVector.vector_size, vector_size. now destruct Hh as (Hn & _).
  - intros i x Hx. now apply (holds_vector_at v xs).
Qed.

Lemma pushed_elements_are_read_back_witness :
  exists v : CVector.t Z,
    push_all CVector.vector_init [7; 8; 9] = Done v /\
    CVector.vector_size v = vector_size (fold_left vector_push [7; 8; 9] vector_init) /\
    forall (i : nat) (x : Z),
      nth_error (fold_left vector_push [7; 8; 9] vector_init) i = Some x ->
      CVector.vector_at v (Z.of_nat i) = Done x.
Proof.
  apply (pushed_elements_are_read_back [7; 8; 9]).
  vm_compute. discriminate.
Defined.

(** X26.  The capacity after any number of pushes on an empty vector (at most
    [2^30]): it is 0 for no push and otherwise a power of two, from 2 on; it
    is at least the size and never more than twice the size minus 2, except
    for the first slot pair. *)
Theorem push_keeps_capacity_tight {A : Type} (xs : list A) :
  Z.of_nat (length xs) <= 2 ^ 30 ->
  exists v : CVector.t A,
    push_all CVector.vector_init xs = Done v /\
    CVector.vector_size v = Z.of_nat (length xs) /\
    (CVector.vector_max v = 0 \/ exists k, 1 <= k /\ CVector.vector_max v = 2 ^ k) /\
    CVector.vector_size v <= CVector.vector_max v
      <= Z.max 2 (2 * CVector.vector_size v - 2).
Proof.
  intros Hl.
  destruct (push_all_holds xs CVector.vector_init [] (proj1 holds_init) (proj2 holds_init) Hl)
    as (v & Hp & Hh & Hc).
  cbn [app] in Hh. exists v. split; [exact Hp|].
  destruct Hh as (Hn & _). destruct Hc as (Hpow & Hc).
  unfold CVector.vector_size, CVector.vector_max. auto.
Qed.

Lemma push_keeps_capacity_tight_witness :
  exists v : CVector.t Z,
    push_all CVector.vector_init [7; 8; 9; 10; 11] = Done v /\
    CVector.vector_size v = 5 /\
    (CVector.vector_max v = 0 \/ exists k, 1 <= k /\ CVector.vector_max v = 2 ^ k) /\
    CVector.vector_size v <= CVector.vector_max v
      <= Z.max 2 (2 * CVector.vector_size v - 2).
Proof.
  apply (push_keeps_capacity_tight [7; 8; 9; 10; 11]).
  vm_compute. discriminate.
Defined.

(** X27.  A push followed by a pop: [vector_pop] returns the element pushed last
    and leaves a vector of the size before the push, with the same capacity,
    in which every earlier element is still read by [vector_at]. *)
Theorem pop_returns_the_last_push {A : Type} (xs : list A) (x : A) :
  Z.of_nat (length xs) < 2 ^ 30 ->
  exists v1 v2 : CVector.t A,
    push_all CVector.vector_init (xs ++ [x]) = Done v1 /\
    CVector.vector_pop v1 = Done (x, v2) /\
    CVector.vector_size v2 = Z.of_nat (length xs) /\
    CVector.vector_max v2 = CVector.vector_max v1 /\
    forall (i : nat) (y : A),
      nth_error xs i = Some y -> CVector.vector_at v2 (Z.of_nat i) = Done y.
Proof.
  intros Hl.
  destruct (push_all_holds (xs ++ [x]) CVector.vector_init [] (proj1 holds_init)
              (proj2 holds_init)) as (v1 & Hp & Hh & _).
  { cbn [app]. rewrite length_app. cbn [length]. lia. }
  cbn [app] in Hh. pose proof Hh as (Hn & Hm & Hf).
  rewrite length_app in Hn, Hf. cbn [length] in Hn, Hf.
  exists v1, (CVector.mk (Z.of_nat (length xs)) (CVector.m v1) (CVector.a v1)).
  split; [exact Hp|]. split; [|split; [reflexivity | split; [reflexivity|]]].
  - unfold CVector.vector_pop. rewrite Hn.
    replace (to_int32 (Z.of_nat (length xs + 1) - 1)) with (Z.of_nat (length xs))
      by (rewrite to_int32_small; lia).
    pose proof (holds_vector_at v1 (xs ++ [x]) (length xs) x Hh) as Hx.
    unfold CVector.vector_at in Hx. rewrite Hx; [reflexivity|].
    rewrite nth_error_app2 by lia. now rewrite Nat.sub_diag.
  - intros i y Hy.
    apply (holds_vector_at _ xs); [|exact Hy].
    unfold holds. cbn [CVector.n CVector.m CVector.a].
    split; [reflexivity|]. split; [exact Hm|].
    apply (f_equal (firstn (length xs))) in Hf.
    rewrite firstn_firstn in Hf.
    replace (Nat.min (length xs) (length xs + 1)) with (length xs) in Hf by lia.
    rewrite Hf, map_app, firstn_app, length_map, Nat.sub_diag. cbn [firstn].
    rewrite app_nil_r. apply firstn_all2. rewrite length_map. lia.
Qed.

Lemma pop_returns_the_last_push_witness :
  exists v1 v2 : CVector.t Z,
    push_all CVector.vector_init ([7; 8] ++ [9]) = Done v1 /\
    CVector.vector_pop v1 = Done (9, v2) /\
    CVector.vector_size v2 = 2 /\
    CVector.vector_max v2 = CVector.vector_max v1 /\
    forall (i : nat) (y : Z),
      nth_error [7; 8] i = Some y -> CVector.vector_at v2 (Z.of_nat i) = Done y.
Proof.
  apply (pop_returns_the_last_push [7; 8] 9).
  vm_compute. reflexivity.
Defined.

(** *** vector_roundup32 *)

Lemma smear_step (w y z : Z) :
  0 < w -> smeared w y z -> smeared (2 * w) y (Z.lor z (Z.shiftr z w)).
Proof.
  intros Hw H n Hn. rewrite Z.lor_spec, Z.shiftr_spec by lia. rewrite orb_true_iff.
  rewrite (H n Hn), (H (n + w) ltac:(lia)). split.
  - intros [(j & Hj & Hb) | (j & Hj & Hb)].
    + exists j. split; [lia | exact Hb].
    + exists (w + j). split; [lia|]. now replace (n + (w + j)) with (n + w + j) by lia.
  - intros (j & Hj & Hb). destruct (Z_lt_le_dec j w).
    + left. exists j. split; [lia | exact Hb].
    + right. exists (j - w). split; [lia|].
      now replace (n + w + (j - w)) with (n + j) by lia.
Qed.

Lemma smeared_self (y : Z) : smeared 1 y y.
Proof.
  intros n Hn. split.
  - intros H. exists 0. split; [lia|]. now rewrite Z.add_0_r.
  - intros (j & Hj & Hb). now replace (n + j) with n in Hb by lia.
Qed.

(** The five [|=] of the macro set every bit below the highest set bit. *)
Lemma smeared_is_ones (y z : Z) :
  0 <= y < 2 ^ 31 -> smeared 32 y z ->
  z = if y =? 0 then 0 else Z.ones (Z.log2 y + 1).
Proof.
  intros Hy H. apply Z.bits_inj'. intros n Hn.
  destruct (y =? 0) eqn:E.
  - apply Z.eqb_eq in E. subst y. rewrite Z.testbit_0_l.
    destruct (Z.testbit z n) eqn:T; [|reflexivity].
    apply (H n Hn) in T. destruct T as (j & _ & Hb).
    rewrite Z.testbit_0_l in Hb. discriminate.
  - apply Z.eqb_neq in E.
    assert (HL : 0 <= Z.log2 y < 31).
    { split; [apply Z.log2_nonneg | apply Z.log2_lt_pow2; lia]. }
    destruct (Z_le_gt_dec n (Z.log2 y)) as [Hlow | Hhigh].
    + rewrite Z.ones_spec_low by lia. apply (H n Hn).
      exists (Z.log2 y - n). split; [lia|].
      replace (n + (Z.log2 y - n)) with (Z.log2 y) by lia. apply Z.bit_log2. lia.
    + rewrite Z.ones_spec_high by lia.
      destruct (Z.testbit z n) eqn:T; [|reflexivity].
      apply (H n Hn) in T. destruct T as (j & Hj & Hb).
      rewrite Z.bits_above_log2 in Hb by lia. discriminate.
Qed.

Lemma roundup32_value (x : Z) :
  0 < x <= 2 ^ 30 ->
  CVector.vector_roundup32 x = if x =? 1 then 1 else 2 ^ (Z.log2 (x - 1) + 1).
Proof.
  intros Hx. unfold CVector.vector_roundup32. cbv zeta.
  rewrite (to_int32_small (x - 1)) by lia.
  match goal with
  | |- to_int32 (?z + 1) = _ =>
      assert (Hs : smeared 32 (x - 1) z)
  end.
  { change 32 with (2 * 16). apply smear_step; [lia|].
    change 16 with (2 * 8). apply smear_step; [lia|].
    change 8 with (2 * 4). apply smear_step; [lia|].
    change 4 with (2 * 2). apply smear_step; [lia|].
    change 2 with (2 * 1) at 1. apply smear_step; [lia|].
    apply smeared_self. }
  rewrite (smeared_is_ones (x - 1) _ ltac:(lia) Hs).
  destruct (x =? 1) eqn:E.
  - apply Z.eqb_eq in E. subst x. reflexivity.
  - apply Z.eqb_neq in E.
    replace (x - 1 =? 0) with false by (symmetry; apply Z.eqb_neq; lia).
    assert (HL : 0 <= Z.log2 (x - 1) < 30).
    { split; [apply Z.log2_nonneg | apply Z.log2_lt_pow2; lia]. }
    rewrite Z.ones_equiv.
    replace (Z.pred (2 ^ (Z.log2 (x - 1) + 1)) + 1) with (2 ^ (Z.log2 (x - 1) + 1)) by lia.
    apply to_int32_small.
    assert (2 ^ (Z.log2 (x - 1) + 1) <= 2 ^ 30) by (apply Z.pow_le_mono_r; lia).
    assert (0 < 2 ^ (Z.log2 (x - 1) + 1)) by (apply Z.pow_pos_nonneg; lia).
    lia.
Qed.

Lemma roundup32_bounds (x : Z) :
  0 < x <= 2 ^ 30 ->
  exists k, 0 <= k <= 30 /\ CVector.vector_roundup32 x = 2 ^ k /\ x <= 2 ^ k < 2 * x.
Proof.
  intros Hx. rewrite (roundup32_value x Hx).
  destruct (x =? 1) eqn:E.
  - apply Z.eqb_eq in E. subst x. exists 0. repeat split; lia.
  - apply Z.eqb_neq in E.
    assert (HL : 0 <= Z.log2 (x - 1) < 30).
    { split; [apply Z.log2_nonneg | apply Z.log2_lt_pow2; lia]. }
    pose proof (Z.log2_spec (x - 1) ltac:(lia)) as Hs.
    unfold Z.succ in Hs.
    exists (Z.log2 (x - 1) + 1). split; [lia|]. split; [reflexivity|].
    rewrite Z.pow_add_r in * by lia. change (2 ^ 1) with 2 in *. lia.
Qed.

(** X28.  [vector_roundup32] rounds up to a power of two: for a value between 1
    and [2^30] the result is the least power of two that is not below it. *)
Theorem roundup32_is_the_next_power_of_two (x : Z) :
  0 < x <= 2 ^ 30 ->
  exists k,
    0 <= k <= 30 /\ CVector.vector_roundup32 x = 2 ^ k /\
    x <= 2 ^ k /\ (forall j, 0 <= j -> x <= 2 ^ j -> 2 ^ k <= 2 ^ j).
Proof.
  intros Hx. destruct (roundup32_bounds x Hx) as (k & Hk & Hr & Hle & Hlt).
  exists k. repeat split; try assumption; try lia.
  intros j Hj Hxj. destruct (Z_le_gt_dec k j) as [Hkj | Hkj].
  - apply Z.pow_le_mono_r; lia.
  - assert (2 ^ j <= 2 ^ (k - 1)) by (apply Z.pow_le_mono_r; lia).
    assert (2 ^ k = 2 * 2 ^ (k - 1)).
    { replace k with (k - 1 + 1) at 1 by lia. rewrite Z.pow_add_r by lia. lia. }
    lia.
Qed.

Lemma roundup32_is_the_next_power_of_two_witness :
  exists k,
    0 <= k <= 30 /\ CVector.vector_roundup32 5 = 2 ^ k /\
    5 <= 2 ^ k /\ (forall j, 0 <= j -> 5 <= 2 ^ j -> 2 ^ k <= 2 ^ j).
Proof.
  apply (roundup32_is_the_next_power_of_two 5). lia.
Defined.

(** *** vector_a *)

Lemma holds_slot {A : Type} (v : CVector.t A) (l : list A) (j : nat) (y : A) :
  holds v l -> nth_error l j = Some y -> nth_error (CVector.a v) j = Some (Some y).
Proof.
  intros (_ & _ & Hf) Hy.
  assert (Hj : (j < length l)%nat) by (apply nth_error_Some; congruence).
  pose proof (nth_error_firstn (length l) (CVector.a v) j) as H.
  replace (j <? length l)%nat with true in H by (symmetry; apply Nat.ltb_lt; exact Hj).
  rewrite <- H, Hf. now apply map_nth_error.
Qed.

(** X29.  [vector_a] at an index [i] not below the size.  When [i] is not below
    the capacity either, the block grows to the next power of two above [i],
    the elements held are kept, and the size becomes [i + 1].  When [i] is
    below the capacity, nothing is allocated and the size becomes [i], not
    [i + 1]: the slot [i] that the expression designates stays outside the
    first [vector_size] slots. *)
Theorem vector_a_size_depends_on_growth {A : Type} (v : CVector.t A) (l : list A) (i : Z) :
  holds v l ->
  (CVector.m v <= i < 2 ^ 30 ->
   exists (v' : CVector.t A) (k : Z),
     CVector.vector_a v i = Done v' /\
     CVector.vector_size v' = i + 1 /\
     CVector.vector_max v' = 2 ^ k /\ i + 1 <= 2 ^ k < 2 * (i + 1) /\
     CVector.vector_max v' = CVector.slots (CVector.a v') /\
     forall (j : nat) (y : A),
       nth_error l j = Some y -> CVector.vector_at v' (Z.of_nat j) = Done y) /\
  (CVector.n v <= i < CVector.m v ->
   CVector.vector_a v i = Done (CVector.mk i (CVector.m v) (CVector.a v))).
Proof.
  intros Hh. pose proof (holds_block v l Hh) as Hb. pose proof Hh as (Hn & Hm & Hf).
  unfold CVector.vector_a. split.
  - intros Hi.
    replace (CVector.m v <=? i) with true by (symmetry; apply Z.leb_le; lia).
    rewrite (to_int32_small (i + 1)) by lia.
    destruct (roundup32_bounds (i + 1) ltac:(lia)) as (k & Hk & Hr & Hle & Hlt).
    rewrite Hr.
    assert (Hpos : 0 <= 2 ^ k) by lia.
    rewrite <- (Z2Nat.id (2 ^ k) Hpos).
    rewrite realloc_grows by lia. cbn [bind].
    eexists _, k. split; [reflexivity|].
    unfold CVector.vector_size, CVector.vector_max, CVector.vector_at, CVector.slots.
    cbn [CVector.n CVector.m CVector.a].
    rewrite length_app, repeat_length. rewrite (Z2Nat.id (2 ^ k) Hpos).
    split; [reflexivity|]. split; [reflexivity|]. split; [lia|]. split; [lia|].
    intros j y Hy. unfold CVector.load.
    replace (0 <=? Z.of_nat j) with true by (symmetry; apply Z.leb_le; lia).
    rewrite Nat2Z.id.
    assert (Hj : (j < length l)%nat) by (apply nth_error_Some; congruence).
    rewrite nth_error_app1 by lia.
    now rewrite (holds_slot v l j y Hh Hy).
  - intros Hi.
    replace (CVector.m v <=? i) with false by (symmetry; apply Z.leb_gt; lia).
    now replace (CVector.n v <=? i) with true by (symmetry; apply Z.leb_le; lia).
Qed.

Lemma vector_a_size_depends_on_growth_witness :
  exists (v' : CVector.t Z) (k : Z),
    CVector.vector_a CVector.vector_init 4 = Done v' /\
    CVector.vector_size v' = 4 + 1 /\
    CVector.vector_max v' = 2 ^ k /\ 4 + 1 <= 2 ^ k < 2 * (4 + 1) /\
    CVector.vector_max v' = CVector.slots (CVector.a v') /\
    forall (j : nat) (y : Z),
      nth_error [] j = Some y -> CVector.vector_at v' (Z.of_nat j) = Done y.
Proof.
  apply (vector_a_size_depends_on_growth CVector.vector_init [] 4).
  - apply holds_init.
  - vm_compute. split; [discriminate | reflexivity].
Defined.

(** ** main *)

(** X30.  The change mode is entered whatever the number of arguments: the
    message about insufficient arguments does not stop [main].  With the
    mode and the input file only, [argv[4]] is read beyond the null pointer
    that ends [argv]; with the output file but no offset, the change is run
    with a null [new_offset]. *)
Theorem change_mode_does_not_check_argc (argv : list (list byte)) :
  nth_error argv 1 = Some [x2d; x63] ->
  (length argv = 3%nat -> main argv = Fault (BadRead 4 1)) /\
  (length argv = 4%nat ->
   exists param_file_in param_file_out,
     nth_error argv 2 = Some param_file_in /\
     nth_error argv 3 = Some param_file_out /\
     main argv = Done (ChangeStitchingOffset param_file_in (Some param_file_out) None)).
Proof.
  intros Hmode.
  destruct argv as [|a0 [|a1 [|a2 [|a3 [|a4 rest]]]]]; try discriminate;
    cbn [nth_error] in Hmode; inversion Hmode; subst; split; intros Hl;
    try discriminate.
  - reflexivity.
  - exists a2, a3. repeat split.
Qed.

Lemma change_mode_does_not_check_argc_witness :
  main [[x61]; [x2d; x63]; [x62]] = Fault (BadRead 4 1).
Proof.
  apply (change_mode_does_not_check_argc [[x61]; [x2d; x63]; [x62]]); reflexivity.
Defined.

(** ** The trailer length that is emitted, past [2^32] *)

Lemma emit_entry_pair (es : list entry) :
  flat_map emit (map entry_pair es) = encode_entries es.
Proof.
  induction es as [|e es IH]; [reflexivity|].
  cbn [map flat_map]. rewrite IH. reflexivity.
Qed.

Lemma emitted_total_entry_pair (es : list entry) :
  emitted_total (map entry_pair es) = len (encode_entries es).
Proof.
  induction es as [|e es IH]; [reflexivity|].
  cbn [map emitted_total]. rewrite IH, encode_entries_cons, len_app, len_encode_entry.
  cbn [entry_pair snd]. lia.
Qed.

(** The types the second pass reads are those of the entries, rewritten or
    not. *)
Lemma items_entry_types (m : buffer) (f : entry -> entry) :
  (forall e, entry_type_of (f e) = entry_type_of e) ->
  len m < 2 ^ 32 ->
  forall (items : list EntryInfo.t) (es : list entry),
    Forall2 (item_at m) items es ->
    Forall (fun e => 0 <= entry_type_of e < 2 ^ 16) es ->
    Forall2 (fun it w => entry_type m (EntryInfo.hdr it) = Done (fst w))
      items (map entry_pair (map f es)).
Proof.
  intros Hf Hm items es H. induction H as [|hdr_info e items es Hat _ IH]; intros Hty.
  - constructor.
  - inversion Hty as [|? ? Hte Hty']. subst. cbn [map]. constructor; [|now apply IH].
    assert (Hp : len (entry_payload e) < 2 ^ 32).
    { destruct Hat as [Hr _]. apply region_bounds in Hr.
      rewrite len_encode_entry in Hr. pose proof (len_nonneg (entry_payload e)).
      lia. }
    destruct (item_fields m hdr_info e Hat Hte Hp) as (Ht & _).
    rewrite Ht. cbn [entry_pair fst]. now rewrite Hf.
Qed.

(** *** A file of three specific-info entries with a long tail *)

Lemma three_specific_entries_wf (tail : list byte) :
  Forall wf_entry (three_specific_entries tail).
Proof.
  constructor; [|constructor; [|constructor; [|constructor]]];
    try exact sample_tags_wf.
  split; [|split; [reflexivity | vm_compute; discriminate]].
  split; [discriminate|]. split; [simpl; lia|]. split; [|simpl; lia].
  repeat constructor; vm_compute; discriminate.
Qed.

Lemma len_three_specific_entries (tail : list byte) :
  len (encode_entries (three_specific_entries tail)) = len tail + 33.
Proof.
  unfold three_specific_entries, encode_entries. cbn [flat_map app].
  rewrite !len_app, !len_encode_entry. cbn [entry_payload]. rewrite !len_app.
  change (len (encode_tags four_tags)) with 9.
  change (len (encode_tags sample_tags)) with 3. change (len []) with 0. lia.
Qed.

(** Every entry of the output carries the payload of the first one. *)
Lemma three_specific_entries_rewritten (tail : list byte) :
  rewrite_entries [x31] (three_specific_entries tail)
  = [SpecificInfo four_tags tail; SpecificInfo four_tags tail; SpecificInfo four_tags tail].
Proof. reflexivity. Qed.

Lemma len_three_specific_entries_rewritten (tail : list byte) :
  len (encode_entries (rewrite_entries [x31] (three_specific_entries tail)))
  = 3 * len tail + 45.
Proof.
  rewrite three_specific_entries_rewritten. unfold encode_entries. cbn [flat_map app].
  rewrite !len_app, !len_encode_entry. cbn [entry_payload]. rewrite !len_app.
  change (len (encode_tags four_tags)) with 9. change (len []) with 0. lia.
Qed.

Lemma len_three_specific_file (tail : list byte) :
  len tail = 3 * 2 ^ 29 ->
  len (encode_trailer (three_specific_entries tail) 3) + 1 < 2 ^ 31.
Proof.
  intros Htail. unfold encode_trailer.
  rewrite len_app, len_minimal_header, len_three_specific_entries, Htail.
  vm_compute. reflexivity.
Qed.

Lemma len_three_specific_output (tail : list byte) :
  len (emitted_file [] (rewrite_entries [x31] (three_specific_entries tail)) 3)
  = 3 * len tail + 117.
Proof.
  unfold emitted_file. cbn [app].
  rewrite len_app, len_minimal_header, len_three_specific_entries_rewritten. lia.
Qed.

(** The run on that file: it returns 0. *)
Lemma three_specific_run (tail : list byte) :
  len tail = 3 * 2 ^ 29 ->
  run_change_stitching_offset 3 (Some (encode_trailer (three_specific_entries tail) 3))
    (Some (2 ^ 40)) [x31]
  = Some (Done (mkRun 0
       (Some (emitted_file [] (rewrite_entries [x31] (three_specific_entries tail)) 3)))).
Proof.
  intros Htail.
  pose proof (len_three_specific_file tail Htail) as Hin.
  pose proof (run_change_stitching_offset_emits 3 [] (three_specific_entries tail) 3
                (2 ^ 40) [x31] (three_specific_entries_wf tail) ltac:(discriminate)
                ltac:(lia) Hin) as Hrun.
  cbn [app] in Hrun.
  rewrite firstn_room in Hrun
    by (rewrite len_three_specific_output, Htail; vm_compute; discriminate).
  apply Hrun.
  - right. unfold slack. cbn [o_room o_buf]. change (len []) with 0.
    rewrite len_three_specific_output, Htail. vm_compute. discriminate.
  - simpl. lia.
  - vm_compute. discriminate.
Qed.

(** What the run reads and finds on the way. *)
Lemma three_specific_stages (tail : list byte) :
  len tail = 3 * 2 ^ 29 ->
  let es := three_specific_entries tail in
  let trailer := encode_trailer es 3 in
  let items := entry_infos (len (encode_entries es)) (rev es) in
  ins_read_allocate_trailer (mkFile trailer 0)
  = (0, Some (trailer, mkTrailerHeader (len trailer) 3), mkFile trailer (len trailer)) /\
  ins_decode_trailer_data 3 trailer (mkTrailerHeader (len trailer) 3) vector_init
  = Some (Done (mkTrailerDecode 0 items (len trailer))) /\
  Forall2 (fun it w => entry_type trailer (EntryInfo.hdr it) = Done (fst w))
    (rev items) (map entry_pair (rewrite_entries [x31] es)).
Proof.
  intros Htail es trailer items.
  pose proof (len_three_specific_file tail Htail) as Hlen. fold es trailer in Hlen.
  destruct (well_formed_file_stages 3 [] es 3 ltac:(lia) ltac:(cbn [app]; fold trailer; lia)
              ltac:(simpl; lia)) as (Hread & Hwalk & Hat).
  cbv zeta in Hread, Hwalk, Hat. cbn [app] in Hread. fold trailer items in Hread, Hwalk, Hat.
  split; [exact Hread|]. split; [exact Hwalk|].
  unfold rewrite_entries. apply items_entry_types.
  - intros e. apply entry_type_rewrite.
  - lia.
  - pose proof (Forall2_rev _ _ _ Hat) as Hr. now rewrite rev_involutive in Hr.
  - repeat constructor; vm_compute; discriminate.
Qed.

(** C4, the claim as stated, on a file of three specific-info entries, the
    first of which carries a tail of [3 * 2^29] bytes.  The input has less
    than [2^31] bytes and the driver returns 0; every entry of the output
    carries the rebuilt payload of the first one, so the sum over the
    entries written of [payload length + 6], plus 72, is
    [3 * (3 * 2^29 + 15) + 72], more than [2^32], and the [trailer_len] of
    the header that is emitted is that number less [2^32]. *)
Lemma emitted_trailer_len_wraps_counterexample :
  ~ (forall (fuel : nat) (file_in : list byte) (room : Z) (new_offset out : list byte)
            (m : buffer) (ti : InsFileTrailerHeaderType) (file : FILE)
            (d : trailer_decode_result) (media : list byte) (ws : list (Z * list byte))
            (new_trailer_len : Z),
        run_change_stitching_offset fuel (Some file_in) (Some room) new_offset
        = Some (Done (mkRun 0 (Some out))) ->
        len out < room ->
        ins_read_allocate_trailer (mkFile file_in 0) = (0, Some (m, ti), file) ->
        ins_decode_trailer_data fuel m ti vector_init = Some (Done d) ->
        Forall2 (fun it w => entry_type m (EntryInfo.hdr it) = Done (fst w))
          (rev (td_items d)) ws ->
        0 <= new_trailer_len < 2 ^ 32 ->
        out = media ++ flat_map emit ws ++ repeat x00 32
              ++ le_encode 4 new_trailer_len ++ le_encode 4 (trailer_version ti)
              ++ kInsFileSignature ->
        new_trailer_len = emitted_total ws + kInsFileMinHeaderLength).
Proof.
  intros H.
  set (tail := repeat x00 (Z.to_nat (3 * 2 ^ 29))).
  assert (Htail : len tail = 3 * 2 ^ 29).
  { unfold tail. rewrite len_repeat. apply Z2Nat.id. vm_compute. discriminate. }
  clearbody tail.
  set (es := three_specific_entries tail).
  set (es' := rewrite_entries [x31] es).
  destruct (three_specific_stages tail Htail) as (Hread & Hwalk & Htypes).
  cbv zeta in Hread, Hwalk, Htypes. fold es es' in Hread, Hwalk, Htypes.
  pose proof (three_specific_run tail Htail) as Hrun. fold es es' in Hrun.
  pose proof (len_three_specific_output tail) as Hout. fold es es' in Hout.
  pose proof (len_three_specific_entries_rewritten tail) as Hb'. fold es es' in Hb'.
  specialize (H 3%nat (encode_trailer es 3) (2 ^ 40) [x31] (emitted_file [] es' 3)
                (encode_trailer es 3)
                (mkTrailerHeader (len (encode_trailer es 3)) 3)
                (mkFile (encode_trailer es 3) (len (encode_trailer es 3)))
                (mkTrailerDecode 0 (entry_infos (len (encode_entries es)) (rev es))
                   (len (encode_trailer es 3)))
                [] (map entry_pair es')
                (to_uint32 (len (encode_entries es') + kInsFileMinHeaderLength))).
  rewrite emitted_total_entry_pair, emit_entry_pair in H.
  assert (Hr : 0 <= to_uint32 (len (encode_entries es') + kInsFileMinHeaderLength) < 2 ^ 32).
  { unfold to_uint32. apply Z.mod_pos_bound. lia. }
  assert (Hbad : to_uint32 (len (encode_entries es') + kInsFileMinHeaderLength)
                 = len (encode_entries es') + kInsFileMinHeaderLength).
  { apply H.
    - exact Hrun.
    - rewrite Hout, Htail. vm_compute. reflexivity.
    - exact Hread.
    - exact Hwalk.
    - exact Htypes.
    - exact Hr.
    - reflexivity. }
  rewrite Hbad, Hb', Htail in Hr. destruct Hr as [_ Hr]. vm_compute in Hr.
  discriminate.
Qed.
